(** * GraphRAG multi-agent workspace: graph service, agent stub and routes

    A shallow embedding of [src/graph.py], [src/agents.py] and
    [src/routes.py] of the DMP-Intellisense backend, and the proofs of the
    properties its specification states about them.

    - Python dictionaries are insertion-ordered association lists with the
      dictionary operations written out ([dict_get], [dict_set],
      [dict_update]); uniqueness of keys is a theorem about the operations,
      not a property of the type.
    - [nx.Graph] is the dict-of-dicts structure of NetworkX, the library
      the service wraps: [_node] maps a node to its attribute dict, [_adj]
      maps a node to the dict of its neighbours, each with the attribute
      dict of the edge; [add_node], [add_edge], [__contains__] and the edge
      views follow the library's methods statement by statement.
    - The methods of [GraphService] are programs over the shared graph and the
      lock ([prog]); [run] executes one of them alone, [step] interleaves a
      pool of them. *)

From Stdlib Require Import String Ascii List ZArith Lia Bool Arith Permutation.
From Stdlib Require Import Floats.SpecFloat.
Import ListNotations.
Open Scope string_scope.
Open Scope list_scope.

Set Implicit Arguments.

(** ** Python dictionaries *)

Section Dict.
Variable V : Type.

Definition dict := list (string * V).

(** [d.get(k)] *)
Fixpoint dict_get (k : string) (d : dict) : option V :=
  match d with
  | [] => None
  | (k', v) :: d' => if String.eqb k k' then Some v else dict_get k d'
  end.

(** [k in d] *)
Definition dict_mem (k : string) (d : dict) : bool :=
  match dict_get k d with Some _ => true | None => false end.

(** [d.get(k, default)] *)
Definition dict_get_default (k : string) (d : dict) (default : V) : V :=
  match dict_get k d with Some v => v | None => default end.

(** [d[k] = v]: an existing key keeps its position, a new key goes last. *)
Fixpoint dict_set (k : string) (v : V) (d : dict) : dict :=
  match d with
  | [] => [(k, v)]
  | (k', v') :: d' =>
      if String.eqb k k' then (k, v) :: d' else (k', v') :: dict_set k v d'
  end.

(** [list(d)], the keys in insertion order *)
Definition dict_keys (d : dict) : list string := map fst d.

(** [d.update(other)] *)
Definition dict_update (d other : dict) : dict :=
  fold_left (fun acc kv => dict_set (fst kv) (snd kv) acc) other d.
End Dict.

(** ** Python strings *)

(** A [str] is held as its UTF-8 bytes.  Python counts and slices by
    character: a character starts at a byte that continues none
    ([10xxxxxx] continues) and takes the continuation bytes after it. *)
Definition is_continuation (c : ascii) : bool :=
  match c with
  | Ascii _ _ _ _ _ _ b6 b7 => b7 && negb b6
  end.

(** [len(s)] *)
Fixpoint py_len (s : string) : nat :=
  match s with
  | EmptyString => 0
  | String c s' => if is_continuation c then py_len s' else S (py_len s')
  end.

(** [s[:n]] *)
Fixpoint py_slice_to (n : nat) (s : string) : string :=
  match s with
  | EmptyString => EmptyString
  | String c s' =>
      if is_continuation c then String c (py_slice_to n s')
      else
        match n with
        | O => EmptyString
        | S n' => String c (py_slice_to n' s')
        end
  end.

(** ** Python values *)

(** The values that travel through the routes: what [request.get_json]
    parses and what [jsonify] serialises.  A [PTuple] is serialised as an
    array. *)
#[warnings="-register-all"]
Inductive pyval : Type :=
| PNone
| PBool (b : bool)
| PInt (z : Z)
| PFloat (f : spec_float)
| PStr (s : string)
| PList (l : list pyval)
| PTuple (l : list pyval)
| PDict (d : list (string * pyval)).

(** [bool(v)], the test behind [if not v] *)
Definition truthy (v : pyval) : bool :=
  match v with
  | PNone => false
  | PBool b => b
  | PInt z => negb (Z.eqb z 0)
  | PFloat (S754_zero _) => false
  | PFloat _ => true
  | PStr s => negb (String.eqb s "")
  | PList l | PTuple l => match l with [] => false | _ => true end
  | PDict d => match d with [] => false | _ => true end
  end.

(** ** nx.Graph *)

Definition attrs := dict pyval.

Record Graph : Type := mkGraph {
  _node : dict attrs;
  _adj : dict (dict attrs)
}.

(** [nx.Graph()] *)
Definition nx_Graph : Graph := {| _node := []; _adj := [] |}.

(** [self._adj[n]] *)
Definition adj_of (g : Graph) (n : string) : dict attrs :=
  dict_get_default n (_adj g) [].

(** [self._node[n]] *)
Definition node_attrs (g : Graph) (n : string) : attrs :=
  dict_get_default n (_node g) [].

(** [Graph.add_node(n, **attr)] *)
Definition nx_add_node (g : Graph) (n : string) (attr : attrs) : Graph :=
  if dict_mem n (_node g) then
    {| _node := dict_set n (dict_update (node_attrs g n) attr) (_node g);
       _adj := _adj g |}
  else
    {| _node := dict_set n (dict_update [] attr) (_node g);
       _adj := dict_set n [] (_adj g) |}.

(** The block [if u not in self._node: ...] of [Graph.add_edge] *)
Definition ensure_node (g : Graph) (u : string) : Graph :=
  if dict_mem u (_node g) then g
  else {| _node := dict_set u [] (_node g); _adj := dict_set u [] (_adj g) |}.

(** [self._adj[u][v] = datadict] *)
Definition set_adj (g : Graph) (u v : string) (datadict : attrs) : Graph :=
  {| _node := _node g;
     _adj := dict_set u (dict_set v datadict (adj_of g u)) (_adj g) |}.

(** [Graph.add_edge(u, v, **attr)] *)
Definition nx_add_edge (g : Graph) (u v : string) (attr : attrs) : Graph :=
  let g1 := ensure_node g u in
  let g2 := ensure_node g1 v in
  let datadict := dict_update (dict_get_default v (adj_of g2 u) []) attr in
  set_adj (set_adj g2 u v datadict) v u datadict.

(** [n in G]: a node is a string here ([node_id: str]); a value of another
    type equals no key, and an unhashable one makes [__contains__] catch the
    [TypeError] and answer [False]. *)
Definition nx_contains (g : Graph) (n : pyval) : option string :=
  match n with
  | PStr s => if dict_mem s (_node g) then Some s else None
  | _ => None
  end.

(** [list(G.edges(n))] for a node [n] of an undirected graph: one pair
    [(n, nbr)] per key of [_adj[n]], in insertion order. *)
Definition nx_edges_of (g : Graph) (n : string) : list (string * string) :=
  map (fun nbr => (n, nbr)) (dict_keys (adj_of g n)).

(** [list(G.edges)]: every row of [_adj] in order, a neighbour already
    visited as a row is skipped. *)
Fixpoint edges_rows (rows : dict (dict attrs)) (seen : list string)
  : list (string * string) :=
  match rows with
  | [] => []
  | (n, nbrs) :: rows' =>
      (map (fun nbr => (n, nbr))
           (filter (fun nbr => negb (existsb (String.eqb nbr) seen))
                   (dict_keys nbrs))
        ++ edges_rows rows' (n :: seen))
  end.

Definition nx_edges (g : Graph) : list (string * string) :=
  edges_rows (_adj g) [].

(** [list(G.nodes)] *)
Definition nx_nodes (g : Graph) : list string := dict_keys (_node g).

(** ** Programs over the shared service state *)

(** The state of the module-level [graph_service]: its graph and its lock. *)
Record Service : Type := mkService {
  graph : Graph;
  locked : bool
}.

(** [GraphService()] *)
Definition GraphService_init : Service :=
  {| graph := nx_Graph; locked := false |}.

(** A method is a tree of accesses to the service: taking and releasing
    [self._lock], reading and writing [self._graph]. *)
Inductive prog (A : Type) : Type :=
| Ret (a : A)
| Acquire (k : prog A)
| Release (k : prog A)
| Get (k : Graph -> prog A)
| Put (g : Graph) (k : prog A).

Arguments Ret {A} a.
Arguments Acquire {A} k.
Arguments Release {A} k.
Arguments Get {A} k.
Arguments Put {A} g k.

Fixpoint bind {A B : Type} (p : prog A) (f : A -> prog B) : prog B :=
  match p with
  | Ret a => f a
  | Acquire k => Acquire (bind k f)
  | Release k => Release (bind k f)
  | Get k => Get (fun g => bind (k g) f)
  | Put g k => Put g (bind k f)
  end.

Notation "x <- p ;; q" := (bind p (fun x => q))
  (at level 61, p at next level, right associativity).
Notation "p ;; q" := (bind p (fun _ => q))
  (at level 61, right associativity).

(** [with self._lock: body] *)
Definition with_lock {A : Type} (body : prog A) : prog A :=
  Acquire (a <- body ;; Release (Ret a)).

(** One access of a thread.  [Lock.acquire] on a held lock does not return,
    [Lock.release] on a free lock is an error: both give [None]. *)
Definition tstep {A : Type} (p : prog A) (s : Service)
  : option (prog A * Service) :=
  match p with
  | Ret _ => None
  | Acquire k =>
      if locked s then None
      else Some (k, {| graph := graph s; locked := true |})
  | Release k =>
      if locked s then Some (k, {| graph := graph s; locked := false |})
      else None
  | Get k => Some (k (graph s), s)
  | Put g k => Some (k, {| graph := g; locked := locked s |})
  end.

(** A program run alone, to its result. *)
Fixpoint run {A : Type} (p : prog A) (s : Service) : option (A * Service) :=
  match p with
  | Ret a => Some (a, s)
  | Acquire k =>
      if locked s then None
      else run k {| graph := graph s; locked := true |}
  | Release k =>
      if locked s then run k {| graph := graph s; locked := false |}
      else None
  | Get k => run (k (graph s)) s
  | Put g k => run k {| graph := g; locked := locked s |}
  end.

(** ** graph.py: GraphService *)

(** How a call ends: it returns a value or raises. *)
Inductive exn : Type := TypeError.

Inductive completion : Type :=
| Returns (v : pyval)
| Raises (e : exn).

(** A call binds its keywords when none is named like a parameter of the
    function called.  Otherwise Python raises [TypeError: got multiple values
    for argument] at the call, and the function is not entered. *)
Definition binds (params : list string) (kwargs : attrs) : bool :=
  negb (existsb (fun name => dict_mem name kwargs) params).

(** [add_node(self, node_id, **attrs)], called with the keywords [attr].
    A keyword [self] or [node_id] does not bind at this call, which raises
    before line 21 asks for the lock.  Line 22 calls
    [Graph.add_node(self, node_for_adding, **attr)] of the library with the
    same keywords: a keyword [node_for_adding] does not bind there, and the
    [TypeError] leaves the [with] block, which gives the lock back; the
    graph is not touched. *)
Definition add_node (node_id : string) (attr : attrs) : prog completion :=
  if binds ["self"; "node_id"] attr then
    with_lock
      (if binds ["self"; "node_for_adding"] attr then
         Get (fun g =>
           Put (nx_add_node g node_id attr) (Ret (Returns PNone)))
       else Ret (Raises TypeError))
  else Ret (Raises TypeError).

(** [add_edge(self, source, target, **attrs)], likewise; line 26 calls
    [Graph.add_edge(self, u_of_edge, v_of_edge, **attr)]. *)
Definition add_edge (source target : string) (attr : attrs)
  : prog completion :=
  if binds ["self"; "source"; "target"] attr then
    with_lock
      (if binds ["self"; "u_of_edge"; "v_of_edge"] attr then
         Get (fun g =>
           Put (nx_add_edge g source target attr) (Ret (Returns PNone)))
       else Ret (Raises TypeError))
  else Ret (Raises TypeError).

(** The keywords with which the call goes through to the graph: they bind
    at the method and at the library. *)
Definition add_node_accepts (attr : attrs) : bool :=
  binds ["self"; "node_id"] attr && binds ["self"; "node_for_adding"] attr.

Definition add_edge_accepts (attr : attrs) : bool :=
  binds ["self"; "source"; "target"] attr &&
  binds ["self"; "u_of_edge"; "v_of_edge"] attr.

(** The pairs of [G.edges(n)] as Python tuples *)
Definition edge_tuple (e : string * string) : pyval :=
  PTuple [PStr (fst e); PStr (snd e)].

(** [query_node] reads the graph three times under the lock: the membership
    test, [self._graph.nodes[node_id]] and [self._graph.edges(node_id)]. *)
Definition query_node_body (node_id : pyval) : prog pyval :=
  Get (fun g =>
    match nx_contains g node_id with
    | None => Ret (PDict [("exists", PBool false)])
    | Some n =>
        Get (fun g1 =>
        Get (fun g2 =>
          Ret (PDict [("exists", PBool true);
                      ("data", PDict (node_attrs g1 n));
                      ("edges",
                       PList (map edge_tuple (nx_edges_of g2 n)))])))
    end).

Definition query_node (node_id : pyval) : prog pyval :=
  with_lock (query_node_body node_id).

(** The calls of the three methods of [GraphService], each with the way it
    ends; [query_node] takes no keywords, and returns. *)
Inductive op : Type :=
| AddNode (node_id : string) (attr : attrs)
| AddEdge (source target : string) (attr : attrs)
| QueryNode (node_id : pyval).

Definition method (o : op) : prog completion :=
  match o with
  | AddNode n attr => add_node n attr
  | AddEdge u v attr => add_edge u v attr
  | QueryNode n =>
      with_lock (result <- query_node_body n ;; Ret (Returns result))
  end.

(** The call enters the method: its keywords bind. *)
Definition entered (o : op) : bool :=
  match o with
  | AddNode _ attr => binds ["self"; "node_id"] attr
  | AddEdge _ _ attr => binds ["self"; "source"; "target"] attr
  | QueryNode _ => true
  end.

(** [add_node] with the call into the library written out, one access to
    the graph for each statement of [Graph.add_node]: the membership test,
    then [self._node[n].update(attr)], or [self._adj[n] = {}],
    [self._node[n] = {}] and the update of the new attribute dict. *)
Definition set_row (g : Graph) (n : string) : Graph :=
  {| _node := _node g; _adj := dict_set n [] (_adj g) |}.

Definition set_attrs (g : Graph) (n : string) (a : attrs) : Graph :=
  {| _node := dict_set n a (_node g); _adj := _adj g |}.

Definition update_attrs (g : Graph) (n : string) (attr : attrs) : Graph :=
  set_attrs g n (dict_update (node_attrs g n) attr).

Definition add_node_by_statement (node_id : string) (attr : attrs)
  : prog completion :=
  if binds ["self"; "node_id"] attr then
    with_lock
      (if binds ["self"; "node_for_adding"] attr then
         Get (fun g =>
           if dict_mem node_id (_node g) then
             Get (fun g1 =>
               Put (update_attrs g1 node_id attr) (Ret (Returns PNone)))
           else
             Get (fun g1 =>
               Put (set_row g1 node_id)
              (Get (fun g2 =>
               Put (set_attrs g2 node_id [])
              (Get (fun g3 =>
               Put (update_attrs g3 node_id attr) (Ret (Returns PNone))))))))
       else Ret (Raises TypeError))
  else Ret (Raises TypeError).

(** [add_edge] with the call into the library written out likewise.  The
    attribute dict of an existing edge is the one object both ends hold, so
    [datadict.update(attr)] changes it at both ends at once; the two
    assignments that follow then store what is already there. *)
Definition modify (f : Graph -> Graph) : prog unit :=
  Get (fun g => Put (f g) (Ret tt)).

Definition create_if_absent (u : string) : prog unit :=
  Get (fun g =>
    if dict_mem u (_node g) then Ret tt
    else
      modify (fun g1 => set_row g1 u) ;;
      modify (fun g2 => set_attrs g2 u [])).

Definition add_edge_by_statement (u v : string) (attr : attrs)
  : prog completion :=
  if binds ["self"; "source"; "target"] attr then
    with_lock
      (if binds ["self"; "u_of_edge"; "v_of_edge"] attr then
         create_if_absent u ;;
         create_if_absent v ;;
         Get (fun g =>
           let found := dict_get v (adj_of g u) in
           let datadict :=
             dict_update (match found with Some d => d | None => [] end) attr
           in
           match found with
           | Some _ =>
               modify (fun g1 =>
                 set_adj (set_adj g1 u v datadict) v u datadict)
           | None => Ret tt
           end ;;
           modify (fun g2 => set_adj g2 u v datadict) ;;
           modify (fun g3 => set_adj g3 v u datadict) ;;
           Ret (Returns PNone))
       else Ret (Raises TypeError))
  else Ret (Raises TypeError).

Definition method_by_statement (o : op) : prog completion :=
  match o with
  | AddNode n attr => add_node_by_statement n attr
  | AddEdge u v attr => add_edge_by_statement u v attr
  | QueryNode n => method (QueryNode n)
  end.

(** ** agents.py and routes.py *)

(** What a view function gives back to Flask: a body for [jsonify] with a
    status, or an exception that no handler catches. *)
Inductive reply : Type :=
| Response (status : Z) (body : pyval)
| Unhandled.

Section Routes.
(** [format(v, "")] of a value that is not a string. *)
Variable py_format : pyval -> string.

(** [AgentService.process_message]: [f"Processed: {message}"] *)
Definition process_message (message : pyval) : string :=
  ("Processed: " ++
   match message with
   | PStr s => s
   | v => py_format v
   end)%string.

(** [graph_query], from the parsed body of the request *)
Definition graph_query (payload : pyval) : prog reply :=
  match payload with
  | PDict d =>
      let node_id := dict_get_default "node" d PNone in
      if negb (truthy node_id) then
        Ret (Response 400 (PDict [("error", PStr "'node' is required")]))
      else
        result <- query_node node_id ;;
        Ret (Response 200 result)
  | _ => Ret Unhandled
  end.

(** [chat] *)
Definition chat (payload : pyval) : prog reply :=
  match payload with
  | PDict d =>
      let message := dict_get_default "message" d PNone in
      if negb (truthy message) then
        Ret (Response 400 (PDict [("error", PStr "'message' is required")]))
      else
        let response := process_message message in
        Ret (Response 200 (PDict [("response", PStr response)]))
  | _ => Ret Unhandled
  end.

(** [content[:100]] and [len(content)] where [content] can be sliced *)
Definition slice100_len (content : pyval) : option (pyval * Z) :=
  match content with
  | PStr s => Some (PStr (py_slice_to 100 s), Z.of_nat (py_len s))
  | PList l => Some (PList (firstn 100 l), Z.of_nat (List.length l))
  | PTuple l => Some (PTuple (firstn 100 l), Z.of_nat (List.length l))
  | _ => None
  end.

(** [document_analyze] *)
Definition document_analyze (payload : pyval) : prog reply :=
  match payload with
  | PDict d =>
      let content := dict_get_default "content" d (PStr "") in
      match slice100_len content with
      | Some (summary, len) =>
          Ret (Response 200 (PDict [("summary", summary);
                                    ("length", PInt len)]))
      | None => Ret Unhandled
      end
  | _ => Ret Unhandled
  end.
End Routes.

(** The rules [register_routes] gives the application: the three views of
    the blueprint, for POST at [/graph/query], [/chat] and
    [/document/analyze]. *)
Inductive rule : Type :=
| Rule_graph_query
| Rule_chat
| Rule_document_analyze.

Definition view_function (py_format : pyval -> string) (r : rule)
    (payload : pyval) : prog reply :=
  match r with
  | Rule_graph_query => graph_query payload
  | Rule_chat => chat py_format payload
  | Rule_document_analyze => document_analyze payload
  end.

(** Requests that the application answers one after another, each by the
    view of its rule on the parsed body. *)
Fixpoint serve (py_format : pyval -> string) (requests : list (rule * pyval))
  : prog (list reply) :=
  match requests with
  | [] => Ret []
  | (r, payload) :: rest =>
      answer <- view_function py_format r payload ;;
      answers <- serve py_format rest ;;
      Ret (answer :: answers)
  end.

(** [content[:100]] is defined: strings and sequences, not [None], numbers
    or dicts. *)
Definition sliceable (v : pyval) : bool :=
  match v with
  | PStr _ | PList _ | PTuple _ => true
  | _ => false
  end.

(** ** Concurrent request handling *)

(** A program that takes and releases no lock: the body of a [with] block. *)
Fixpoint lockfree {A : Type} (p : prog A) : Prop :=
  match p with
  | Ret _ => True
  | Acquire _ | Release _ => False
  | Get k => forall g, lockfree (k g)
  | Put _ k => lockfree k
  end.

(** The worker threads of the server and the service they share. *)
Record pool (A : Type) : Type := mkPool {
  shared : Service;
  threads : list (prog A)
}.

(** Any thread that can make its next access makes it.  The label of the
    step names the thread, by its position in the pool, when the access
    takes the lock. *)
Inductive step {A : Type} : pool A -> list nat -> pool A -> Prop :=
| step_thread : forall s s' l1 p p' l2,
    tstep p s = Some (p', s') ->
    step {| shared := s; threads := l1 ++ p :: l2 |}
         (match p with Acquire _ => [length l1] | _ => [] end)
         {| shared := s'; threads := l1 ++ p' :: l2 |}.

(** [steps st tr st']: the pool goes from [st] to [st'], and [tr] lists the
    threads in the order in which they took the lock. *)
Inductive steps {A : Type} : pool A -> list nat -> pool A -> Prop :=
| steps_refl : forall st, steps st [] st
| steps_next : forall st tr st' ev st'',
    steps st tr st' -> step st' ev st'' -> steps st (tr ++ ev) st''.

(** The pool under a given schedule: at each turn the named thread makes
    its next access; [None] when it cannot. *)
Fixpoint step_at {A : Type} (i : nat) (ths : list (prog A)) (s : Service)
  : option (list (prog A) * Service) :=
  match ths with
  | [] => None
  | p :: ths' =>
      match i with
      | O =>
          match tstep p s with
          | Some (p', s') => Some (p' :: ths', s')
          | None => None
          end
      | S i' =>
          match step_at i' ths' s with
          | Some (ths'', s') => Some (p :: ths'', s')
          | None => None
          end
      end
  end.

Definition takes_lock {A : Type} (i : nat) (ths : list (prog A)) : list nat :=
  match nth_error ths i with
  | Some (Acquire _) => [i]
  | _ => []
  end.

Fixpoint schedule {A : Type} (turns : list nat) (st : pool A)
  : option (list nat * pool A) :=
  match turns with
  | [] => Some ([], st)
  | i :: turns' =>
      match step_at i (threads st) (shared st) with
      | Some (ths, s) =>
          match schedule turns' {| shared := s; threads := ths |} with
          | Some (tr, st') => Some (takes_lock i (threads st) ++ tr, st')
          | None => None
          end
      | None => None
      end
  end.

(** The thread is between the [acquire] and the [release] of its method. *)
Definition in_critical {A : Type} (p : prog A) : bool :=
  match p with
  | Release _ | Get _ | Put _ _ => true
  | Ret _ | Acquire _ => false
  end.

(** The thread has returned. *)
Definition returned {A : Type} (p : prog A) : bool :=
  match p with Ret _ => true | _ => false end.

(** Invocations made one at a time, each with the value it returned. *)
Inductive serial : Service -> list (op * completion) -> Service -> Prop :=
| serial_nil : forall s, serial s [] s
| serial_cons : forall s o a s' l s'',
    run (method o) s = Some (a, s') ->
    serial s' l s'' ->
    serial s ((o, a) :: l) s''.

(** ** The vocabulary of the specification *)

(** Every recorded adjacency joins two nodes of the graph. *)
Definition endpoints_exist (g : Graph) : Prop :=
  forall u nbrs v,
    In (u, nbrs) (_adj g) -> In v (dict_keys nbrs) ->
    In u (nx_nodes g) /\ In v (nx_nodes g).

(** The invocation names [id] as a node to create. *)
Definition creates (o : op) (id : string) : bool :=
  match o with
  | AddNode n _ => String.eqb n id
  | AddEdge u v _ => String.eqb u id || String.eqb v id
  | QueryNode _ => false
  end.

(** The states the service can be in between two requests. *)
Definition reachable (s : Service) : Prop :=
  exists history, serial GraphService_init history s.

(** [(a, b)] is the pair [(u, v)] of an undirected graph, in either order. *)
Definition same_pair (u v : string) (e : string * string) : bool :=
  (String.eqb (fst e) u && String.eqb (snd e) v)
  || (String.eqb (fst e) v && String.eqb (snd e) u).

(** The edges of [G.edges] between [u] and [v]. *)
Definition edges_between (g : Graph) (u v : string) : list (string * string) :=
  filter (same_pair u v) (nx_edges g).

(** [G.has_edge(u, v)] *)
Definition nx_has_edge (g : Graph) (u v : string) : bool :=
  dict_mem v (adj_of g u).

(** The shape the dict-of-dicts keeps: no key twice, a row per node, and
    every edge recorded from both ends with the same data. *)
Record wf (g : Graph) : Prop := mkWf {
  wf_nodes : NoDup (nx_nodes g);
  wf_rows : NoDup (dict_keys (_adj g));
  wf_row_of_node : forall n, dict_mem n (_adj g) = dict_mem n (_node g);
  wf_nbrs : forall n, NoDup (dict_keys (adj_of g n));
  wf_sym : forall u v, dict_get v (adj_of g u) = dict_get u (adj_of g v);
  wf_ends : forall u v, nx_has_edge g u v = true ->
            dict_mem u (_node g) = true /\ dict_mem v (_node g) = true
}.

(** The values Python takes for false. *)
Definition falsy (v : pyval) : Prop :=
  v = PNone \/ v = PBool false \/ v = PInt 0 \/
  (exists sign, v = PFloat (S754_zero sign)) \/
  v = PStr "" \/ v = PList [] \/ v = PTuple [] \/ v = PDict [].

(** The condition in the words of the specification: the [node] field of
    the body is missing ([null] included) or empty. *)
Definition spec_node_missing_or_empty (payload : dict pyval) : bool :=
  match dict_get "node" payload with
  | None | Some PNone => true
  | Some (PStr s) => String.eqb s ""
  | Some (PList []) | Some (PDict []) => true
  | Some _ => false
  end.

(** The answer of [graph_query] in the words of the specification, at one
    body and one state: 400 with the error when [node] is missing or empty,
    and otherwise 200 with what [query_node] returns for it. *)
Definition spec_graph_query (payload : dict pyval) (s : Service) : Prop :=
  if spec_node_missing_or_empty payload then
    run (graph_query (PDict payload)) s =
      Some (Response 400 (PDict [("error", PStr "'node' is required")]), s)
  else
    exists result,
      run (query_node (dict_get_default "node" payload PNone)) s =
        Some (result, s) /\
      run (graph_query (PDict payload)) s = Some (Response 200 result, s).

(** The answer of [document_analyze] in the words of the specification, at
    one body and one state: always a summary and a length. *)
Definition spec_document_analyze (payload : pyval) (s : Service) : Prop :=
  exists summary len s',
    run (document_analyze payload) s =
      Some (Response 200 (PDict [("summary", summary); ("length", len)]), s').

(** A program that never writes the graph. *)
Fixpoint read_only {A : Type} (p : prog A) : Prop :=
  match p with
  | Ret _ => True
  | Acquire k | Release k => read_only k
  | Get k => forall g, read_only (k g)
  | Put _ _ => False
  end.

(** [s * n] on strings *)
Fixpoint str_mul (s : string) (n : nat) : string :=
  match n with
  | O => ""
  | S n' => (s ++ str_mul s n')%string
  end.

(** The euro sign, U+20AC: one character, the bytes E2 82 AC in UTF-8. *)
Definition euro : string :=
  String "226"%char (String "130"%char (String "172"%char EmptyString)).

(** What a lock-free program returns and the graph it leaves. *)
Fixpoint exec {A : Type} (p : prog A) (g : Graph) : A * Graph :=
  match p with
  | Ret a => (a, g)
  | Acquire k | Release k => exec k g
  | Get k => exec (k g) g
  | Put g' k => exec k g'
  end.

(** The calls that entered their method and whose thread has returned,
    each with its result. *)
Fixpoint finished (ops : list op) (ths : list (prog completion))
  : list (op * completion) :=
  match ops, ths with
  | o :: ops', Ret a :: ths' =>
      if entered o then (o, a) :: finished ops' ths' else finished ops' ths'
  | _ :: ops', _ :: ths' => finished ops' ths'
  | _, _ => []
  end.

(** The calls that did not enter their method, each with its result. *)
Definition not_entered (l : list (op * completion)) : list (op * completion) :=
  filter (fun oa => negb (entered (fst oa))) l.

(** A thread of the pool has all of its call to make (which is nothing but
    to raise, when the call does not bind), or has entered its method and
    returned, or is inside the [with] block, where what remains to run
    gives, on the graph as it is now, what the whole method gives on the
    state [s_h] in which it took the lock.  [impl] is the code the threads
    run for each invocation. *)
Definition thread_ok (impl : op -> prog completion) (s_h s : Service)
    (o : op) (p : prog completion) : Prop :=
  p = impl o \/
  (entered o = true /\ exists a, p = Ret a) \/
  (exists q,
      entered o = true /\
      lockfree q /\ p = (a <- q ;; Release (Ret a)) /\
      run (method o) s_h =
        Some (fst (exec q (graph s)),
              {| graph := snd (exec q (graph s)); locked := false |})).

(** The invocation and the result of the thread at a position. *)
Definition outcome_at (ops : list op) (ths : list (prog completion))
    (i : nat) (oa : op * completion) : Prop :=
  nth_error ops i = Some (fst oa) /\ nth_error ths i = Some (Ret (snd oa)).

(** The invariant of the pool: the threads that have returned from their
    method are those of [tr], but for the one that holds the lock; their
    invocations, in that order, account for the state [s_h]; at most one
    thread is inside its method, and exactly when the lock is held. *)
Definition pool_inv (impl : op -> prog completion) (s0 : Service)
    (ops : list op) (tr : list nat) (st : pool completion) : Prop :=
  exists hist s_h done,
    serial s0 hist s_h /\ locked s_h = false /\
    Forall2 (thread_ok impl s_h (shared st)) ops (threads st) /\
    Permutation hist (finished ops (threads st)) /\
    length (filter in_critical (threads st)) =
      (if locked (shared st) then 1%nat else 0%nat) /\
    (locked (shared st) = false -> shared st = s_h) /\
    Forall2 (outcome_at ops (threads st)) done hist /\
    (if locked (shared st) then
       exists h p, tr = (done ++ [h]) /\
                   nth_error (threads st) h = Some p /\ in_critical p = true
     else tr = done).

(** The invocations of the threads [tr], in that order, each with the
    result at its position in [results]. *)
Definition in_order (ops : list op) (results : list completion)
    (tr : list nat) : list (op * completion) :=
  map (fun i => (nth i ops (QueryNode PNone), nth i results (Returns PNone)))
      tr.

(** * Properties *)

(** ** Dictionaries *)

Section DictFacts.
Variable V : Type.
Implicit Types (d : dict V) (k : string) (v : V).

Lemma dict_get_set_same k v d : dict_get k (dict_set k v d) = Some v.
Proof.
  induction d as [|[k' v'] d IH]; simpl.
  - now rewrite String.eqb_refl.
  - destruct (String.eqb k k') eqn:E; simpl.
    + now rewrite String.eqb_refl.
    + now rewrite E.
Qed.

Lemma dict_get_set_other k k' v d :
  k <> k' -> dict_get k' (dict_set k v d) = dict_get k' d.
Proof.
  intros Hne. induction d as [|[k0 v0] d IH]; simpl.
  - destruct (String.eqb k' k) eqn:E; [|reflexivity].
    apply String.eqb_eq in E. congruence.
  - destruct (String.eqb k k0) eqn:E; simpl.
    + apply String.eqb_eq in E. subst k0.
      destruct (String.eqb k' k) eqn:E'; [|reflexivity].
      apply String.eqb_eq in E'. congruence.
    + now rewrite IH.
Qed.

Lemma dict_mem_set_same k v d : dict_mem k (dict_set k v d) = true.
Proof. unfold dict_mem. now rewrite dict_get_set_same. Qed.

Lemma dict_mem_set_other k k' v d :
  k <> k' -> dict_mem k' (dict_set k v d) = dict_mem k' d.
Proof. intros. unfold dict_mem. now rewrite dict_get_set_other. Qed.

Lemma dict_mem_set_mono k k' v d :
  dict_mem k' d = true -> dict_mem k' (dict_set k v d) = true.
Proof.
  intros H. destruct (string_dec k k') as [->|Hne].
  - apply dict_mem_set_same.
  - now rewrite dict_mem_set_other.
Qed.

Lemma dict_mem_In k d : dict_mem k d = true <-> In k (dict_keys d).
Proof.
  unfold dict_mem. induction d as [|[k' v'] d IH]; simpl.
  - split; [discriminate | tauto].
  - destruct (String.eqb k k') eqn:E.
    + apply String.eqb_eq in E. subst. split; auto.
    + apply String.eqb_neq in E. rewrite IH. split; [auto|].
      intros [->|]; [congruence | assumption].
Qed.

Lemma dict_mem_false_In k d : dict_mem k d = false <-> ~ In k (dict_keys d).
Proof.
  rewrite <- dict_mem_In. destruct (dict_mem k d); split; intros; congruence.
Qed.

Lemma dict_get_In k v d : dict_get k d = Some v -> In (k, v) d.
Proof.
  induction d as [|[k' v'] d IH]; simpl; [discriminate|].
  destruct (String.eqb k k') eqn:E.
  - apply String.eqb_eq in E. intros [= ->]. subst. now left.
  - auto.
Qed.

(** Setting a key that is present changes no key; a new key goes last. *)
Lemma dict_keys_set k v d :
  dict_keys (dict_set k v d) =
  if dict_mem k d then dict_keys d else (dict_keys d ++ [k]).
Proof.
  unfold dict_mem. induction d as [|[k' v'] d IH]; simpl; [reflexivity|].
  destruct (String.eqb k k') eqn:E; simpl.
  - apply String.eqb_eq in E. now subst.
  - rewrite IH. now destruct (dict_get k d).
Qed.

Lemma dict_keys_set_In k k' v d :
  In k' (dict_keys (dict_set k v d)) <-> k' = k \/ In k' (dict_keys d).
Proof.
  rewrite dict_keys_set. destruct (dict_mem k d) eqn:E.
  - apply dict_mem_In in E. split; [auto|]. intros [->|]; auto.
  - rewrite in_app_iff. simpl. intuition congruence.
Qed.

Lemma dict_set_NoDup k v d :
  NoDup (dict_keys d) -> NoDup (dict_keys (dict_set k v d)).
Proof.
  intros H. rewrite dict_keys_set. destruct (dict_mem k d) eqn:E; [assumption|].
  apply dict_mem_false_In in E.
  apply NoDup_app; [assumption | repeat constructor; simpl; tauto |].
  intros x Hx [<-|[]]. contradiction.
Qed.

Lemma dict_update_nil d : dict_update d [] = d.
Proof. reflexivity. Qed.

Lemma dict_update_NoDup d other :
  NoDup (dict_keys d) -> NoDup (dict_keys (dict_update d other)).
Proof.
  unfold dict_update. revert d.
  induction other as [|[k v] other IH]; simpl; intros d H; [assumption|].
  apply IH. now apply dict_set_NoDup.
Qed.

Lemma dict_get_default_set_same k v d dflt :
  dict_get_default k (dict_set k v d) dflt = v.
Proof. unfold dict_get_default. now rewrite dict_get_set_same. Qed.

Lemma dict_get_default_set_other k k' v d dflt :
  k <> k' ->
  dict_get_default k' (dict_set k v d) dflt = dict_get_default k' d dflt.
Proof. intros. unfold dict_get_default. now rewrite dict_get_set_other. Qed.
End DictFacts.

(** ** Running a method alone *)

Lemma run_bind {A B : Type} (p : prog A) (f : A -> prog B) (s : Service) :
  run (bind p f) s =
  match run p s with
  | Some (a, s') => run (f a) s'
  | None => None
  end.
Proof.
  revert s. induction p as [a|k IH|k IH|k IH|g k IH]; intros s; simpl.
  - reflexivity.
  - destruct (locked s); [reflexivity | apply IH].
  - destruct (locked s); [apply IH | reflexivity].
  - apply IH.
  - apply IH.
Qed.

(** A method that reads the graph, writes [f g] and returns [a g], under the
    lock: from a free lock it returns, and leaves the lock free. *)
Lemma run_with_lock_get {A : Type} (k : Graph -> prog A) (s : Service) :
  locked s = false ->
  run (with_lock (Get k)) s =
  match run (k (graph s)) {| graph := graph s; locked := true |} with
  | Some (a, s') =>
      if locked s' then Some (a, {| graph := graph s'; locked := false |})
      else None
  | None => None
  end.
Proof.
  intros Hl. unfold with_lock. simpl. rewrite Hl. rewrite run_bind.
  destruct (run _ _) as [[a s']|]; reflexivity.
Qed.

Lemma Service_eta s : locked s = false ->
  {| graph := graph s; locked := false |} = s.
Proof. destruct s; simpl; intros ->; reflexivity. Qed.

(** A [with] block that raises at once gives the lock back. *)
Lemma run_with_lock_Ret {A : Type} (a : A) (s : Service) :
  locked s = false -> run (with_lock (Ret a)) s = Some (a, s).
Proof.
  intros Hl. unfold with_lock. simpl. rewrite Hl. now rewrite Service_eta.
Qed.

(** [add_node] from a free lock: the node is added and [None] returned, or
    a keyword does not bind, [TypeError] is raised and nothing changes. *)
Lemma run_add_node s n attr :
  locked s = false ->
  run (add_node n attr) s =
  Some (if add_node_accepts attr then
          (Returns PNone,
           {| graph := nx_add_node (graph s) n attr; locked := false |})
        else (Raises TypeError, s)).
Proof.
  intros Hl. unfold add_node, add_node_accepts.
  destruct (binds ["self"; "node_id"] attr); [|reflexivity].
  destruct (binds ["self"; "node_for_adding"] attr); cbn [andb].
  - now rewrite run_with_lock_get.
  - now apply run_with_lock_Ret.
Qed.

Lemma run_add_edge s u v attr :
  locked s = false ->
  run (add_edge u v attr) s =
  Some (if add_edge_accepts attr then
          (Returns PNone,
           {| graph := nx_add_edge (graph s) u v attr; locked := false |})
        else (Raises TypeError, s)).
Proof.
  intros Hl. unfold add_edge, add_edge_accepts.
  destruct (binds ["self"; "source"; "target"] attr); [|reflexivity].
  destruct (binds ["self"; "u_of_edge"; "v_of_edge"] attr); cbn [andb].
  - now rewrite run_with_lock_get.
  - now apply run_with_lock_Ret.
Qed.

Lemma run_add_node_accepted s n attr :
  locked s = false -> add_node_accepts attr = true ->
  run (add_node n attr) s =
  Some (Returns PNone,
        {| graph := nx_add_node (graph s) n attr; locked := false |}).
Proof. intros Hl Ha. rewrite run_add_node by assumption. now rewrite Ha. Qed.

Lemma run_add_edge_accepted s u v attr :
  locked s = false -> add_edge_accepts attr = true ->
  run (add_edge u v attr) s =
  Some (Returns PNone,
        {| graph := nx_add_edge (graph s) u v attr; locked := false |}).
Proof. intros Hl Ha. rewrite run_add_edge by assumption. now rewrite Ha. Qed.

Lemma run_query_node s n :
  locked s = false ->
  run (query_node n) s =
  Some (match nx_contains (graph s) n with
        | None => PDict [("exists", PBool false)]
        | Some m =>
            PDict [("exists", PBool true);
                   ("data", PDict (node_attrs (graph s) m));
                   ("edges", PList (map edge_tuple (nx_edges_of (graph s) m)))]
        end, s).
Proof.
  intros Hl. unfold query_node, query_node_body.
  rewrite run_with_lock_get by assumption.
  destruct (nx_contains (graph s) n); simpl; now rewrite Service_eta.
Qed.

(** As an invocation, [query_node] returns what [query_node] gives. *)
Lemma run_method_query_node s n :
  locked s = false ->
  run (method (QueryNode n)) s =
  Some (Returns
          match nx_contains (graph s) n with
          | None => PDict [("exists", PBool false)]
          | Some m =>
              PDict [("exists", PBool true);
                     ("data", PDict (node_attrs (graph s) m));
                     ("edges",
                      PList (map edge_tuple (nx_edges_of (graph s) m)))]
          end, s).
Proof.
  intros Hl. cbn [method]. unfold query_node_body. cbn [bind].
  rewrite run_with_lock_get by assumption.
  destruct (nx_contains (graph s) n); simpl; now rewrite Service_eta.
Qed.

Lemma run_method_query s n :
  locked s = false ->
  run (method (QueryNode n)) s =
  match run (query_node n) s with
  | Some (result, s') => Some (Returns result, s')
  | None => None
  end.
Proof.
  intros Hl. rewrite run_method_query_node, run_query_node by assumption.
  reflexivity.
Qed.

(** What a call does from a free lock, case by case. *)
Ltac run_method Hrun Hl :=
  match type of Hrun with
  | run (method ?o) _ = _ =>
      destruct o as [?n ?attr|?u ?v ?attr|?n];
      [ cbn [method] in Hrun; rewrite run_add_node in Hrun by exact Hl;
        destruct (add_node_accepts _) eqn:?Haccepts
      | cbn [method] in Hrun; rewrite run_add_edge in Hrun by exact Hl;
        destruct (add_edge_accepts _) eqn:?Haccepts
      | rewrite run_method_query_node in Hrun by exact Hl ];
      inversion Hrun; subst; clear Hrun
  end.

(** ** The graph operations *)

Lemma adj_of_set_adj_same g u v dd :
  adj_of (set_adj g u v dd) u = dict_set v dd (adj_of g u).
Proof. unfold adj_of, set_adj; simpl. apply dict_get_default_set_same. Qed.

Lemma adj_of_set_adj_other g u v dd n :
  u <> n -> adj_of (set_adj g u v dd) n = adj_of g n.
Proof.
  intros. unfold adj_of, set_adj; simpl.
  now apply dict_get_default_set_other.
Qed.

Lemma ensure_node_mem g u : dict_mem u (_node (ensure_node g u)) = true.
Proof.
  unfold ensure_node. destruct (dict_mem u (_node g)) eqn:E; simpl.
  - assumption.
  - apply dict_mem_set_same.
Qed.

Lemma ensure_node_mono g u n :
  dict_mem n (_node g) = true -> dict_mem n (_node (ensure_node g u)) = true.
Proof.
  intros H. unfold ensure_node. destruct (dict_mem u (_node g)); simpl.
  - assumption.
  - now apply dict_mem_set_mono.
Qed.

Lemma ensure_node_nodes g u n :
  In n (nx_nodes (ensure_node g u)) <-> n = u \/ In n (nx_nodes g).
Proof.
  unfold ensure_node, nx_nodes.
  destruct (dict_mem u (_node g)) eqn:E; simpl.
  - apply dict_mem_In in E. split; [auto|]. intros [->|]; auto.
  - apply dict_keys_set_In.
Qed.

Lemma nx_add_edge_node g u v attr :
  _node (nx_add_edge g u v attr) = _node (ensure_node (ensure_node g u) v).
Proof. reflexivity. Qed.

Lemma nx_add_edge_nodes g u v attr n :
  In n (nx_nodes (nx_add_edge g u v attr)) <->
  n = u \/ n = v \/ In n (nx_nodes g).
Proof.
  unfold nx_nodes at 1. rewrite nx_add_edge_node.
  fold (nx_nodes (ensure_node (ensure_node g u) v)).
  rewrite !ensure_node_nodes. tauto.
Qed.

Lemma nx_add_node_nodes g m attr n :
  In n (nx_nodes (nx_add_node g m attr)) <-> n = m \/ In n (nx_nodes g).
Proof.
  unfold nx_add_node, nx_nodes.
  destruct (dict_mem m (_node g)) eqn:E; simpl; apply dict_keys_set_In.
Qed.

(** After [add_edge(u, v)], [v] is a key of [_adj[u]]. *)
Lemma nx_add_edge_has_edge g u v attr :
  nx_has_edge (nx_add_edge g u v attr) u v = true.
Proof.
  unfold nx_has_edge, nx_add_edge.
  destruct (string_dec v u) as [->|Hne].
  - rewrite adj_of_set_adj_same. apply dict_mem_set_same.
  - rewrite adj_of_set_adj_other by assumption.
    rewrite adj_of_set_adj_same. apply dict_mem_set_same.
Qed.

Lemma nx_edges_of_In g u v :
  In (u, v) (nx_edges_of g u) <-> nx_has_edge g u v = true.
Proof.
  unfold nx_edges_of, nx_has_edge. rewrite dict_mem_In, in_map_iff. split.
  - intros (x & [= <-] & H). assumption.
  - intros H. now exists v.
Qed.

(** ** Edge insertion and node queries *)

(** C1. After [add_edge(source, target)], from any state of the graph,
    [query_node(source)] answers [exists: True] with the pair
    [(source, target)] among its edges, and [query_node(target)] answers
    [exists: True]; neither endpoint has to be a node beforehand.  The call
    is [add_edge(source, target)] alone or with any keywords that name no
    parameter of [add_edge]; with one that does, the call raises
    [TypeError] instead. *)
Theorem add_edge_then_query (s : Service) (source target : string)
    (attr : attrs) :
  locked s = false ->
  add_edge_accepts attr = true ->
  exists s',
    run (add_edge source target attr) s = Some (Returns PNone, s') /\
    (exists data edges,
        run (query_node (PStr source)) s' =
          Some (PDict [("exists", PBool true); ("data", data);
                       ("edges", PList edges)], s') /\
        In (PTuple [PStr source; PStr target]) edges) /\
    (exists data edges,
        run (query_node (PStr target)) s' =
          Some (PDict [("exists", PBool true); ("data", data);
                       ("edges", edges)], s')).
Proof.
  intros Hl Haccepts. eexists. split; [now apply run_add_edge_accepted|].
  set (g' := nx_add_edge (graph s) source target attr).
  assert (Hs : dict_mem source (_node g') = true).
  { unfold g'. rewrite nx_add_edge_node.
    apply ensure_node_mono, ensure_node_mem. }
  assert (Ht : dict_mem target (_node g') = true).
  { unfold g'. rewrite nx_add_edge_node. apply ensure_node_mem. }
  split.
  - do 2 eexists. rewrite run_query_node by reflexivity.
    cbn [graph nx_contains]. fold g'. rewrite Hs. split; [reflexivity|].
    apply (in_map edge_tuple _ (source, target)).
    apply nx_edges_of_In, nx_add_edge_has_edge.
  - do 2 eexists. rewrite run_query_node by reflexivity.
    cbn [graph nx_contains]. fold g'. rewrite Ht. reflexivity.
Qed.

Lemma add_edge_then_query_witness :
  exists s',
    run (add_edge "a" "b" []) GraphService_init = Some (Returns PNone, s') /\
    (exists data edges,
        run (query_node (PStr "a")) s' =
          Some (PDict [("exists", PBool true); ("data", data);
                       ("edges", PList edges)], s') /\
        In (PTuple [PStr "a"; PStr "b"]) edges) /\
    (exists data edges,
        run (query_node (PStr "b")) s' =
          Some (PDict [("exists", PBool true); ("data", data);
                       ("edges", edges)], s')).
Proof.
  apply (@add_edge_then_query GraphService_init "a" "b" []); reflexivity.
Defined.

Example add_edge_on_empty_graph :
  run (a <- add_edge "a" "b" [] ;; query_node (PStr "a")) GraphService_init =
  Some (PDict [("exists", PBool true); ("data", PDict []);
               ("edges", PList [PTuple [PStr "a"; PStr "b"]])],
        {| graph := {| _node := [("a", []); ("b", [])];
                       _adj := [("a", [("b", [])]); ("b", [("a", [])])] |};
           locked := false |}).
Proof. reflexivity. Qed.

(** A free lock stays free and an absent node stays absent through any
    sequence of invocations that never names it. *)
Lemma serial_unlocked s h s' :
  serial s h s' -> locked s = false -> locked s' = false.
Proof.
  induction 1 as [|s o a s1 l s2 Hrun _ IH]; intros Hl; [assumption|].
  apply IH. run_method Hrun Hl; (reflexivity || assumption).
Qed.

Lemma reachable_unlocked s : reachable s -> locked s = false.
Proof. intros [h H]. now apply (serial_unlocked H). Qed.

Lemma serial_absent id s h s' :
  serial s h s' ->
  locked s = false ->
  Forall (fun oa => creates (fst oa) id = false) h ->
  ~ In id (nx_nodes (graph s)) ->
  ~ In id (nx_nodes (graph s')).
Proof.
  induction 1 as [|s o a s1 l s2 Hrun Hser IH]; intros Hl Hh Hid; [assumption|].
  inversion Hh as [|? ? Ho Hh']; subst. simpl in Ho.
  assert (Hl1 : locked s1 = false)
    by (eapply serial_unlocked; [econstructor; [eassumption | constructor] | assumption]).
  apply IH; [assumption | assumption |].
  run_method Hrun Hl; simpl in Ho; try assumption.
  - simpl. rewrite nx_add_node_nodes. apply String.eqb_neq in Ho.
    intuition congruence.
  - simpl. rewrite nx_add_edge_nodes. apply orb_false_iff in Ho as [Hu Hv].
    apply String.eqb_neq in Hu, Hv. intuition congruence.
Qed.

(** C2. A query for an identifier that is not a node returns the dict
    [{"exists": False}] and nothing else, as an ordinary result; this is the
    case of any identifier that no [add_node] and no [add_edge] has named
    since the service was created. *)
Theorem query_absent_node (s : Service) (id : string) :
  locked s = false ->
  (~ In id (nx_nodes (graph s)) \/
   exists history,
     serial GraphService_init history s /\
     Forall (fun oa => creates (fst oa) id = false) history) ->
  run (query_node (PStr id)) s = Some (PDict [("exists", PBool false)], s).
Proof.
  intros Hl H.
  assert (Hid : ~ In id (nx_nodes (graph s))).
  { destruct H as [H|(h & Hser & Hh)]; [assumption|].
    eapply serial_absent; eauto. }
  rewrite run_query_node by assumption. simpl.
  apply dict_mem_false_In in Hid. now rewrite Hid.
Qed.

Lemma query_absent_node_witness :
  run (query_node (PStr "ghost"))
      {| graph := nx_add_edge nx_Graph "a" "b" []; locked := false |} =
  Some (PDict [("exists", PBool false)],
        {| graph := nx_add_edge nx_Graph "a" "b" []; locked := false |}).
Proof.
  apply (@query_absent_node
           {| graph := nx_add_edge nx_Graph "a" "b" []; locked := false |}
           "ghost").
  - reflexivity.
  - right. exists [(AddEdge "a" "b" [], Returns PNone)]. split.
    + eapply serial_cons; [reflexivity | apply serial_nil].
    + repeat constructor.
Defined.

(** ** Endpoints of edges *)

Lemma dict_set_In_inv {V : Type} (k k' : string) (v v' : V) (d : dict V) :
  In (k', v') (dict_set k v d) -> (k' = k /\ v' = v) \/ In (k', v') d.
Proof.
  induction d as [|[k0 v0] d IH]; simpl.
  - intros [[= <- <-]|[]]. now left.
  - destruct (String.eqb k k0); simpl.
    + intros [[= <- <-]|H]; auto.
    + intros [H|H]; auto. destruct (IH H); auto.
Qed.

Lemma adj_of_In g u v :
  In v (dict_keys (adj_of g u)) ->
  exists nbrs, In (u, nbrs) (_adj g) /\ In v (dict_keys nbrs).
Proof.
  unfold adj_of, dict_get_default.
  destruct (dict_get u (_adj g)) as [nbrs|] eqn:E; [|intros []].
  intros H. exists nbrs. split; [now apply dict_get_In | assumption].
Qed.

Lemma edges_rows_In rows seen u v :
  In (u, v) (edges_rows rows seen) ->
  exists nbrs, In (u, nbrs) rows /\ In v (dict_keys nbrs).
Proof.
  revert seen. induction rows as [|[n nbrs] rows IH]; simpl; intros seen H.
  - destruct H.
  - apply in_app_or in H as [H|H].
    + apply in_map_iff in H as (x & [= <- <-] & Hx).
      apply filter_In in Hx as [Hx _]. exists nbrs. auto.
    + destruct (IH _ H) as (nbrs' & H1 & H2). exists nbrs'. auto.
Qed.

Lemma endpoints_exist_add_node g n attr :
  endpoints_exist g -> endpoints_exist (nx_add_node g n attr).
Proof.
  intros Hg u nbrs v Hu Hv. rewrite !nx_add_node_nodes.
  unfold nx_add_node in Hu. destruct (dict_mem n (_node g)); simpl in Hu.
  - destruct (Hg u nbrs v Hu Hv). auto.
  - apply dict_set_In_inv in Hu as [[-> ->]|Hu]; [destruct Hv|].
    destruct (Hg u nbrs v Hu Hv). auto.
Qed.

Lemma endpoints_exist_ensure_node g n :
  endpoints_exist g -> endpoints_exist (ensure_node g n).
Proof.
  intros Hg u nbrs v Hu Hv. rewrite !ensure_node_nodes.
  unfold ensure_node in Hu. destruct (dict_mem n (_node g)); simpl in Hu.
  - destruct (Hg u nbrs v Hu Hv). auto.
  - apply dict_set_In_inv in Hu as [[-> ->]|Hu]; [destruct Hv|].
    destruct (Hg u nbrs v Hu Hv). auto.
Qed.

Lemma endpoints_exist_set_adj g a b dd :
  endpoints_exist g -> In a (nx_nodes g) -> In b (nx_nodes g) ->
  endpoints_exist (set_adj g a b dd).
Proof.
  intros Hg Ha Hb u nbrs v Hu Hv. unfold set_adj in Hu; simpl in Hu.
  change (nx_nodes (set_adj g a b dd)) with (nx_nodes g).
  apply dict_set_In_inv in Hu as [[-> ->]|Hu].
  - split; [assumption|].
    apply dict_keys_set_In in Hv as [->|Hv]; [assumption|].
    apply adj_of_In in Hv as (nbrs & H1 & H2). now apply (Hg a nbrs v).
  - now apply (Hg u nbrs v).
Qed.

Lemma endpoints_exist_add_edge g u v attr :
  endpoints_exist g -> endpoints_exist (nx_add_edge g u v attr).
Proof.
  intros Hg. unfold nx_add_edge.
  set (g2 := ensure_node (ensure_node g u) v).
  assert (Hu : In u (nx_nodes g2))
    by (unfold g2; rewrite !ensure_node_nodes; auto).
  assert (Hv : In v (nx_nodes g2))
    by (unfold g2; rewrite !ensure_node_nodes; auto).
  apply endpoints_exist_set_adj; [apply endpoints_exist_set_adj | |];
    try assumption.
  unfold g2. now do 2 apply endpoints_exist_ensure_node.
Qed.

Lemma endpoints_exist_serial s h s' :
  serial s h s' -> locked s = false ->
  endpoints_exist (graph s) -> endpoints_exist (graph s').
Proof.
  induction 1 as [|s o a s1 l s2 Hrun Hser IH]; intros Hl Hg; [assumption|].
  assert (Hl1 : locked s1 = false)
    by (eapply serial_unlocked;
        [econstructor; [eassumption | constructor] | assumption]).
  apply IH; [assumption|].
  run_method Hrun Hl; try assumption; simpl.
  - now apply endpoints_exist_add_node.
  - now apply endpoints_exist_add_edge.
Qed.

(** [add_edge(u, v)] records the edge at [v] too. *)
Lemma nx_add_edge_has_edge_back g u v attr :
  nx_has_edge (nx_add_edge g u v attr) v u = true.
Proof.
  unfold nx_has_edge, nx_add_edge.
  rewrite adj_of_set_adj_same. apply dict_mem_set_same.
Qed.

(** C3. Every edge joins two nodes of the graph.  This holds in the empty
    graph of a new service.  Every call of a method ([add_node], [add_edge],
    [query_node], with any arguments) ends, by returning or, when a keyword
    of the call names a parameter, with [TypeError], and keeps it.
    [add_edge(source, target)] in particular, whether or not the endpoints
    are nodes, returns with both of them nodes of the graph and the edge
    recorded at both ends, so it sets up the invariant again by creating
    what is missing.  Hence the invariant holds in every state the service
    reaches, and then the pairs that [G.edges] and [G.edges(n)] list are
    pairs of nodes. *)
Theorem endpoints_exist_invariant :
  endpoints_exist (graph GraphService_init) /\
  (forall s o,
      locked s = false -> endpoints_exist (graph s) ->
      exists c s',
        run (method o) s = Some (c, s') /\
        locked s' = false /\ endpoints_exist (graph s')) /\
  (forall s source target attr,
      locked s = false -> endpoints_exist (graph s) ->
      add_edge_accepts attr = true ->
      exists s',
        run (add_edge source target attr) s = Some (Returns PNone, s') /\
        In source (nx_nodes (graph s')) /\
        In target (nx_nodes (graph s')) /\
        nx_has_edge (graph s') source target = true /\
        nx_has_edge (graph s') target source = true /\
        In (source, target) (nx_edges_of (graph s') source) /\
        In (target, source) (nx_edges_of (graph s') target) /\
        endpoints_exist (graph s')) /\
  (forall s, reachable s -> endpoints_exist (graph s)) /\
  (forall g,
      endpoints_exist g ->
      forall n u v,
        In (u, v) (nx_edges g) \/ In (u, v) (nx_edges_of g n) ->
        In u (nx_nodes g) /\ In v (nx_nodes g)).
Proof.
  assert (H0 : endpoints_exist (graph GraphService_init))
    by (intros u nbrs v []).
  split; [assumption|]. split; [|split; [|split]].
  - intros s o Hl Hg. destruct o as [n attr|u v attr|n].
    + cbn [method]. rewrite run_add_node by assumption.
      destruct (add_node_accepts attr); do 2 eexists;
        (split; [reflexivity|]); (split; [try reflexivity; assumption|]);
        [now apply endpoints_exist_add_node | assumption].
    + cbn [method]. rewrite run_add_edge by assumption.
      destruct (add_edge_accepts attr); do 2 eexists;
        (split; [reflexivity|]); (split; [try reflexivity; assumption|]);
        [now apply endpoints_exist_add_edge | assumption].
    + rewrite run_method_query_node by assumption. do 2 eexists.
      split; [reflexivity|]. auto.
  - intros s source target attr Hl Hg Haccepts. eexists.
    split; [now apply run_add_edge_accepted|]. cbn [graph].
    split; [rewrite nx_add_edge_nodes; auto|].
    split; [rewrite nx_add_edge_nodes; auto|].
    split; [apply nx_add_edge_has_edge|].
    split; [apply nx_add_edge_has_edge_back|].
    split; [apply nx_edges_of_In, nx_add_edge_has_edge|].
    split; [apply nx_edges_of_In, nx_add_edge_has_edge_back|].
    now apply endpoints_exist_add_edge.
  - intros s [h Hser]. now apply (endpoints_exist_serial Hser).
  - intros g Hg n u v [H|H].
    + apply edges_rows_In in H as (nbrs & H1 & H2). now apply (Hg u nbrs v).
    + unfold nx_edges_of in H. apply in_map_iff in H as (x & [= <- <-] & Hx).
      apply adj_of_In in Hx as (nbrs & H1 & H2). now apply (Hg n nbrs x).
Qed.

Lemma endpoints_exist_invariant_witness :
  exists s',
    run (add_edge "a" "b" []) GraphService_init = Some (Returns PNone, s') /\
    In "a" (nx_nodes (graph s')) /\
    In "b" (nx_nodes (graph s')) /\
    nx_has_edge (graph s') "a" "b" = true /\
    nx_has_edge (graph s') "b" "a" = true /\
    In ("a", "b") (nx_edges_of (graph s') "a") /\
    In ("b", "a") (nx_edges_of (graph s') "b") /\
    endpoints_exist (graph s').
Proof.
  apply (proj1 (proj2 (proj2 endpoints_exist_invariant))).
  - reflexivity.
  - apply (proj1 endpoints_exist_invariant).
  - reflexivity.
Defined.

(** ** The shape of reachable graphs *)

Lemma dict_get_set {V : Type} (k k' : string) (v : V) (d : dict V) :
  dict_get k' (dict_set k v d) =
  if String.eqb k k' then Some v else dict_get k' d.
Proof.
  destruct (String.eqb_spec k k') as [->|Hne].
  - apply dict_get_set_same.
  - now apply dict_get_set_other.
Qed.

Lemma dict_mem_set {V : Type} (k k' : string) (v : V) (d : dict V) :
  dict_mem k' (dict_set k v d) = String.eqb k k' || dict_mem k' d.
Proof.
  unfold dict_mem. rewrite dict_get_set. now destruct (String.eqb k k').
Qed.

Lemma adj_of_set_adj g u v dd n :
  adj_of (set_adj g u v dd) n =
  if String.eqb u n then dict_set v dd (adj_of g u) else adj_of g n.
Proof.
  destruct (String.eqb_spec u n) as [->|Hne].
  - apply adj_of_set_adj_same.
  - now apply adj_of_set_adj_other.
Qed.

(** A fresh node gets an empty row, which is what a missing row reads as. *)
Lemma adj_of_fresh_row g n m :
  dict_mem n (_adj g) = false ->
  dict_get_default m (dict_set n [] (_adj g)) [] = adj_of g m.
Proof.
  intros Hn. unfold adj_of, dict_get_default. rewrite dict_get_set.
  destruct (String.eqb_spec n m) as [->|Hne]; [|reflexivity].
  unfold dict_mem in Hn. now destruct (dict_get m (_adj g)).
Qed.

Lemma wf_empty : wf nx_Graph.
Proof.
  split.
  - constructor.
  - constructor.
  - reflexivity.
  - intros n. constructor.
  - reflexivity.
  - intros u v H. discriminate H.
Qed.

Lemma wf_fresh_node g n a :
  wf g -> dict_mem n (_node g) = false ->
  wf {| _node := dict_set n a (_node g); _adj := dict_set n [] (_adj g) |}.
Proof.
  intros [H1 H2 H3 H4 H5 H6] Hn.
  assert (Ha : dict_mem n (_adj g) = false) by now rewrite H3.
  split; simpl.
  - now apply dict_set_NoDup.
  - now apply dict_set_NoDup.
  - intros m. rewrite !dict_mem_set. now rewrite H3.
  - intros m. unfold adj_of; simpl. rewrite adj_of_fresh_row by assumption.
    apply H4.
  - intros u v. unfold adj_of; simpl.
    rewrite !adj_of_fresh_row by assumption. apply H5.
  - intros u v. unfold nx_has_edge, adj_of; simpl.
    rewrite adj_of_fresh_row by assumption. intros H.
    destruct (H6 u v H) as [Hu Hv]. rewrite !dict_mem_set, Hu, Hv.
    now rewrite !orb_true_r.
Qed.

Lemma wf_add_node g n attr : wf g -> wf (nx_add_node g n attr).
Proof.
  intros Hg. unfold nx_add_node.
  destruct (dict_mem n (_node g)) eqn:Hn; [|now apply wf_fresh_node].
  destruct Hg as [H1 H2 H3 H4 H5 H6]. split; simpl; try assumption.
  - now apply dict_set_NoDup.
  - intros m. rewrite dict_mem_set, H3.
    destruct (String.eqb_spec n m) as [->|]; [now rewrite Hn | reflexivity].
  - intros u v H. destruct (H6 u v H) as [Hu Hv].
    rewrite !dict_mem_set, Hu, Hv. now rewrite !orb_true_r.
Qed.

Lemma wf_ensure_node g n : wf g -> wf (ensure_node g n).
Proof.
  intros Hg. unfold ensure_node.
  destruct (dict_mem n (_node g)) eqn:Hn; [assumption|].
  now apply wf_fresh_node.
Qed.

(** The data of every pair after the two assignments of [add_edge]. *)
Lemma get_after_set_adj2 g u v dd a b :
  dict_get b (adj_of (set_adj (set_adj g u v dd) v u dd) a) =
  if same_pair u v (a, b) then Some dd else dict_get b (adj_of g a).
Proof.
  unfold same_pair; cbn [fst snd].
  repeat (rewrite ?adj_of_set_adj, ?dict_get_set;
          match goal with
          | |- context [String.eqb ?x ?y] =>
              destruct (String.eqb_spec x y); subst; cbn [andb orb];
              try congruence
          end);
    reflexivity.
Qed.

Lemma same_pair_swap u v a b : same_pair u v (a, b) = same_pair u v (b, a).
Proof.
  unfold same_pair; simpl.
  destruct (String.eqb a u), (String.eqb b v), (String.eqb a v),
    (String.eqb b u); reflexivity.
Qed.

Lemma same_pair_true u v a b :
  same_pair u v (a, b) = true <-> (a = u /\ b = v) \/ (a = v /\ b = u).
Proof.
  unfold same_pair; simpl.
  rewrite orb_true_iff, !andb_true_iff, !String.eqb_eq. tauto.
Qed.

Lemma wf_set_adj2 g u v dd :
  wf g -> dict_mem u (_node g) = true -> dict_mem v (_node g) = true ->
  wf (set_adj (set_adj g u v dd) v u dd).
Proof.
  intros Hg Hu Hv. pose proof Hg as [H1 H2 H3 H4 H5 H6]. split.
  - assumption.
  - simpl. now do 2 apply dict_set_NoDup.
  - intros n. simpl. rewrite !dict_mem_set, H3.
    destruct (String.eqb_spec v n) as [->|]; simpl; [now rewrite Hv|].
    destruct (String.eqb_spec u n) as [->|]; simpl; [now rewrite Hu|].
    reflexivity.
  - intros n. rewrite !adj_of_set_adj.
    repeat match goal with
      | |- context [if ?c then _ else _] => destruct c
      end;
      repeat apply dict_set_NoDup; apply H4.
  - intros a b. rewrite !get_after_set_adj2, same_pair_swap.
    destruct (same_pair u v (b, a)); [reflexivity | apply H5].
  - intros a b. unfold nx_has_edge, dict_mem.
    rewrite get_after_set_adj2.
    change (_node (set_adj (set_adj g u v dd) v u dd)) with (_node g).
    destruct (same_pair u v (a, b)) eqn:E.
    + intros _. apply same_pair_true in E as [[-> ->]|[-> ->]]; auto.
    + apply H6.
Qed.

Lemma wf_add_edge g u v attr : wf g -> wf (nx_add_edge g u v attr).
Proof.
  intros Hg. unfold nx_add_edge. apply wf_set_adj2.
  - now do 2 apply wf_ensure_node.
  - apply ensure_node_mono, ensure_node_mem.
  - apply ensure_node_mem.
Qed.

Lemma serial_wf s h s' :
  serial s h s' -> locked s = false -> wf (graph s) -> wf (graph s').
Proof.
  induction 1 as [|s o a s1 l s2 Hrun Hser IH]; intros Hl Hg; [assumption|].
  assert (Hl1 : locked s1 = false)
    by (eapply serial_unlocked;
        [econstructor; [eassumption | constructor] | assumption]).
  apply IH; [assumption|].
  run_method Hrun Hl; try assumption; simpl.
  - now apply wf_add_node.
  - now apply wf_add_edge.
Qed.

Lemma reachable_wf s : reachable s -> wf (graph s).
Proof.
  intros [h H]. apply (serial_wf H); [reflexivity | apply wf_empty].
Qed.

(** ** Adding a node twice *)

Lemma dict_set_get_same {V : Type} (k : string) (v : V) (d : dict V) :
  dict_get k d = Some v -> dict_set k v d = d.
Proof.
  induction d as [|[k' v'] d IH]; simpl; [discriminate|].
  destruct (String.eqb_spec k k') as [->|Hne].
  - now intros [= ->].
  - intros H. now rewrite IH.
Qed.

Lemma dict_keys_set_present {V : Type} (k : string) (v : V) (d : dict V) :
  dict_mem k d = true -> dict_keys (dict_set k v d) = dict_keys d.
Proof. intros H. now rewrite dict_keys_set, H. Qed.

(** [add_node(id)] on a node of the graph, with no attribute, changes
    nothing. *)
Lemma nx_add_node_again g id :
  dict_mem id (_node g) = true -> nx_add_node g id [] = g.
Proof.
  intros H. unfold nx_add_node. rewrite H, dict_update_nil.
  unfold node_attrs, dict_get_default, dict_mem in *.
  destruct (dict_get id (_node g)) as [a|] eqn:E; [|discriminate].
  cbv iota. destruct g as [nd ad]; cbn [_node _adj] in *.
  f_equal. now apply dict_set_get_same.
Qed.

Lemma nx_add_node_mem g id attr :
  dict_mem id (_node (nx_add_node g id attr)) = true.
Proof.
  unfold nx_add_node.
  destruct (dict_mem id (_node g)); simpl; apply dict_mem_set_same.
Qed.

(** C7. [add_node] is idempotent on the identifier.  In any state the
    service reaches, [add_node(id)] twice leaves exactly one node [id] (the
    second call changes nothing at all), and [add_node] on an existing node,
    with attributes that name no parameter of [add_node], keeps the list of
    nodes and the edges as they are and updates the attribute mapping of
    that node only. *)
Theorem add_node_idempotent (s : Service) (id : string) :
  reachable s ->
  (exists s1,
      run (add_node id []) s = Some (Returns PNone, s1) /\
      run (add_node id []) s1 = Some (Returns PNone, s1) /\
      count_occ string_dec (nx_nodes (graph s1)) id = 1%nat) /\
  (forall attr,
      add_node_accepts attr = true ->
      In id (nx_nodes (graph s)) ->
      exists s',
        run (add_node id attr) s = Some (Returns PNone, s') /\
        nx_nodes (graph s') = nx_nodes (graph s) /\
        node_attrs (graph s') id = dict_update (node_attrs (graph s) id) attr /\
        (forall n, n <> id ->
                   node_attrs (graph s') n = node_attrs (graph s) n) /\
        _adj (graph s') = _adj (graph s)).
Proof.
  intros Hs. pose proof (reachable_unlocked Hs) as Hl.
  pose proof (reachable_wf Hs) as Hwf. split.
  - eexists. split; [now apply run_add_node_accepted|].
    rewrite run_add_node_accepted by reflexivity. cbn [graph]. split.
    + now rewrite nx_add_node_again by apply nx_add_node_mem.
    + apply NoDup_count_occ'.
      * apply (wf_nodes (wf_add_node id [] Hwf)).
      * apply nx_add_node_nodes. now left.
  - intros attr Haccepts Hin. apply dict_mem_In in Hin.
    eexists. split; [now apply run_add_node_accepted|]. cbn [graph].
    unfold nx_add_node. rewrite Hin. unfold nx_nodes, node_attrs; simpl.
    repeat split.
    + now apply dict_keys_set_present.
    + apply dict_get_default_set_same.
    + intros n Hn. apply dict_get_default_set_other. congruence.
Qed.

Lemma add_node_idempotent_witness :
  (exists s1,
      run (add_node "a" []) GraphService_init = Some (Returns PNone, s1) /\
      run (add_node "a" []) s1 = Some (Returns PNone, s1) /\
      count_occ string_dec (nx_nodes (graph s1)) "a" = 1%nat) /\
  (exists s',
      run (add_node "a" [("kind", PStr "doc")])
          {| graph := nx_add_node nx_Graph "a" []; locked := false |} =
        Some (Returns PNone, s') /\
      nx_nodes (graph s') = ["a"] /\
      node_attrs (graph s') "a" = [("kind", PStr "doc")] /\
      (forall n, n <> "a" ->
                 node_attrs (graph s') n =
                 node_attrs (nx_add_node nx_Graph "a" []) n) /\
      _adj (graph s') = [("a", [])]).
Proof.
  split.
  - apply (@add_node_idempotent GraphService_init "a").
    exists []. apply serial_nil.
  - assert (Hs : reachable
                   {| graph := nx_add_node nx_Graph "a" []; locked := false |}).
    { exists [(AddNode "a" [], Returns PNone)].
      eapply serial_cons; [reflexivity | apply serial_nil]. }
    apply (proj2 (@add_node_idempotent _ "a" Hs) [("kind", PStr "doc")]).
    + reflexivity.
    + left. reflexivity.
Defined.

Example add_node_twice :
  run (a <- add_node "a" [] ;; add_node "a" []) GraphService_init =
  run (add_node "a" []) GraphService_init.
Proof. reflexivity. Qed.

Example add_node_updates_attributes :
  run (a <- add_node "a" [("kind", PStr "doc"); ("rank", PInt 1)] ;;
       b <- add_node "a" [("rank", PInt 2)] ;;
       query_node (PStr "a")) GraphService_init =
  Some (PDict [("exists", PBool true);
               ("data", PDict [("kind", PStr "doc"); ("rank", PInt 2)]);
               ("edges", PList [])],
        {| graph := {| _node := [("a", [("kind", PStr "doc");
                                        ("rank", PInt 2)])];
                       _adj := [("a", [])] |};
           locked := false |}).
Proof. reflexivity. Qed.

(** A keyword named like a parameter: the call raises, whether the name is
    one of [add_node] itself, refused before the lock is asked for, or one
    of [Graph.add_node], refused inside the [with] block. *)
Example add_node_keyword_collision :
  run (add_node "a" [("node_id", PStr "b")]) GraphService_init =
    Some (Raises TypeError, GraphService_init) /\
  run (add_node "a" [("node_id", PStr "b")])
      {| graph := nx_Graph; locked := true |} =
    Some (Raises TypeError, {| graph := nx_Graph; locked := true |}) /\
  run (add_node "a" [("node_for_adding", PStr "b")]) GraphService_init =
    Some (Raises TypeError, GraphService_init) /\
  run (add_node "a" [("node_for_adding", PStr "b")])
      {| graph := nx_Graph; locked := true |} = None.
Proof. repeat split. Qed.

(** ** No parallel edges *)

Lemma pair_dec (x y : string * string) : {x = y} + {x <> y}.
Proof. decide equality; apply string_dec. Defined.

Lemma dict_In_get {V : Type} (k : string) (v : V) (d : dict V) :
  NoDup (dict_keys d) -> In (k, v) d -> dict_get k d = Some v.
Proof.
  induction d as [|[k' v'] d IH]; simpl; [intros _ []|].
  intros Hnd [[= -> ->]|Hin].
  - now rewrite String.eqb_refl.
  - inversion Hnd as [|? ? Hk Hd]; subst.
    destruct (String.eqb_spec k k') as [->|Hne]; [|now apply IH].
    exfalso. apply Hk. now apply (in_map fst _ (k', v)).
Qed.

Lemma adj_of_row g n nbrs :
  NoDup (dict_keys (_adj g)) -> In (n, nbrs) (_adj g) -> adj_of g n = nbrs.
Proof.
  intros Hnd Hin. unfold adj_of, dict_get_default.
  now rewrite (@dict_In_get _ n nbrs _ Hnd Hin).
Qed.

Lemma has_edge_row g u v :
  nx_has_edge g u v = true ->
  In (u, adj_of g u) (_adj g) /\ In v (dict_keys (adj_of g u)).
Proof.
  unfold nx_has_edge. rewrite dict_mem_In. intros H. split; [|assumption].
  unfold adj_of, dict_get_default in *.
  destruct (dict_get u (_adj g)) eqn:E; [now apply dict_get_In | destruct H].
Qed.

Lemma wf_has_edge_sym g u v :
  wf g -> nx_has_edge g u v = nx_has_edge g v u.
Proof.
  intros Hg. unfold nx_has_edge, dict_mem. now rewrite (wf_sym Hg).
Qed.

(** A pair listed by [G.edges] has its second component not yet seen. *)
Lemma edges_rows_not_seen rows seen a b :
  In (a, b) (edges_rows rows seen) -> ~ In b seen.
Proof.
  revert seen. induction rows as [|[n nbrs] rows IH]; simpl; intros seen H.
  - destruct H.
  - apply in_app_or in H as [H|H].
    + apply in_map_iff in H as (x & [= <- <-] & Hx).
      apply filter_In in Hx as [_ Hx]. apply negb_true_iff in Hx.
      intros Hin. assert (existsb (String.eqb x) seen = true); [|congruence].
      apply existsb_exists. exists x. split; [assumption | apply String.eqb_refl].
    + intros Hin. apply (IH _ H). now right.
Qed.

Lemma edges_rows_fst rows seen a b :
  In (a, b) (edges_rows rows seen) -> In a (dict_keys rows).
Proof.
  intros H. apply edges_rows_In in H as (nbrs & H & _).
  now apply (in_map fst _ (a, nbrs)).
Qed.

(** [G.edges] never lists an edge from both ends. *)
Lemma edges_rows_one_way rows seen a b :
  In (a, b) (edges_rows rows seen) -> a <> b ->
  ~ In (b, a) (edges_rows rows seen).
Proof.
  revert seen. induction rows as [|[n nbrs] rows IH]; simpl; intros seen H Hab.
  - destruct H.
  - intros H'. apply in_app_or in H as [H|H]; apply in_app_or in H' as [H'|H'].
    + apply in_map_iff in H as (x & [= <- <-] & _).
      apply in_map_iff in H' as (y & [= <- <-] & _). congruence.
    + apply in_map_iff in H as (x & [= <- <-] & _).
      apply edges_rows_not_seen in H'. apply H'. now left.
    + apply in_map_iff in H' as (y & [= <- <-] & _).
      apply edges_rows_not_seen in H. apply H. now left.
    + now apply (IH _ H Hab).
Qed.

Lemma NoDup_map_pair (n : string) (l : list string) :
  NoDup l -> NoDup (map (fun nbr => (n, nbr)) l).
Proof.
  induction 1 as [|x l Hx Hl IH]; simpl; constructor; [|assumption].
  intros H. apply in_map_iff in H as (y & [= <-] & Hy). contradiction.
Qed.

Lemma edges_rows_NoDup rows seen :
  NoDup (dict_keys rows) ->
  (forall n nbrs, In (n, nbrs) rows -> NoDup (dict_keys nbrs)) ->
  NoDup (edges_rows rows seen).
Proof.
  revert seen. induction rows as [|[n nbrs] rows IH]; simpl; intros seen Hk Hr.
  - constructor.
  - inversion Hk as [|? ? Hn Hk']; subst. apply NoDup_app.
    + apply NoDup_map_pair, NoDup_filter. apply (Hr n nbrs). now left.
    + apply IH; [assumption|]. intros m r Hm. apply (Hr m r). now right.
    + intros [a b] H H'. apply in_map_iff in H as (x & [= <- <-] & _).
      now apply edges_rows_fst in H'.
Qed.

(** An edge recorded from both ends is listed from the end that comes first. *)
Lemma edges_rows_lists rows seen u v ru rv :
  NoDup (dict_keys rows) ->
  In (u, ru) rows -> In v (dict_keys ru) ->
  In (v, rv) rows -> In u (dict_keys rv) ->
  ~ In u seen -> ~ In v seen ->
  In (u, v) (edges_rows rows seen) \/ In (v, u) (edges_rows rows seen).
Proof.
  revert seen.
  induction rows as [|[n nbrs] rows IH]; simpl; intros seen Hk Hu Huv Hv Hvu Hsu Hsv.
  - destruct Hu.
  - inversion Hk as [|? ? Hn Hk']; subst.
    assert (Hfresh : forall x, negb (existsb (String.eqb x) seen) = true <->
                               ~ In x seen).
    { intros x. rewrite negb_true_iff, <- not_true_iff_false, existsb_exists.
      split; intros H.
      - intros Hx. apply H. exists x. split; [assumption | apply String.eqb_refl].
      - intros (y & Hy & E). apply String.eqb_eq in E. now subst. }
    destruct Hu as [[= -> ->]|Hu].
    { left. apply in_or_app. left. apply in_map, filter_In.
      split; [assumption | now apply Hfresh]. }
    destruct Hv as [[= -> ->]|Hv].
    { right. apply in_or_app. left. apply in_map, filter_In.
      split; [assumption | now apply Hfresh]. }
    assert (n <> u)
      by (intros ->; apply Hn; now apply (in_map fst _ (u, ru))).
    assert (n <> v)
      by (intros ->; apply Hn; now apply (in_map fst _ (v, rv))).
    destruct (IH (n :: seen) Hk' Hu Huv Hv Hvu) as [H'|H'];
      try (simpl; intuition congruence);
      [left | right]; apply in_or_app; now right.
Qed.

Lemma wf_edges_NoDup g : wf g -> NoDup (nx_edges g).
Proof.
  intros Hg. apply edges_rows_NoDup; [apply (wf_rows Hg)|].
  intros n nbrs H. rewrite <- (@adj_of_row g n nbrs (wf_rows Hg) H).
  apply (wf_nbrs Hg).
Qed.

Lemma wf_edges_lists g u v :
  wf g -> nx_has_edge g u v = true ->
  In (u, v) (nx_edges g) \/ In (v, u) (nx_edges g).
Proof.
  intros Hg Huv. pose proof Huv as Hvu. rewrite (@wf_has_edge_sym g u v Hg) in Hvu.
  apply has_edge_row in Huv as [H1 H2]. apply has_edge_row in Hvu as [H3 H4].
  apply (@edges_rows_lists _ [] u v _ _ (wf_rows Hg) H1 H2 H3 H4); simpl; tauto.
Qed.

Lemma edges_between_le g u v : wf g -> length (edges_between g u v) <= 1.
Proof.
  intros Hg. unfold edges_between.
  assert (Hnd : NoDup (filter (same_pair u v) (nx_edges g)))
    by apply NoDup_filter, wf_edges_NoDup, Hg.
  destruct (in_dec pair_dec (u, v) (nx_edges g)) as [Hin|Hout].
  - apply (NoDup_incl_length (l' := [(u, v)]) Hnd).
    intros [a b] H. apply filter_In in H as [H E].
    apply same_pair_true in E as [[-> ->]|[-> ->]]; [now left|].
    destruct (string_dec u v) as [->|Hne]; [now left|].
    exfalso. now apply (@edges_rows_one_way _ _ u v Hin Hne).
  - apply (NoDup_incl_length (l' := [(v, u)]) Hnd).
    intros [a b] H. apply filter_In in H as [H E].
    apply same_pair_true in E as [[-> ->]|[-> ->]]; [contradiction | now left].
Qed.

Lemma edges_between_has_edge g u v :
  wf g -> nx_has_edge g u v = true -> length (edges_between g u v) = 1.
Proof.
  intros Hg H. pose proof (@edges_between_le g u v Hg) as Hle.
  assert (Hin : exists e, In e (edges_between g u v)).
  { unfold edges_between.
    destruct (@wf_edges_lists g u v Hg H) as [H'|H'];
      eexists; apply filter_In; (split; [eassumption|]);
      apply same_pair_true; auto. }
  destruct Hin as [e He]. destruct (edges_between g u v); [destruct He|].
  simpl in *. lia.
Qed.

Lemma ensure_node_present g u :
  dict_mem u (_node g) = true -> ensure_node g u = g.
Proof. intros H. unfold ensure_node. now rewrite H. Qed.

Lemma has_edge_get_row g u v :
  nx_has_edge g u v = true -> dict_get u (_adj g) = Some (adj_of g u).
Proof.
  unfold nx_has_edge, adj_of, dict_get_default.
  destruct (dict_get u (_adj g)); [reflexivity | discriminate].
Qed.

(** Replacing a row by one with the same keys changes no listed edge. *)
Lemma edges_rows_set_present rows seen k row row' :
  dict_get k rows = Some row -> dict_keys row' = dict_keys row ->
  edges_rows (dict_set k row' rows) seen = edges_rows rows seen.
Proof.
  revert seen. induction rows as [|[n nbrs] rows IH]; simpl; intros seen Hk Hr.
  - discriminate.
  - destruct (String.eqb_spec k n) as [->|Hne]; simpl.
    + injection Hk as ->. now rewrite Hr.
    + now rewrite IH.
Qed.

Lemma nx_edges_set_adj g u v dd :
  nx_has_edge g u v = true -> nx_edges (set_adj g u v dd) = nx_edges g.
Proof.
  intros H. unfold nx_edges, set_adj; simpl.
  apply edges_rows_set_present with (row := adj_of g u).
  - now apply has_edge_get_row with (v := v).
  - now apply dict_keys_set_present.
Qed.

Lemma has_edge_set_adj g u v dd a b :
  nx_has_edge (set_adj g u v dd) a b =
  (String.eqb u a && String.eqb v b) || nx_has_edge g a b.
Proof.
  unfold nx_has_edge. rewrite adj_of_set_adj.
  destruct (String.eqb_spec u a) as [->|Hne]; simpl; [|reflexivity].
  apply dict_mem_set.
Qed.

Lemma nx_edges_of_NoDup g n : wf g -> NoDup (nx_edges_of g n).
Proof. intros Hg. apply NoDup_map_pair, (wf_nbrs Hg). Qed.

(** C8. The graph holds no parallel edges.  In any state the service
    reaches, [G.edges] lists at most one edge between any two nodes, in
    either order; [add_edge] on a pair that has an edge, whichever end is
    given first and with attributes that name no parameter of [add_edge],
    returns, leaves the nodes and the listed edges as they were, with
    exactly one edge between the pair, listed once from either end, and
    updates the attributes of that edge with the ones given. *)
Theorem no_parallel_edges (s : Service) (u v : string) :
  reachable s ->
  length (edges_between (graph s) u v) <= 1 /\
  forall attr,
    add_edge_accepts attr = true ->
    nx_has_edge (graph s) u v = true \/ nx_has_edge (graph s) v u = true ->
    exists s',
      run (add_edge u v attr) s = Some (Returns PNone, s') /\
      nx_nodes (graph s') = nx_nodes (graph s) /\
      nx_edges (graph s') = nx_edges (graph s) /\
      length (edges_between (graph s') u v) = 1%nat /\
      count_occ pair_dec (nx_edges_of (graph s') u) (u, v) = 1%nat /\
      count_occ pair_dec (nx_edges_of (graph s') v) (v, u) = 1%nat /\
      let data :=
        dict_update (dict_get_default v (adj_of (graph s) u) []) attr in
      dict_get v (adj_of (graph s') u) = Some data /\
      dict_get u (adj_of (graph s') v) = Some data.
Proof.
  intros Hs. pose proof (reachable_unlocked Hs) as Hl.
  pose proof (reachable_wf Hs) as Hwf.
  split; [now apply edges_between_le|].
  intros attr Haccepts He0.
  assert (He : nx_has_edge (graph s) u v = true)
    by (destruct He0 as [H|H];
        [assumption | now rewrite (@wf_has_edge_sym _ u v Hwf)]).
  eexists. split; [now apply run_add_edge_accepted|]. cbn [graph].
  pose proof (wf_add_edge u v attr Hwf) as Hwf'.
  pose proof (nx_add_edge_has_edge (graph s) u v attr) as He'.
  destruct (wf_ends Hwf _ _ He) as [Hu Hv].
  assert (Hg : nx_add_edge (graph s) u v attr =
               set_adj (set_adj (graph s) u v
                 (dict_update (dict_get_default v (adj_of (graph s) u) []) attr))
                 v u
                 (dict_update (dict_get_default v (adj_of (graph s) u) []) attr)).
  { unfold nx_add_edge.
    rewrite (@ensure_node_present _ _ Hu), (@ensure_node_present _ _ Hv).
    reflexivity. }
  repeat split.
  - rewrite Hg. reflexivity.
  - rewrite Hg. rewrite !nx_edges_set_adj; [reflexivity | assumption |].
    rewrite has_edge_set_adj, <- (@wf_has_edge_sym _ u v Hwf), He.
    apply orb_true_r.
  - now apply edges_between_has_edge.
  - apply NoDup_count_occ'; [now apply nx_edges_of_NoDup|].
    now apply nx_edges_of_In.
  - apply NoDup_count_occ'; [now apply nx_edges_of_NoDup|].
    apply nx_edges_of_In. now rewrite <- (@wf_has_edge_sym _ u v Hwf').
  - rewrite Hg, get_after_set_adj2.
    unfold same_pair; simpl. now rewrite !String.eqb_refl.
  - rewrite Hg, get_after_set_adj2.
    unfold same_pair; simpl. rewrite !String.eqb_refl. simpl.
    now rewrite orb_true_r.
Qed.

Lemma no_parallel_edges_witness :
  length (edges_between
            (nx_add_edge nx_Graph "a" "b" [("w", PInt 1)]) "b" "a") <= 1 /\
  exists s',
    run (add_edge "b" "a" [("w", PInt 2)])
        {| graph := nx_add_edge nx_Graph "a" "b" [("w", PInt 1)];
           locked := false |} = Some (Returns PNone, s') /\
    nx_nodes (graph s') = ["a"; "b"] /\
    nx_edges (graph s') = [("a", "b")] /\
    length (edges_between (graph s') "b" "a") = 1%nat /\
    count_occ pair_dec (nx_edges_of (graph s') "b") ("b", "a") = 1%nat /\
    count_occ pair_dec (nx_edges_of (graph s') "a") ("a", "b") = 1%nat /\
    dict_get "a" (adj_of (graph s') "b") = Some [("w", PInt 2)] /\
    dict_get "b" (adj_of (graph s') "a") = Some [("w", PInt 2)].
Proof.
  assert (Hs : reachable
                 {| graph := nx_add_edge nx_Graph "a" "b" [("w", PInt 1)];
                    locked := false |}).
  { exists [(AddEdge "a" "b" [("w", PInt 1)], Returns PNone)].
    eapply serial_cons; [reflexivity | apply serial_nil]. }
  split.
  - apply (proj1 (@no_parallel_edges _ "b" "a" Hs)).
  - apply (proj2 (@no_parallel_edges _ "b" "a" Hs) [("w", PInt 2)]).
    + reflexivity.
    + left. reflexivity.
Defined.

(** The attributes given overwrite those of the same name; the others stay. *)
Example add_edge_again_merges_attributes :
  run (add_edge "a" "b" [("w", PInt 1); ("colour", PStr "red")] ;;
       add_edge "a" "b" [("w", PInt 2)] ;;
       Get (fun g => Ret (dict_get "b" (adj_of g "a"), nx_edges g)))
      GraphService_init =
  Some ((Some [("w", PInt 2); ("colour", PStr "red")], [("a", "b")]),
        {| graph := {| _node := [("a", []); ("b", [])];
                       _adj := [("a", [("b", [("w", PInt 2);
                                              ("colour", PStr "red")])]);
                                ("b", [("a", [("w", PInt 2);
                                              ("colour", PStr "red")])])] |};
           locked := false |}).
Proof. reflexivity. Qed.

Example add_edge_again_from_the_other_end :
  run (a <- add_edge "a" "b" [("w", PInt 1)] ;;
       b <- add_edge "b" "a" [("w", PInt 2)] ;;
       query_node (PStr "a")) GraphService_init =
  Some (PDict [("exists", PBool true); ("data", PDict []);
               ("edges", PList [PTuple [PStr "a"; PStr "b"]])],
        {| graph := {| _node := [("a", []); ("b", [])];
                       _adj := [("a", [("b", [("w", PInt 2)])]);
                                ("b", [("a", [("w", PInt 2)])])] |};
           locked := false |}).
Proof. reflexivity. Qed.

(** ** The routes *)

Lemma truthy_false_iff v : truthy v = false <-> falsy v.
Proof.
  unfold falsy. split.
  - destruct v as [|b|z|f|s|l|l|d]; simpl; intros H.
    + auto.
    + subst. auto.
    + apply negb_false_iff, Z.eqb_eq in H. subst. auto.
    + destruct f; try discriminate. do 3 right. left. now eexists.
    + apply negb_false_iff, String.eqb_eq in H. subst. auto 10.
    + destruct l; [auto 10 | discriminate].
    + destruct l; [auto 10 | discriminate].
    + destruct d; [auto 10 | discriminate].
  - intros [->|[->|[->|[[sg ->]|[->|[->|[->| ->]]]]]]]; reflexivity.
Qed.

(** [s[:n]] has [n] characters, or all of [s]. *)
Lemma py_slice_to_len n s :
  py_len (py_slice_to n s) = Nat.min n (py_len s).
Proof.
  revert n. induction s as [|c s IH]; intros n; simpl.
  - now rewrite Nat.min_0_r.
  - destruct (is_continuation c) eqn:E; simpl.
    + rewrite E. apply IH.
    + destruct n as [|n]; simpl; [reflexivity|]. rewrite E. now rewrite IH.
Qed.

Lemma py_slice_to_prefix n s : prefix (py_slice_to n s) s = true.
Proof.
  revert n. induction s as [|c s IH]; intros n; simpl; [reflexivity|].
  destruct (is_continuation c); [|destruct n as [|n]; [reflexivity|]];
    simpl; (destruct (ascii_dec c c); [apply IH | congruence]).
Qed.

Lemma py_slice_to_all n s : py_len s <= n -> py_slice_to n s = s.
Proof.
  revert n. induction s as [|c s IH]; intros n; simpl; [reflexivity|].
  destruct (is_continuation c); intros H.
  - f_equal. now apply IH.
  - destruct n as [|n]; [lia|]. f_equal. apply IH. lia.
Qed.

(** [s[:n]] ends where a character of [s] ends: what follows it in [s] is
    nothing, or starts a character. *)
Lemma py_slice_to_split n s :
  exists rest,
    s = (py_slice_to n s ++ rest)%string /\
    match rest with
    | EmptyString => True
    | String c _ => is_continuation c = false
    end.
Proof.
  revert n. induction s as [|c s IH]; intros n; simpl.
  - now exists EmptyString.
  - destruct (is_continuation c) eqn:E.
    + destruct (IH n) as (rest & H1 & H2). exists rest. simpl.
      split; [now rewrite <- H1 | assumption].
    + destruct n as [|n].
      * exists (String c s). split; [reflexivity | assumption].
      * destruct (IH n) as (rest & H1 & H2). exists rest. simpl.
        split; [now rewrite <- H1 | assumption].
Qed.

(** Where each character is one byte, characters are bytes. *)
Lemma py_len_one_byte s :
  (forall c, In c (list_ascii_of_string s) -> is_continuation c = false) ->
  py_len s = String.length s /\ forall n, py_slice_to n s = substring 0 n s.
Proof.
  induction s as [|c s IH]; simpl; intros H.
  - split; [reflexivity|]. now intros [|n].
  - rewrite (H c) by now left.
    destruct IH as [IH1 IH2]; [intros c' Hc'; apply H; now right|].
    split; [now rewrite IH1|].
    intros [|n]; [reflexivity|]. now rewrite IH2.
Qed.

Lemma substring_0_all n s :
  String.length s <= n -> substring 0 n s = s.
Proof.
  revert s. induction n as [|n IH]; intros [|c s]; simpl; intros H; auto.
  - lia.
  - f_equal. apply IH. lia.
Qed.

Section RouteFacts.
Variable py_format : pyval -> string.

(** C4. [process_message] returns its argument behind the tag
    ["Processed: "], for every string; it is a function of the message
    alone.  [chat] on a body whose [message] is a string answers 200 with
    that text under [response] (400 when the string is empty) and leaves
    the service as it was; so does the body [{"message": "hi"}], with
    ["Processed: hi"]. *)
Theorem chat_processes_message (message : string) (s : Service) :
  process_message py_format (PStr message) =
    ("Processed: " ++ message)%string /\
  run (chat py_format (PDict [("message", PStr message)])) s =
    Some (if String.eqb message "" then
            Response 400 (PDict [("error", PStr "'message' is required")])
          else
            Response 200
              (PDict [("response",
                       PStr ("Processed: " ++ message)%string)]),
          s) /\
  run (chat py_format (PDict [("message", PStr "hi")])) s =
    Some (Response 200 (PDict [("response", PStr "Processed: hi")]), s).
Proof.
  split; [reflexivity|]. split; [|reflexivity].
  unfold chat. cbn [dict_get_default dict_get String.eqb Ascii.eqb Bool.eqb].
  cbn [truthy]. now destruct (String.eqb message "").
Qed.

(** C5, as the code has it.  On a body that is a JSON object,
    [graph_query] answers 400 with [{"error": "'node' is required"}] when
    the [node] field is missing or holds a value Python takes for false
    ([null], [false], [0], [0.0], an empty string, array or object);
    with any other value it answers 200 with the very dict that
    [query_node] returns for that value.  The graph is left as it was. *)
Theorem graph_query_validates_node (d : dict pyval) (s : Service) :
  locked s = false ->
  ((dict_get "node" d = None \/
    exists v, dict_get "node" d = Some v /\ falsy v) ->
   run (graph_query (PDict d)) s =
     Some (Response 400 (PDict [("error", PStr "'node' is required")]), s)) /\
  (forall v,
      dict_get "node" d = Some v -> ~ falsy v ->
      exists result,
        run (query_node v) s = Some (result, s) /\
        run (graph_query (PDict d)) s = Some (Response 200 result, s)).
Proof.
  intros Hl. unfold graph_query, dict_get_default. split.
  - intros [->|(v & -> & Hv)]; [reflexivity|].
    apply truthy_false_iff in Hv. now rewrite Hv.
  - intros v -> Hv. rewrite <- truthy_false_iff in Hv.
    apply not_false_is_true in Hv. rewrite Hv. cbn [negb].
    eexists. rewrite run_bind, run_query_node by assumption.
    split; reflexivity.
Qed.

(** C6, as the code has it.  On a body that is a JSON object whose
    [content] is a string, or absent (then the empty string),
    [document_analyze] answers 200 with the first 100 characters of the
    content as [summary] and the number of characters of the whole content
    as [length], whatever the characters are and however many bytes each
    takes: the summary starts the content and ends where a character ends,
    it has 100 characters or is the whole content, and for a content of 250
    characters it has exactly 100.  The service is left as it was. *)
Theorem document_analyze_summary (d : dict pyval) (content : string)
    (s : Service) :
  dict_get_default "content" d (PStr "") = PStr content ->
  exists summary,
    run (document_analyze (PDict d)) s =
      Some (Response 200
              (PDict [("summary", PStr summary);
                      ("length", PInt (Z.of_nat (py_len content)))]),
            s) /\
    summary = py_slice_to 100 content /\
    prefix summary content = true /\
    (exists rest,
        content = (summary ++ rest)%string /\
        match rest with
        | EmptyString => True
        | String c _ => is_continuation c = false
        end) /\
    py_len summary = Nat.min 100 (py_len content) /\
    (py_len content <= 100 -> summary = content) /\
    (py_len content = 250 -> py_len summary = 100)%nat.
Proof.
  intros Hc. exists (py_slice_to 100 content).
  unfold document_analyze. rewrite Hc. cbn [slice100_len].
  split; [reflexivity|]. split; [reflexivity|].
  split; [apply py_slice_to_prefix|].
  split; [apply py_slice_to_split|].
  split; [apply py_slice_to_len|].
  split; [apply py_slice_to_all|].
  intros H. rewrite py_slice_to_len, H. reflexivity.
Qed.

(** C10. [query_node], [chat] and [document_analyze] never modify the
    graph: none of their accesses is a write, and whatever their input,
    each returns with the service in the state it had. *)
Theorem readers_leave_graph (s : Service) :
  locked s = false ->
  (forall node_id,
      read_only (query_node node_id) /\
      exists result, run (query_node node_id) s = Some (result, s)) /\
  (forall payload,
      read_only (chat py_format payload) /\
      exists reply, run (chat py_format payload) s = Some (reply, s)) /\
  (forall payload,
      read_only (document_analyze payload) /\
      exists reply, run (document_analyze payload) s = Some (reply, s)).
Proof.
  intros Hl. split; [|split].
  - intros n. split.
    + simpl. intros g. now destruct (nx_contains g n).
    + eexists. now apply run_query_node.
  - intros payload. unfold chat.
    destruct payload as [| | | | |l|l|d]; try (split; [exact I | now eexists]).
    destruct (negb _); split; try exact I; now eexists.
  - intros payload. unfold document_analyze.
    destruct payload as [| | | | |l|l|d]; try (split; [exact I | now eexists]).
    destruct (slice100_len _) as [[summary len]|];
      split; try exact I; now eexists.
Qed.
End RouteFacts.

(** ** One lock for every method *)

Lemma run_lockfree {A : Type} (p : prog A) (s : Service) :
  lockfree p ->
  run p s = Some (fst (exec p (graph s)),
                  {| graph := snd (exec p (graph s)); locked := locked s |}).
Proof.
  revert s. induction p as [a|k IH|k IH|k IH|g k IH]; simpl; intros s Hp.
  - now destruct s.
  - destruct Hp.
  - destruct Hp.
  - now apply IH.
  - now rewrite IH.
Qed.

Lemma run_with_lock {A : Type} (body : prog A) (s : Service) :
  lockfree body -> locked s = false ->
  run (with_lock body) s =
  Some (fst (exec body (graph s)),
        {| graph := snd (exec body (graph s)); locked := false |}).
Proof.
  intros Hb Hl. unfold with_lock. simpl. rewrite Hl, run_bind.
  now rewrite run_lockfree.
Qed.

(** Every method is one [with self._lock:] block around accesses that take
    no lock themselves. *)
Lemma method_shape (o : op) :
  entered o = true ->
  exists body, method o = with_lock body /\ lockfree body.
Proof.
  destruct o as [n attr|u v attr|n]; cbn [entered method];
    [unfold add_node | unfold add_edge |]; intros H; try rewrite H.
  - eexists. split; [reflexivity|].
    now destruct (binds ["self"; "node_for_adding"] attr).
  - eexists. split; [reflexivity|].
    now destruct (binds ["self"; "u_of_edge"; "v_of_edge"] attr).
  - eexists. split; [reflexivity|]. simpl.
    intros g. now destruct (nx_contains g n).
Qed.

(** A call that does not bind its keywords raises, and that is all. *)
Lemma method_not_entered (o : op) :
  entered o = false -> method o = Ret (Raises TypeError).
Proof.
  destruct o as [n attr|u v attr|n]; cbn [entered method];
    [unfold add_node | unfold add_edge |]; intros H;
    [now rewrite H | now rewrite H | discriminate].
Qed.

Lemma bind_release_critical {A : Type} (q : prog A) :
  lockfree q -> in_critical (a <- q ;; Release (Ret a)) = true.
Proof. destruct q; simpl; tauto. Qed.

Lemma serial_snoc s h s1 o a s2 :
  serial s h s1 -> run (method o) s1 = Some (a, s2) ->
  serial s (h ++ [(o, a)]) s2.
Proof.
  induction 1 as [|s o' a' s' l s'' Hrun Hser IH]; intros H; simpl.
  - econstructor; [eassumption | constructor].
  - econstructor; [eassumption | now apply IH].
Qed.

Lemma finished_app o1 o2 l1 l2 :
  length o1 = length l1 ->
  finished (o1 ++ o2) (l1 ++ l2) = (finished o1 l1 ++ finished o2 l2).
Proof.
  revert l1. induction o1 as [|o o1 IH]; intros [|p l1]; simpl;
    try discriminate; [reflexivity|].
  intros [= H]. rewrite (IH _ H). destruct p; try reflexivity.
  now destruct (entered o).
Qed.

Lemma finished_map_Ret ops results :
  length ops = length results ->
  finished ops (map Ret results) =
  filter (fun oa => entered (fst oa)) (combine ops results).
Proof.
  revert results. induction ops as [|o ops IH]; intros [|a results]; simpl;
    try discriminate; [reflexivity|].
  intros [= H]. rewrite IH by assumption. reflexivity.
Qed.

Lemma Permutation_filter_both {A : Type} (f : A -> bool) (l : list A) :
  Permutation (filter f l ++ filter (fun x => negb (f x)) l) l.
Proof.
  induction l as [|x l IH]; simpl; [constructor|].
  destruct (f x); simpl.
  - now constructor.
  - apply Permutation_sym, Permutation_cons_app. now apply Permutation_sym.
Qed.

Lemma serial_app s h1 s1 h2 s2 :
  serial s h1 s1 -> serial s1 h2 s2 -> serial s (h1 ++ h2) s2.
Proof.
  induction 1 as [|s o a s' l s'' Hrun _ IH]; intros H; simpl.
  - assumption.
  - econstructor; [eassumption | now apply IH].
Qed.

Lemma filter_nil_Forall {A : Type} (f : A -> bool) (l : list A) :
  length (filter f l) = 0%nat -> Forall (fun x => f x = false) l.
Proof.
  induction l as [|x l IH]; simpl; [constructor|].
  destruct (f x) eqn:E; simpl; [discriminate|]. auto.
Qed.

Lemma Forall_filter_nil {A : Type} (f : A -> bool) (l : list A) :
  Forall (fun x => f x = false) l -> filter f l = [].
Proof.
  induction 1 as [|x l Hx _ IH]; simpl; [reflexivity|]. now rewrite Hx.
Qed.

Lemma dict_set_set {V : Type} (k : string) (v v' : V) (d : dict V) :
  dict_set k v (dict_set k v' d) = dict_set k v d.
Proof.
  induction d as [|[k0 v0] d IH]; simpl.
  - now rewrite String.eqb_refl.
  - destruct (String.eqb k k0) eqn:E; simpl.
    + now rewrite String.eqb_refl.
    + now rewrite E, IH.
Qed.

(** Statement by statement, [Graph.add_node] does what [nx_add_node] says. *)
Lemma run_add_node_by_statement s n attr :
  locked s = false ->
  run (add_node_by_statement n attr) s = run (add_node n attr) s.
Proof.
  intros Hl. unfold add_node_by_statement, add_node.
  destruct (binds ["self"; "node_id"] attr); [|reflexivity].
  destruct (binds ["self"; "node_for_adding"] attr); [|reflexivity].
  rewrite !run_with_lock_get by assumption.
  unfold nx_add_node. destruct (dict_mem n (_node (graph s))); simpl.
  - reflexivity.
  - unfold update_attrs, set_attrs, set_row, node_attrs; simpl.
    now rewrite dict_get_default_set_same, dict_set_set.
Qed.

Lemma exec_bind {A B : Type} (p : prog A) (f : A -> prog B) (g : Graph) :
  exec (bind p f) g = exec (f (fst (exec p g))) (snd (exec p g)).
Proof.
  revert g. induction p as [a|k IH|k IH|k IH|g' k IH]; intros g; simpl; auto.
Qed.

Lemma lockfree_bind {A B : Type} (p : prog A) (f : A -> prog B) :
  lockfree p -> (forall a, lockfree (f a)) -> lockfree (bind p f).
Proof.
  induction p as [a|k IH|k IH|k IH|g' k IH]; simpl; intros Hp Hf; auto.
Qed.

Lemma create_if_absent_lockfree u : lockfree (create_if_absent u).
Proof.
  simpl. intros g. destruct (dict_mem u (_node g)); simpl; auto.
Qed.

Lemma exec_create_if_absent u g :
  exec (create_if_absent u) g = (tt, ensure_node g u).
Proof.
  unfold ensure_node. simpl. now destruct (dict_mem u (_node g)).
Qed.

(** Storing at [_adj[u][v]] what is there already changes nothing. *)
Lemma set_adj_same g u v dd :
  dict_mem u (_adj g) = true -> dict_get v (adj_of g u) = Some dd ->
  set_adj g u v dd = g.
Proof.
  intros Hu Hv. unfold set_adj. destruct g as [nd ad]; cbn [_node _adj] in *.
  f_equal.
  replace (dict_set v dd (adj_of {| _node := nd; _adj := ad |} u))
    with (adj_of {| _node := nd; _adj := ad |} u)
    by (symmetry; now apply dict_set_get_same).
  apply dict_set_get_same. unfold adj_of, dict_get_default, dict_mem in *.
  cbn [_adj] in *. now destruct (dict_get u ad).
Qed.

Lemma set_adj2_again g u v dd :
  set_adj (set_adj (set_adj (set_adj g u v dd) v u dd) u v dd) v u dd =
  set_adj (set_adj g u v dd) v u dd.
Proof.
  set (g3 := set_adj (set_adj g u v dd) v u dd).
  assert (Hu : dict_mem u (_adj g3) = true).
  { unfold g3; simpl. rewrite !dict_mem_set, String.eqb_refl.
    apply orb_true_r. }
  assert (Hv : dict_mem v (_adj g3) = true).
  { unfold g3; simpl. now rewrite dict_mem_set, String.eqb_refl. }
  assert (Huv : dict_get v (adj_of g3 u) = Some dd).
  { unfold g3. rewrite get_after_set_adj2. unfold same_pair; simpl.
    now rewrite !String.eqb_refl. }
  assert (Hvu : dict_get u (adj_of g3 v) = Some dd).
  { unfold g3. rewrite get_after_set_adj2. unfold same_pair; simpl.
    rewrite !String.eqb_refl. simpl. now rewrite orb_true_r. }
  rewrite (@set_adj_same g3 u v dd Hu Huv). now apply set_adj_same.
Qed.

Lemma add_edge_by_statement_body u v attr :
  binds ["self"; "source"; "target"] attr = true ->
  exists body,
    add_edge_by_statement u v attr = with_lock body /\ lockfree body /\
    forall g,
      exec body g =
      if binds ["self"; "u_of_edge"; "v_of_edge"] attr
      then (Returns PNone, nx_add_edge g u v attr)
      else (Raises TypeError, g).
Proof.
  intros Hb. unfold add_edge_by_statement. rewrite Hb.
  destruct (binds ["self"; "u_of_edge"; "v_of_edge"] attr);
    [|now eexists].
  eexists. split; [reflexivity|]. split.
  - repeat (apply lockfree_bind; [apply create_if_absent_lockfree | intros _]).
    simpl. intros g. destruct (dict_get v (adj_of g u)); simpl; auto.
  - intros g. rewrite !exec_bind, !exec_create_if_absent. cbn [fst snd].
    set (g2 := ensure_node (ensure_node g u) v).
    unfold nx_add_edge. fold g2. unfold dict_get_default. cbn [exec].
    destruct (dict_get v (adj_of g2 u)) as [d|]; cbn [bind exec modify].
    + now rewrite set_adj2_again.
    + reflexivity.
Qed.

Lemma run_add_edge_by_statement s u v attr :
  locked s = false ->
  run (add_edge_by_statement u v attr) s = run (add_edge u v attr) s.
Proof.
  intros Hl. rewrite run_add_edge by assumption. unfold add_edge_accepts.
  destruct (binds ["self"; "source"; "target"] attr) eqn:Hb.
  - destruct (@add_edge_by_statement_body u v attr Hb)
      as (body & -> & Hf & He).
    rewrite run_with_lock by assumption. rewrite He. cbn [andb].
    destruct (binds ["self"; "u_of_edge"; "v_of_edge"] attr); cbn [fst snd];
      [reflexivity | now rewrite Service_eta].
  - unfold add_edge_by_statement. now rewrite Hb.
Qed.

Lemma method_by_statement_shape (o : op) :
  entered o = true ->
  exists body, method_by_statement o = with_lock body /\ lockfree body.
Proof.
  destruct o as [n attr|u v attr|n]; cbn [entered method_by_statement];
    intros H.
  - unfold add_node_by_statement. rewrite H.
    eexists. split; [reflexivity|].
    destruct (binds ["self"; "node_for_adding"] attr); simpl; [|exact I].
    intros g. destruct (dict_mem n (_node g)); simpl; auto.
  - destruct (@add_edge_by_statement_body u v attr H) as (body & Hm & Hb & _).
    now exists body.
  - now apply (method_shape (QueryNode n)).
Qed.

Lemma method_by_statement_not_entered (o : op) :
  entered o = false -> method_by_statement o = Ret (Raises TypeError).
Proof.
  destruct o as [n attr|u v attr|n]; cbn [entered method_by_statement];
    [unfold add_node_by_statement | unfold add_edge_by_statement |];
    intros H; [now rewrite H | now rewrite H | discriminate].
Qed.

Lemma method_by_statement_run (o : op) (s : Service) :
  locked s = false -> run (method_by_statement o) s = run (method o) s.
Proof.
  intros Hl. destruct o; cbn [method_by_statement method].
  - now apply run_add_node_by_statement.
  - now apply run_add_edge_by_statement.
  - reflexivity.
Qed.

Section Pool.
(** The code the threads run for each invocation: the method itself, or the
    method with its call into the library split into atomic accesses in any
    way.  For a call that binds its keywords it is one [with self._lock:]
    block, for one that does not it raises at once; and run alone it does
    what the method does. *)
Variable impl : op -> prog completion.
Hypothesis impl_shape :
  forall o, entered o = true ->
            exists body, impl o = with_lock body /\ lockfree body.
Hypothesis impl_not_entered :
  forall o, entered o = false -> impl o = Ret (Raises TypeError).
Hypothesis impl_run :
  forall o s, locked s = false -> run (impl o) s = run (method o) s.

(** A thread with all of its call to make asks for the lock, or has nothing
    to do. *)
Lemma impl_idle o :
  (entered o = true /\ exists k, impl o = Acquire k) \/
  (entered o = false /\ impl o = Ret (Raises TypeError)).
Proof.
  destruct (entered o) eqn:E.
  - left. split; [reflexivity|].
    destruct (impl_shape o E) as (b & -> & _). now eexists.
  - right. split; [reflexivity | now apply impl_not_entered].
Qed.

(** A thread outside its method is in order whatever the service holds. *)
Lemma thread_ok_frame s_h s s_h' s' o p :
  thread_ok impl s_h s o p -> in_critical p = false -> thread_ok impl s_h' s' o p.
Proof.
  intros [H|[H|(q & _ & Hq & -> & _)]] Hc.
  - now left.
  - right. now left.
  - now rewrite bind_release_critical in Hc.
Qed.

Lemma Forall2_thread_ok_frame s_h s s_h' s' ops ths :
  Forall2 (thread_ok impl s_h s) ops ths ->
  Forall (fun p => in_critical p = false) ths ->
  Forall2 (thread_ok impl s_h' s') ops ths.
Proof.
  induction 1 as [|o p ops ths Hop _ IH]; intros Hc; constructor;
    inversion Hc; subst.
  - now apply (thread_ok_frame s_h' s' Hop).
  - now apply IH.
Qed.

Lemma pool_inv_init s0 ops :
  locked s0 = false ->
  pool_inv impl s0 ops [] {| shared := s0; threads := map impl ops |}.
Proof.
  intros Hl. exists [], s0, []. cbn [shared threads].
  split; [constructor|]. split; [assumption|].
  split; [|split; [|split; [|split; [|split]]]].
  - induction ops; constructor; [now left | assumption].
  - induction ops as [|o ops IH]; simpl; [constructor|].
    destruct (impl_idle o) as [[_ [k ->]]|[E ->]]; [|rewrite E]; assumption.
  - rewrite Hl. induction ops as [|o ops IH]; simpl; [reflexivity|].
    destruct (impl_idle o) as [[_ [k ->]]|[_ ->]]; assumption.
  - reflexivity.
  - constructor.
  - now rewrite Hl.
Qed.

Lemma crit_split (l1 l2 : list (prog completion)) (p : prog completion) :
  length (filter in_critical (l1 ++ p :: l2)) =
  (length (filter in_critical l1) + (if in_critical p then 1 else 0)
   + length (filter in_critical l2))%nat.
Proof.
  rewrite filter_app, length_app. simpl.
  destruct (in_critical p); simpl; lia.
Qed.

Lemma finished_split o1 o o2 l1 p l2 :
  length o1 = length l1 ->
  finished (o1 ++ o :: o2) (l1 ++ p :: l2) =
  finished o1 l1 ++ finished [o] [p] ++ finished o2 l2.
Proof.
  intros H. rewrite finished_app by assumption. f_equal. simpl.
  destruct p; try reflexivity. destruct (entered o); now rewrite ?app_nil_r.
Qed.

Lemma Forall2_thread_ok_split s_h s ops l1 p l2 :
  Forall2 (thread_ok impl s_h s) ops (l1 ++ p :: l2) ->
  exists o1 o o2,
    ops = o1 ++ o :: o2 /\ length o1 = length l1 /\
    Forall2 (thread_ok impl s_h s) o1 l1 /\ thread_ok impl s_h s o p /\
    Forall2 (thread_ok impl s_h s) o2 l2.
Proof.
  intros H. apply Forall2_app_inv_r in H as (o1 & o2' & H1 & H2 & ->).
  inversion H2 as [|o ? o2 ? Hp H2']; subst.
  exists o1, o, o2. repeat split; try assumption.
  now apply Forall2_length in H1.
Qed.

Lemma nth_error_mid {A : Type} (l1 l2 : list A) (x : A) :
  nth_error (l1 ++ x :: l2) (length l1) = Some x.
Proof. induction l1; simpl; auto. Qed.

Lemma nth_error_other {A : Type} (l1 l2 : list A) (x y : A) (i : nat) :
  i <> length l1 ->
  nth_error (l1 ++ y :: l2) i = nth_error (l1 ++ x :: l2) i.
Proof.
  revert i. induction l1 as [|a l1 IH]; intros [|i] H; simpl in *;
    try reflexivity; try congruence.
  apply IH. congruence.
Qed.

(** The thread inside its method is the only one there. *)
Lemma critical_unique (l1 l2 : list (prog completion)) p p0 h :
  Forall (fun q => in_critical q = false) l1 ->
  Forall (fun q => in_critical q = false) l2 ->
  nth_error (l1 ++ p :: l2) h = Some p0 -> in_critical p0 = true ->
  h = length l1.
Proof.
  intros H1 H2 Hh Hc. destruct (Nat.eq_dec h (length l1)) as [|Hne]; [assumption|].
  exfalso. destruct (Nat.lt_ge_cases h (length l1)) as [Hlt|Hge].
  - rewrite nth_error_app1 in Hh by assumption. apply nth_error_In in Hh.
    rewrite Forall_forall in H1. rewrite (H1 _ Hh) in Hc. discriminate.
  - rewrite nth_error_app2 in Hh by assumption.
    destruct (h - length l1)%nat as [|k] eqn:E; [lia|]. simpl in Hh.
    apply nth_error_In in Hh.
    rewrite Forall_forall in H2. rewrite (H2 _ Hh) in Hc. discriminate.
Qed.

(** The access of one thread changes the outcome of no other. *)
Lemma outcome_at_frame ops (l1 l2 : list (prog completion)) p p' done hist :
  Forall2 (outcome_at ops (l1 ++ p :: l2)) done hist ->
  returned p = false ->
  Forall2 (outcome_at ops (l1 ++ p' :: l2)) done hist.
Proof.
  intros H Hp. induction H as [|i oa done hist [Ho Hi] _ IH];
    constructor; [|assumption].
  split; [assumption|]. rewrite <- Hi. apply nth_error_other.
  intros ->. rewrite nth_error_mid in Hi. injection Hi as ->. discriminate.
Qed.

Lemma critical_not_returned {A : Type} (p : prog A) :
  in_critical p = true -> returned p = false.
Proof. now destruct p. Qed.

(** Every access of every thread keeps the invariant of the pool. *)
Lemma pool_inv_step s0 ops tr st ev st' :
  pool_inv impl s0 ops tr st -> step st ev st' -> pool_inv impl s0 ops (tr ++ ev) st'.
Proof.
  intros (hist & s_h & done & Hser & Hlh & Hok & Hperm & Hcrit & Hfree
          & Hdone & Htr) Hstep.
  inversion Hstep as [s s' l1 p p' l2 Ht]; subst. cbn [shared threads] in *.
  apply Forall2_thread_ok_split in Hok
    as (o1 & o & o2 & -> & Hlen & Hok1 & Hp & Hok2).
  rewrite crit_split in Hcrit. rewrite finished_split in Hperm by assumption.
  unfold pool_inv. cbn [shared threads].
  rewrite crit_split, finished_split by assumption.
  destruct Hp as [Hp|[[_ [a Hp]]|(q & He & Hq & Hp & Hrun)]]; subst p.
  - (* the thread takes the lock *)
    destruct (entered o) eqn:He;
      [|rewrite (impl_not_entered o He) in Ht; discriminate].
    destruct (impl_shape o He) as (body & Hm & Hb). rewrite Hm in *.
    unfold with_lock in Ht, Hcrit, Hperm, Hdone |- *.
    cbn in Ht, Hcrit, Hperm.
    destruct (locked s) eqn:Hl; [discriminate|].
    injection Ht as <- <-. specialize (Hfree eq_refl). subst s_h tr.
    assert (Hn1 : Forall (fun p => in_critical p = false) l1)
      by (apply filter_nil_Forall; lia).
    assert (Hn2 : Forall (fun p => in_critical p = false) l2)
      by (apply filter_nil_Forall; lia).
    pose proof (@bind_release_critical _ body Hb) as Hc.
    exists hist, s, done. split; [assumption|]. split; [assumption|].
    cbn [locked graph].
    split; [|split; [|split; [|split; [|split]]]].
    + apply Forall2_app; [now apply Forall2_thread_ok_frame with (1 := Hok1)|].
      constructor; [|now apply Forall2_thread_ok_frame with (1 := Hok2)].
      right. right. exists body. split; [assumption|].
      split; [assumption|]. split; [reflexivity|].
      cbn [graph]. rewrite <- impl_run, Hm by assumption.
      now apply run_with_lock.
    + destruct (a <- body ;; Release (Ret a)); try discriminate; assumption.
    + rewrite Hc. lia.
    + discriminate.
    + now apply outcome_at_frame with (1 := Hdone).
    + exists (length l1), (a <- body ;; Release (Ret a)).
      split; [reflexivity|]. split; [apply nth_error_mid | assumption].
  - discriminate.
  - (* the thread is inside its method *)
    pose proof (@bind_release_critical _ q Hq) as Hc.
    rewrite Hc in Hcrit.
    destruct (locked s) eqn:Hl; [|lia].
    assert (Hn1 : Forall (fun p => in_critical p = false) l1)
      by (apply filter_nil_Forall; lia).
    assert (Hn2 : Forall (fun p => in_critical p = false) l2)
      by (apply filter_nil_Forall; lia).
    assert (Hperm' : Permutation hist (finished o1 l1 ++ finished o2 l2)).
    { destruct (a <- q ;; Release (Ret a)); try discriminate; assumption. }
    clear Hperm.
    destruct Htr as (h & p0 & -> & Hh & Hp0).
    apply (critical_unique _ _ Hn1 Hn2 Hh) in Hp0. subst h. clear Hh.
    apply outcome_at_frame with (p' := p') in Hdone;
      [|now apply critical_not_returned].
    replace (match a <- q ;; Release (Ret a) with
             | Acquire _ => [length l1] | _ => []
             end) with (@nil nat)
      by (destruct (a <- q ;; Release (Ret a)); try discriminate; reflexivity).
    rewrite app_nil_r. clear Hc.
    destruct q as [a|k|k|k|g k]; cbn in Ht, Hq, Hrun; try contradiction.
    + (* release *)
      rewrite Hl in Ht. injection Ht as <- <-.
      exists (hist ++ [(o, a)]), {| graph := graph s; locked := false |},
        (done ++ [length l1]).
      split; [now apply serial_snoc with (1 := Hser)|]. split; [reflexivity|].
      cbn [locked graph].
      split; [|split; [|split; [|split; [|split]]]].
      * apply Forall2_app; [now apply Forall2_thread_ok_frame with (1 := Hok1)|].
        constructor; [|now apply Forall2_thread_ok_frame with (1 := Hok2)].
        right. left. split; [assumption | now eexists].
      * cbn. rewrite He. apply Permutation_trans with ((o, a) :: hist).
        -- apply Permutation_sym, Permutation_cons_append.
        -- now apply Permutation_cons_app.
      * cbn. rewrite (@Forall_filter_nil _ _ _ Hn1), (@Forall_filter_nil _ _ _ Hn2).
        reflexivity.
      * reflexivity.
      * apply Forall2_app; [assumption|]. constructor; [|constructor].
        split; cbn [fst snd]; [|apply nth_error_mid].
        rewrite <- Hlen. apply nth_error_mid.
      * reflexivity.
    + (* read *)
      injection Ht as <- <-.
      pose proof (@bind_release_critical _ (k (graph s)) (Hq _)) as Hc.
      exists hist, s_h, done. split; [assumption|]. split; [assumption|].
      rewrite Hl.
      split; [|split; [|split; [|split; [|split]]]].
      * apply Forall2_app; [assumption|]. constructor; [|assumption].
        right. right. exists (k (graph s)). auto.
      * destruct (a <- k (graph s) ;; Release (Ret a));
          try discriminate; assumption.
      * rewrite Hc. lia.
      * discriminate.
      * assumption.
      * exists (length l1), (a <- k (graph s) ;; Release (Ret a)).
        split; [reflexivity|]. split; [apply nth_error_mid | assumption].
    + (* write *)
      injection Ht as <- <-.
      pose proof (@bind_release_critical _ k Hq) as Hc.
      exists hist, s_h, done. split; [assumption|]. split; [assumption|].
      cbn [locked graph]. rewrite Hl.
      split; [|split; [|split; [|split; [|split]]]].
      * apply Forall2_app; [now apply Forall2_thread_ok_frame with (1 := Hok1)|].
        constructor; [|now apply Forall2_thread_ok_frame with (1 := Hok2)].
        right. right. exists k. auto.
      * destruct (a <- k ;; Release (Ret a)); try discriminate; assumption.
      * rewrite Hc. lia.
      * discriminate.
      * assumption.
      * exists (length l1), (a <- k ;; Release (Ret a)).
        split; [reflexivity|]. split; [apply nth_error_mid | assumption].
Qed.

Lemma pool_inv_steps s0 ops st0 tr st :
  steps st0 tr st -> pool_inv impl s0 ops [] st0 -> pool_inv impl s0 ops tr st.
Proof.
  induction 1 as [|st0 tr st ev st' _ IH Hstep]; intros H0; [assumption|].
  apply pool_inv_step with (st := st); auto.
Qed.

Lemma idle_or_returned s_h s ops ths :
  Forall2 (thread_ok impl s_h s) ops ths ->
  Forall (fun p => in_critical p = false) ths ->
  Forall (fun p => returned p = true) ths \/
  exists l1 k l2, ths = l1 ++ Acquire k :: l2.
Proof.
  induction 1 as [|o p ops ths Hp _ IH]; intros Hc; [left; constructor|].
  inversion Hc as [|? ? Hcp Hc']; subst.
  assert (Hret : forall a, p = Ret a ->
            Forall (fun p => returned p = true) (p :: ths) \/
            exists l1 k l2, p :: ths = l1 ++ Acquire k :: l2).
  { intros a ->. destruct (IH Hc') as [Hall|(l1 & k & l2 & ->)].
    - left. now constructor.
    - right. now exists (Ret a :: l1), k, l2. }
  destruct Hp as [Hp|[[_ [a ->]]|(q & _ & Hq & -> & _)]].
  - destruct (impl_idle o) as [[_ [k Hk]]|[_ Hk]]; rewrite Hk in Hp.
    + right. subst p. now exists [], k, ths.
    + now apply (Hret (Raises TypeError)).
  - now apply (Hret a).
  - now rewrite bind_release_critical in Hcp.
Qed.

(** While a thread has not returned, some thread can make its next access:
    the lock is never held for ever. *)
Lemma pool_inv_progress s0 ops tr st :
  pool_inv impl s0 ops tr st ->
  Forall (fun p => returned p = true) (threads st) \/
  exists ev st', step st ev st'.
Proof.
  intros (hist & s_h & done & _ & _ & Hok & _ & Hcrit & _).
  destruct st as [s ths]; cbn [shared threads] in *.
  destruct (locked s) eqn:Hl.
  - right.
    destruct (filter in_critical ths) as [|p fl] eqn:Ef; [discriminate|].
    assert (Hin : In p (filter in_critical ths)) by (rewrite Ef; now left).
    apply filter_In in Hin as [Hin Hp].
    apply in_split in Hin as (l1 & l2 & ->).
    apply Forall2_thread_ok_split in Hok
      as (o1 & o & o2 & _ & _ & _ & Hok & _).
    destruct Hok as [Hm|[[_ [a ->]]|(q & _ & Hq & -> & _)]];
      [| discriminate |].
    + destruct (impl_idle o) as [[_ [k Hk]]|[_ Hk]]; rewrite Hk in Hm;
        subst p; discriminate.
    + destruct q as [a|k|k|k|g k]; simpl in Hq; try contradiction;
        do 2 eexists; apply step_thread; cbn; rewrite ?Hl; reflexivity.
  - apply filter_nil_Forall in Hcrit.
    destruct (idle_or_returned Hok Hcrit) as [H|(l1 & k & l2 & ->)];
      [now left | right].
    do 2 eexists. apply step_thread. cbn. rewrite Hl. reflexivity.
Qed.

Lemma in_order_outcomes ops results done hist :
  Forall2 (outcome_at ops (map Ret results)) done hist ->
  hist = in_order ops results done.
Proof.
  induction 1 as [|i [o a] done hist [Ho Hi] _ IH]; simpl; [reflexivity|].
  rewrite <- IH. f_equal. cbn [fst snd] in *. f_equal.
  - symmetry. now apply nth_error_nth.
  - rewrite nth_error_map in Hi.
    destruct (nth_error results i) as [a'|] eqn:E; [|discriminate].
    injection Hi as ->. symmetry. now apply nth_error_nth.
Qed.

(** The threads of calls that did not bind hold [TypeError], and such a
    call can be put anywhere among calls made one at a time. *)
Lemma serial_not_entered s_h s s1 ops results :
  Forall2 (thread_ok impl s_h s) ops (map Ret results) ->
  serial s1 (not_entered (combine ops results)) s1.
Proof.
  revert results. induction ops as [|o ops IH]; intros [|a results] H;
    try apply serial_nil.
  inversion H as [|? ? ? ? Hp H']; subst.
  unfold not_entered. simpl. fold (not_entered (combine ops results)).
  destruct (entered o) eqn:E; simpl; [now apply IH|].
  apply serial_cons with (s' := s1); [|now apply IH].
  rewrite (method_not_entered o E).
  destruct Hp as [Hp|[[He _]|(q & He & _)]]; try congruence.
  rewrite (impl_not_entered o E) in Hp. now injection Hp as ->.
Qed.

(** C9. Every method of [GraphService] is one [with self._lock:] block
    around all its accesses to the graph; a call whose keywords do not bind
    raises without entering the method, and touches neither the lock nor
    the graph.  So, for any invocations handled by concurrent threads,
    whether the threads run the methods as written above or with their
    calls into the library split into atomic accesses ([impl]), and however
    these accesses interleave: at most one thread is inside a method, and
    exactly while the lock is held; some thread can always go on until all
    have returned; and once all have returned, the state of the service and
    the result of each invocation are those of the same invocations made
    one at a time: those that entered their method in the order in which
    the threads took the lock, and after them those that did not. *)
Theorem lock_serializes (s0 : Service) (ops : list op) (tr : list nat)
    (st : pool completion) :
  locked s0 = false ->
  steps {| shared := s0; threads := map impl ops |} tr st ->
  (forall o,
      (entered o = true ->
       exists body, method o = with_lock body /\ lockfree body) /\
      (entered o = false -> method o = Ret (Raises TypeError))) /\
  length (filter in_critical (threads st)) =
    (if locked (shared st) then 1%nat else 0%nat) /\
  (Forall (fun p => returned p = true) (threads st) \/
   exists ev st', step st ev st') /\
  (forall results,
      threads st = map Ret results ->
      serial s0
        (in_order ops results tr ++ not_entered (combine ops results))
        (shared st) /\
      Permutation
        (in_order ops results tr ++ not_entered (combine ops results))
        (combine ops results)).
Proof.
  intros Hl Hsteps.
  assert (Hinv : pool_inv impl s0 ops tr st)
    by (apply pool_inv_steps with (1 := Hsteps); now apply pool_inv_init).
  split; [intros o; split; [apply method_shape | apply method_not_entered]|].
  split; [now destruct Hinv as (? & ? & ? & _ & _ & _ & _ & H & _)|].
  split; [now apply pool_inv_progress with (1 := Hinv)|].
  intros results Hres.
  destruct Hinv as (hist & s_h & done & Hser & _ & Hok & Hperm & Hcrit
                    & Hfree & Hdone & Htr).
  rewrite Hres in *.
  assert (Hnone : filter in_critical (map (@Ret completion) results) = [])
    by (clear; induction results; simpl; auto).
  rewrite Hnone in Hcrit.
  destruct (locked (shared st)); [discriminate|]. subst done.
  rewrite (Hfree eq_refl).
  apply in_order_outcomes in Hdone. subst hist. split.
  - apply serial_app with (1 := Hser).
    now apply serial_not_entered with (1 := Hok).
  - rewrite finished_map_Ret in Hperm
      by (apply Forall2_length in Hok; now rewrite length_map in Hok).
    apply Permutation_trans
      with (filter (fun oa => entered (fst oa)) (combine ops results)
            ++ not_entered (combine ops results)).
    + now apply Permutation_app_tail.
    + apply Permutation_filter_both.
Qed.

End Pool.

(** A schedule is an interleaving. *)
Lemma step_at_step {A : Type} (i : nat) (ths ths' : list (prog A)) s s' :
  step_at i ths s = Some (ths', s') ->
  step {| shared := s; threads := ths |} (takes_lock i ths)
       {| shared := s'; threads := ths' |}.
Proof.
  intros H.
  assert (exists l1 p p' l2,
             ths = l1 ++ p :: l2 /\ ths' = l1 ++ p' :: l2 /\
             length l1 = i /\ tstep p s = Some (p', s'))
    as (l1 & p & p' & l2 & -> & -> & <- & Ht).
  { revert i ths' H. induction ths as [|p ths IH]; intros i ths' H;
      [destruct i; discriminate|].
    destruct i as [|i]; simpl in H.
    - destruct (tstep p s) as [[p' s1]|] eqn:E; [|discriminate].
      injection H as <- <-. now exists [], p, p', ths.
    - destruct (step_at i ths s) as [[ths1 s1]|] eqn:E; [|discriminate].
      injection H as <- <-.
      destruct (IH _ _ E) as (l1 & q & q' & l2 & -> & -> & <- & Ht).
      now exists (p :: l1), q, q', l2. }
  unfold takes_lock. rewrite nth_error_mid. now apply step_thread.
Qed.

Lemma steps_first {A : Type} (st st' st'' : pool A) ev tr :
  step st ev st' -> steps st' tr st'' -> steps st (ev ++ tr) st''.
Proof.
  intros H1 H2. induction H2 as [|st1 tr st2 ev' st3 _ IH H3].
  - rewrite app_nil_r. rewrite <- (app_nil_l ev).
    eapply steps_next; [apply steps_refl | assumption].
  - rewrite app_assoc. eapply steps_next; [now apply IH | assumption].
Qed.

Lemma schedule_steps {A : Type} (turns : list nat) (st st' : pool A) tr :
  schedule turns st = Some (tr, st') -> steps st tr st'.
Proof.
  revert st tr. induction turns as [|i turns IH]; simpl; intros st tr H.
  - injection H as <- <-. apply steps_refl.
  - destruct (step_at i (threads st) (shared st)) as [[ths s]|] eqn:E;
      [|discriminate].
    destruct (schedule turns _) as [[tr' st1]|] eqn:E'; [|discriminate].
    injection H as <- <-. apply step_at_step in E. destruct st.
    eapply steps_first; [exact E | now apply IH].
Qed.

Lemma lock_serializes_witness :
  serial GraphService_init
    (in_order [AddNode "a" [("kind", PStr "doc")]; QueryNode (PStr "a");
               AddNode "b" [("node_id", PStr "c")]]
              [Returns PNone; Returns (PDict [("exists", PBool false)]);
               Raises TypeError] [1; 0]%nat
     ++ not_entered
          (combine [AddNode "a" [("kind", PStr "doc")]; QueryNode (PStr "a");
                    AddNode "b" [("node_id", PStr "c")]]
                   [Returns PNone; Returns (PDict [("exists", PBool false)]);
                    Raises TypeError]))
    {| graph := nx_add_node nx_Graph "a" [("kind", PStr "doc")];
       locked := false |} /\
  Permutation
    (in_order [AddNode "a" [("kind", PStr "doc")]; QueryNode (PStr "a");
               AddNode "b" [("node_id", PStr "c")]]
              [Returns PNone; Returns (PDict [("exists", PBool false)]);
               Raises TypeError] [1; 0]%nat
     ++ not_entered
          (combine [AddNode "a" [("kind", PStr "doc")]; QueryNode (PStr "a");
                    AddNode "b" [("node_id", PStr "c")]]
                   [Returns PNone; Returns (PDict [("exists", PBool false)]);
                    Raises TypeError]))
    (combine [AddNode "a" [("kind", PStr "doc")]; QueryNode (PStr "a");
              AddNode "b" [("node_id", PStr "c")]]
             [Returns PNone; Returns (PDict [("exists", PBool false)]);
              Raises TypeError]).
Proof.
  apply (proj2 (proj2 (proj2
           (@lock_serializes method_by_statement
              method_by_statement_shape method_by_statement_not_entered
              method_by_statement_run
              GraphService_init
              [AddNode "a" [("kind", PStr "doc")]; QueryNode (PStr "a");
               AddNode "b" [("node_id", PStr "c")]]
              [1; 0]%nat
              {| shared :=
                   {| graph := nx_add_node nx_Graph "a" [("kind", PStr "doc")];
                      locked := false |};
                 threads :=
                   map Ret [Returns PNone;
                            Returns (PDict [("exists", PBool false)]);
                            Raises TypeError] |}
              eq_refl
              (@schedule_steps _ [1; 1; 1; 0; 0; 0; 0; 0; 0; 0; 0; 0]%nat
                 {| shared := GraphService_init;
                    threads :=
                      map method_by_statement
                        [AddNode "a" [("kind", PStr "doc")];
                         QueryNode (PStr "a");
                         AddNode "b" [("node_id", PStr "c")]] |}
                 {| shared :=
                      {| graph :=
                           nx_add_node nx_Graph "a" [("kind", PStr "doc")];
                         locked := false |};
                    threads :=
                      map Ret [Returns PNone;
                               Returns (PDict [("exists", PBool false)]);
                               Raises TypeError] |}
                 [1; 0]%nat eq_refl))))).
  reflexivity.
Defined.

(** Half way through [add_node], the new node has a row and no attribute
    dict yet; the lock is held, and the query cannot start. *)
Example add_node_half_way :
  schedule [0; 0; 0; 0]%nat
    {| shared := GraphService_init;
       threads := map method_by_statement
                    [AddNode "a" [("kind", PStr "doc")];
                     QueryNode (PStr "a")] |} =
  Some ([0]%nat,
        {| shared := {| graph := {| _node := []; _adj := [("a", [])] |};
                        locked := true |};
           threads :=
             [Get (fun g2 => Put (set_attrs g2 "a" [])
                (Get (fun g3 =>
                   Put (update_attrs g3 "a" [("kind", PStr "doc")])
                       (Release (Ret (Returns PNone))))));
              method (QueryNode (PStr "a"))] |}) /\
  schedule [0; 0; 0; 0; 1]%nat
    {| shared := GraphService_init;
       threads := map method_by_statement
                    [AddNode "a" [("kind", PStr "doc")];
                     QueryNode (PStr "a")] |} = None.
Proof. split; reflexivity. Qed.

(** The query that takes the lock after [add_edge] has released it sees the
    edge; while [add_edge] holds the lock the query cannot start. *)
Example query_after_add_edge :
  schedule [0; 0; 0; 0; 1; 1; 1; 1; 1]%nat
    {| shared := GraphService_init;
       threads := map method [AddEdge "a" "b" []; QueryNode (PStr "a")] |} =
  Some ([0; 1]%nat,
        {| shared := {| graph := nx_add_edge nx_Graph "a" "b" [];
                        locked := false |};
           threads :=
             [Ret (Returns PNone);
              Ret (Returns
                     (PDict [("exists", PBool true); ("data", PDict []);
                             ("edges",
                              PList [PTuple [PStr "a"; PStr "b"]])]))] |}).
Proof. reflexivity. Qed.

Example query_waits_for_the_lock :
  schedule [0; 0; 1]%nat
    {| shared := GraphService_init;
       threads := map method [AddEdge "a" "b" []; QueryNode (PStr "a")] |} =
  None.
Proof. reflexivity. Qed.

(** ** The routes on concrete requests *)

(** C5, counterexample.  The body [{"node": 0}] has a [node] field that is
    neither missing nor empty, and [graph_query] answers 400 without asking
    [query_node]. *)
Lemma graph_query_rejects_zero :
  ~ spec_graph_query [("node", PInt 0)] GraphService_init /\
  spec_node_missing_or_empty [("node", PInt 0)] = false /\
  run (graph_query (PDict [("node", PInt 0)])) GraphService_init =
    Some (Response 400 (PDict [("error", PStr "'node' is required")]),
          GraphService_init).
Proof.
  split; [|split; reflexivity].
  intros (result & _ & H). discriminate H.
Qed.

Example graph_query_rejects_false :
  run (graph_query (PDict [("node", PBool false)])) GraphService_init =
  Some (Response 400 (PDict [("error", PStr "'node' is required")]),
        GraphService_init).
Proof. reflexivity. Qed.

(** A body that is not an object has no [get]: the view raises. *)
Example graph_query_on_array :
  run (graph_query (PList [PStr "a"])) GraphService_init =
  Some (Unhandled, GraphService_init).
Proof. reflexivity. Qed.

(** On the bodies of the interface, where [node] is a string when present,
    the specification's wording and the code agree. *)
Lemma graph_query_on_string_ids (payload : dict pyval) (s : Service) :
  locked s = false ->
  (dict_get "node" payload = None \/
   exists id, dict_get "node" payload = Some (PStr id)) ->
  spec_graph_query payload s.
Proof.
  intros Hl H. unfold spec_graph_query, spec_node_missing_or_empty.
  unfold graph_query, dict_get_default.
  destruct H as [->|(id & ->)]; [reflexivity|]. cbn [truthy].
  destruct (String.eqb id ""); cbn [negb]; [reflexivity|].
  eexists. rewrite run_bind, run_query_node by assumption.
  split; reflexivity.
Qed.

Lemma graph_query_validates_node_witness :
  run (graph_query (PDict [("node", PStr "")])) GraphService_init =
    Some (Response 400 (PDict [("error", PStr "'node' is required")]),
          GraphService_init) /\
  exists result,
    run (query_node (PStr "a")) GraphService_init =
      Some (result, GraphService_init) /\
    run (graph_query (PDict [("node", PStr "a")])) GraphService_init =
      Some (Response 200 result, GraphService_init).
Proof.
  split.
  - apply (proj1 (@graph_query_validates_node
                    [("node", PStr "")] GraphService_init eq_refl)).
    right. exists (PStr ""). split; [reflexivity|].
    apply truthy_false_iff. reflexivity.
  - apply (proj2 (@graph_query_validates_node
                    [("node", PStr "a")] GraphService_init eq_refl)
             (PStr "a")).
    + reflexivity.
    + intros H. apply truthy_false_iff in H. discriminate H.
Defined.

(** C6, counterexample.  A [content] that is a number cannot be sliced:
    [document_analyze] raises and the request fails. *)
Lemma document_analyze_fails_on_number :
  ~ spec_document_analyze (PDict [("content", PInt 5)]) GraphService_init /\
  run (document_analyze (PDict [("content", PInt 5)])) GraphService_init =
    Some (Unhandled, GraphService_init).
Proof.
  split; [|reflexivity].
  intros (summary & len & s' & H). discriminate H.
Qed.

(** The default applies to an absent field only, not to [null]. *)
Example document_analyze_fails_on_null :
  run (document_analyze (PDict [("content", PNone)])) GraphService_init =
  Some (Unhandled, GraphService_init).
Proof. reflexivity. Qed.

Lemma document_analyze_summary_witness :
  exists summary,
    run (document_analyze (PDict [("content", PStr (str_mul euro 250))]))
        GraphService_init =
      Some (Response 200
              (PDict [("summary", PStr summary);
                      ("length",
                       PInt (Z.of_nat (py_len (str_mul euro 250))))]),
            GraphService_init) /\
    summary = py_slice_to 100 (str_mul euro 250) /\
    prefix summary (str_mul euro 250) = true /\
    (exists rest,
        str_mul euro 250 = (summary ++ rest)%string /\
        match rest with
        | EmptyString => True
        | String c _ => is_continuation c = false
        end) /\
    py_len summary = Nat.min 100 (py_len (str_mul euro 250)) /\
    (py_len (str_mul euro 250) <= 100 -> summary = str_mul euro 250) /\
    (py_len (str_mul euro 250) = 250 -> py_len summary = 100)%nat.
Proof.
  apply (@document_analyze_summary
           [("content", PStr (str_mul euro 250))] (str_mul euro 250)
           GraphService_init).
  reflexivity.
Defined.

Example document_analyze_250 :
  run (document_analyze (PDict [("content", PStr (str_mul "x" 250))]))
      GraphService_init =
  Some (Response 200 (PDict [("summary", PStr (str_mul "x" 100));
                             ("length", PInt 250)]),
        GraphService_init).
Proof. vm_compute. reflexivity. Qed.

(** Characters, not bytes: 250 euro signs are 750 bytes, and the summary is
    the first 100 signs. *)
Example document_analyze_250_euro :
  String.length (str_mul euro 250) = 750%nat /\
  run (document_analyze (PDict [("content", PStr (str_mul euro 250))]))
      GraphService_init =
  Some (Response 200 (PDict [("summary", PStr (str_mul euro 100));
                             ("length", PInt 250)]),
        GraphService_init).
Proof. split; vm_compute; reflexivity. Qed.

Example document_analyze_no_content :
  run (document_analyze (PDict [])) GraphService_init =
  Some (Response 200 (PDict [("summary", PStr ""); ("length", PInt 0)]),
        GraphService_init).
Proof. reflexivity. Qed.

Lemma readers_leave_graph_witness :
  (exists result,
      run (query_node (PStr "a"))
          {| graph := nx_add_edge nx_Graph "a" "b" []; locked := false |} =
        Some (result,
              {| graph := nx_add_edge nx_Graph "a" "b" []; locked := false |})) /\
  (exists reply,
      run (chat (fun _ => "") (PDict [("message", PStr "hi")]))
          {| graph := nx_add_edge nx_Graph "a" "b" []; locked := false |} =
        Some (reply,
              {| graph := nx_add_edge nx_Graph "a" "b" []; locked := false |})) /\
  (exists reply,
      run (document_analyze (PDict [("content", PStr "abc")]))
          {| graph := nx_add_edge nx_Graph "a" "b" []; locked := false |} =
        Some (reply,
              {| graph := nx_add_edge nx_Graph "a" "b" []; locked := false |})).
Proof.
  pose proof (@readers_leave_graph (fun _ => "")
                {| graph := nx_add_edge nx_Graph "a" "b" []; locked := false |}
                eq_refl) as (Hq & Hc & Hd).
  split; [apply (proj2 (Hq (PStr "a")))|].
  split; [apply (proj2 (Hc (PDict [("message", PStr "hi")])))|].
  apply (proj2 (Hd (PDict [("content", PStr "abc")]))).
Defined.

(** * Further properties of the graph service *)

(** ** Rows, nodes and lookups *)

Lemma dict_mem_get_default {V : Type} (k : string) (d : dict V) (dflt : V) :
  dict_mem k d = true -> dict_get k d = Some (dict_get_default k d dflt).
Proof.
  unfold dict_mem, dict_get_default.
  destruct (dict_get k d); [reflexivity | discriminate].
Qed.

Lemma dict_keys_set_both {V W : Type} (d1 : dict V) (d2 : dict W)
    (k : string) (v : V) (w : W) :
  dict_keys d1 = dict_keys d2 ->
  dict_keys (dict_set k v d1) = dict_keys (dict_set k w d2).
Proof.
  intros H. rewrite !dict_keys_set.
  assert (Hm : dict_mem k d1 = dict_mem k d2).
  { destruct (dict_mem k d1) eqn:E1, (dict_mem k d2) eqn:E2; try reflexivity.
    - apply dict_mem_In in E1. rewrite H in E1. apply dict_mem_In in E1.
      congruence.
    - apply dict_mem_In in E2. rewrite <- H in E2. apply dict_mem_In in E2.
      congruence. }
  rewrite Hm, H. reflexivity.
Qed.

Lemma rows_follow_nodes_add_node g n attr :
  dict_keys (_adj g) = nx_nodes g ->
  dict_keys (_adj (nx_add_node g n attr)) = nx_nodes (nx_add_node g n attr).
Proof.
  intros Hk. unfold nx_add_node, nx_nodes.
  destruct (dict_mem n (_node g)) eqn:Hn; cbn [_node _adj].
  - transitivity (dict_keys (_node g)); [exact Hk|].
    symmetry. now apply dict_keys_set_present.
  - now apply dict_keys_set_both.
Qed.

Lemma rows_follow_nodes_ensure_node g n :
  dict_keys (_adj g) = nx_nodes g ->
  dict_keys (_adj (ensure_node g n)) = nx_nodes (ensure_node g n).
Proof.
  intros Hk. unfold ensure_node, nx_nodes.
  destruct (dict_mem n (_node g)) eqn:Hn; cbn [_node _adj]; [exact Hk|].
  now apply dict_keys_set_both.
Qed.

Lemma rows_follow_nodes_add_edge g u v attr :
  wf g -> dict_keys (_adj g) = nx_nodes g ->
  dict_keys (_adj (nx_add_edge g u v attr)) = nx_nodes (nx_add_edge g u v attr).
Proof.
  intros Hg Hk. unfold nx_add_edge.
  set (g2 := ensure_node (ensure_node g u) v).
  assert (Hg2 : wf g2) by now do 2 apply wf_ensure_node.
  assert (Hk2 : dict_keys (_adj g2) = nx_nodes g2)
    by now do 2 apply rows_follow_nodes_ensure_node.
  assert (Hu : dict_mem u (_adj g2) = true).
  { rewrite (wf_row_of_node Hg2). apply ensure_node_mono, ensure_node_mem. }
  assert (Hv : dict_mem v (_adj g2) = true).
  { rewrite (wf_row_of_node Hg2). apply ensure_node_mem. }
  unfold nx_nodes. cbn [_adj _node set_adj].
  transitivity (dict_keys (_adj g2)); [|exact Hk2].
  etransitivity; [apply dict_keys_set_present|].
  - rewrite dict_mem_set, Hv. apply orb_true_r.
  - now apply dict_keys_set_present.
Qed.

Lemma serial_rows_follow_nodes s h s' :
  serial s h s' -> locked s = false -> wf (graph s) ->
  dict_keys (_adj (graph s)) = nx_nodes (graph s) ->
  dict_keys (_adj (graph s')) = nx_nodes (graph s').
Proof.
  induction 1 as [|s o a s1 l s2 Hrun Hser IH]; intros Hl Hg Hk; [assumption|].
  assert (H1 : serial s [(o, a)] s1)
    by (econstructor; [eassumption | constructor]).
  apply IH.
  - now apply serial_unlocked with (1 := H1).
  - now apply serial_wf with (1 := H1).
  - clear H1. run_method Hrun Hl; try assumption; cbn [graph].
    + now apply rows_follow_nodes_add_node.
    + now apply rows_follow_nodes_add_edge.
Qed.

(** X1. In every state the service reaches, [_adj] has one row per node, in
    the order of the nodes, so the lookups [self._node[n]] and
    [self._adj[n]] that the library and [query_node] make for a node never
    miss. *)
Theorem lookups_never_miss (s : Service) :
  reachable s ->
  dict_keys (_adj (graph s)) = nx_nodes (graph s) /\
  forall n,
    In n (nx_nodes (graph s)) ->
    dict_get n (_node (graph s)) = Some (node_attrs (graph s) n) /\
    dict_get n (_adj (graph s)) = Some (adj_of (graph s) n).
Proof.
  intros Hs. pose proof (reachable_wf Hs) as Hg. destruct Hs as [h Hser].
  split.
  - apply serial_rows_follow_nodes with (1 := Hser);
      [reflexivity | apply wf_empty | reflexivity].
  - intros n Hn. apply dict_mem_In in Hn. split.
    + now apply dict_mem_get_default.
    + apply dict_mem_get_default. now rewrite (wf_row_of_node Hg).
Qed.

Lemma lookups_never_miss_witness :
  dict_keys (_adj (nx_add_edge nx_Graph "a" "b" [])) = ["a"; "b"] /\
  forall n,
    In n (nx_nodes (nx_add_edge nx_Graph "a" "b" [])) ->
    dict_get n (_node (nx_add_edge nx_Graph "a" "b" [])) =
      Some (node_attrs (nx_add_edge nx_Graph "a" "b" []) n) /\
    dict_get n (_adj (nx_add_edge nx_Graph "a" "b" [])) =
      Some (adj_of (nx_add_edge nx_Graph "a" "b" []) n).
Proof.
  apply (@lookups_never_miss
           {| graph := nx_add_edge nx_Graph "a" "b" []; locked := false |}).
  exists [(AddEdge "a" "b" [], Returns PNone)].
  eapply serial_cons; [reflexivity | apply serial_nil].
Defined.

(** ** Undirected edges *)

Lemma edges_between_none g u v :
  wf g -> nx_has_edge g u v = false -> edges_between g u v = [].
Proof.
  intros Hg Hno. unfold edges_between.
  destruct (filter (same_pair u v) (nx_edges g)) as [|[a b] l] eqn:E;
    [reflexivity|].
  exfalso.
  assert (Hin : In (a, b) (filter (same_pair u v) (nx_edges g)))
    by (rewrite E; now left).
  apply filter_In in Hin as [Hin Hp].
  apply edges_rows_In in Hin as (nbrs & H1 & H2).
  assert (Hab : nx_has_edge g a b = true).
  { unfold nx_has_edge. rewrite (@adj_of_row g a nbrs (wf_rows Hg) H1).
    now apply dict_mem_In. }
  apply same_pair_true in Hp as [[-> ->]|[-> ->]]; [congruence|].
  rewrite (@wf_has_edge_sym g v u Hg) in Hab. congruence.
Qed.

(** X2. The graph is undirected in every state the service reaches: an edge
    is listed at one end exactly when it is listed at the other, it carries
    the same attributes from both ends, and [G.edges] lists it once, from one
    end only. *)
Theorem edges_are_undirected (s : Service) (u v : string) :
  reachable s ->
  (In (u, v) (nx_edges_of (graph s) u) <->
   In (v, u) (nx_edges_of (graph s) v)) /\
  dict_get v (adj_of (graph s) u) = dict_get u (adj_of (graph s) v) /\
  length (edges_between (graph s) u v) =
    (if nx_has_edge (graph s) u v then 1 else 0)%nat /\
  (u <> v -> In (u, v) (nx_edges (graph s)) ->
   ~ In (v, u) (nx_edges (graph s))).
Proof.
  intros Hs. pose proof (reachable_wf Hs) as Hg. split; [|split; [|split]].
  - rewrite !nx_edges_of_In. now rewrite (@wf_has_edge_sym _ u v Hg).
  - apply (wf_sym Hg).
  - destruct (nx_has_edge (graph s) u v) eqn:E.
    + now apply edges_between_has_edge.
    + now rewrite edges_between_none.
  - intros Hne Hin. now apply edges_rows_one_way.
Qed.

Lemma edges_are_undirected_witness :
  (In ("a", "b") (nx_edges_of (nx_add_edge nx_Graph "b" "a" []) "a") <->
   In ("b", "a") (nx_edges_of (nx_add_edge nx_Graph "b" "a" []) "b")) /\
  dict_get "b" (adj_of (nx_add_edge nx_Graph "b" "a" []) "a") =
    dict_get "a" (adj_of (nx_add_edge nx_Graph "b" "a" []) "b") /\
  length (edges_between (nx_add_edge nx_Graph "b" "a" []) "a" "b") = 1%nat /\
  ("a" <> "b" -> In ("a", "b") (nx_edges (nx_add_edge nx_Graph "b" "a" [])) ->
   ~ In ("b", "a") (nx_edges (nx_add_edge nx_Graph "b" "a" []))).
Proof.
  apply (@edges_are_undirected
           {| graph := nx_add_edge nx_Graph "b" "a" []; locked := false |}
           "a" "b").
  exists [(AddEdge "b" "a" [], Returns PNone)].
  eapply serial_cons; [reflexivity | apply serial_nil].
Defined.

(** ** The answer of a query *)

(** X3. For a node of the graph, in every state the service reaches,
    [query_node] answers [exists: True] with the attributes of the node and
    one pair per neighbour: every pair has the queried node first, no pair
    is repeated, and every neighbour is a node of the graph. *)
Theorem query_node_answer (s : Service) (n : string) :
  reachable s ->
  In n (nx_nodes (graph s)) ->
  exists nbrs,
    run (query_node (PStr n)) s =
      Some (PDict [("exists", PBool true);
                   ("data", PDict (node_attrs (graph s) n));
                   ("edges",
                    PList (map (fun nbr => PTuple [PStr n; PStr nbr]) nbrs))],
            s) /\
    NoDup nbrs /\
    (forall nbr, In nbr nbrs <-> nx_has_edge (graph s) n nbr = true) /\
    (forall nbr, In nbr nbrs -> In nbr (nx_nodes (graph s))).
Proof.
  intros Hs Hn. pose proof (reachable_wf Hs) as Hg.
  pose proof (reachable_unlocked Hs) as Hl.
  exists (dict_keys (adj_of (graph s) n)). split; [|split; [|split]].
  - rewrite run_query_node by assumption. cbn [nx_contains].
    apply dict_mem_In in Hn. rewrite Hn. unfold nx_edges_of.
    now rewrite map_map.
  - apply (wf_nbrs Hg).
  - intros nbr. unfold nx_has_edge. now rewrite dict_mem_In.
  - intros nbr Hnbr. apply dict_mem_In in Hnbr.
    apply dict_mem_In. now apply (wf_ends Hg n nbr).
Qed.

Lemma query_node_answer_witness :
  exists nbrs,
    run (query_node (PStr "a"))
        {| graph := nx_add_edge nx_Graph "a" "b" []; locked := false |} =
      Some (PDict [("exists", PBool true);
                   ("data", PDict []);
                   ("edges",
                    PList (map (fun nbr => PTuple [PStr "a"; PStr nbr]) nbrs))],
            {| graph := nx_add_edge nx_Graph "a" "b" []; locked := false |}) /\
    NoDup nbrs /\
    (forall nbr,
        In nbr nbrs <->
        nx_has_edge (nx_add_edge nx_Graph "a" "b" []) "a" nbr = true) /\
    (forall nbr, In nbr nbrs -> In nbr ["a"; "b"]).
Proof.
  apply (@query_node_answer
           {| graph := nx_add_edge nx_Graph "a" "b" []; locked := false |} "a").
  - exists [(AddEdge "a" "b" [], Returns PNone)].
    eapply serial_cons; [reflexivity | apply serial_nil].
  - simpl. auto.
Defined.

(** ** What the mutators change and what they leave *)

Lemma adj_of_ensure_node g n m :
  wf g -> adj_of (ensure_node g n) m = adj_of g m.
Proof.
  intros Hg. unfold ensure_node.
  destruct (dict_mem n (_node g)) eqn:Hn; [reflexivity|].
  unfold adj_of at 1; cbn [_adj]. apply adj_of_fresh_row.
  now rewrite (wf_row_of_node Hg).
Qed.

Lemma adj_of_add_node g n attr m :
  wf g -> adj_of (nx_add_node g n attr) m = adj_of g m.
Proof.
  intros Hg. unfold nx_add_node.
  destruct (dict_mem n (_node g)) eqn:Hn; [reflexivity|].
  unfold adj_of at 1; cbn [_adj]. apply adj_of_fresh_row.
  now rewrite (wf_row_of_node Hg).
Qed.

Lemma node_attrs_ensure_node g u n :
  node_attrs (ensure_node g u) n = node_attrs g n.
Proof.
  unfold ensure_node. destruct (dict_mem u (_node g)) eqn:Hu; [reflexivity|].
  unfold node_attrs, dict_get_default; cbn [_node]. rewrite dict_get_set.
  destruct (String.eqb_spec u n) as [->|Hne]; [|reflexivity].
  unfold dict_mem in Hu. now destruct (dict_get n (_node g)).
Qed.

Lemma node_attrs_add_edge g u v attr n :
  node_attrs (nx_add_edge g u v attr) n = node_attrs g n.
Proof.
  unfold nx_add_edge.
  change (node_attrs (ensure_node (ensure_node g u) v) n = node_attrs g n).
  now rewrite !node_attrs_ensure_node.
Qed.

(** The data of every pair after [add_edge(u, v)]. *)
Lemma get_add_edge g u v attr a b :
  wf g ->
  dict_get b (adj_of (nx_add_edge g u v attr) a) =
  if same_pair u v (a, b) then
    Some (dict_update (dict_get_default v (adj_of g u) []) attr)
  else dict_get b (adj_of g a).
Proof.
  intros Hg. unfold nx_add_edge. rewrite get_after_set_adj2.
  assert (Hg1 : wf (ensure_node g u)) by now apply wf_ensure_node.
  now rewrite !adj_of_ensure_node.
Qed.

Lemma has_edge_add_edge g u v attr a b :
  wf g ->
  nx_has_edge (nx_add_edge g u v attr) a b =
  same_pair u v (a, b) || nx_has_edge g a b.
Proof.
  intros Hg. unfold nx_has_edge, dict_mem. rewrite get_add_edge by assumption.
  now destruct (same_pair u v (a, b)).
Qed.

Lemma dict_set_fresh {V : Type} (k : string) (v : V) (d : dict V) :
  dict_mem k d = false -> dict_set k v d = d ++ [(k, v)].
Proof.
  unfold dict_mem. induction d as [|[k' v'] d IH]; simpl; [reflexivity|].
  destruct (String.eqb k k'); [discriminate|]. intros H. now rewrite IH.
Qed.

Lemma edges_rows_empty_row rows seen n :
  edges_rows (rows ++ [(n, [])]) seen = edges_rows rows seen.
Proof.
  revert seen. induction rows as [|[m nbrs] rows IH]; simpl; intros seen.
  - reflexivity.
  - now rewrite IH.
Qed.

Lemma nx_edges_add_node g n attr :
  wf g -> nx_edges (nx_add_node g n attr) = nx_edges g.
Proof.
  intros Hg. unfold nx_edges, nx_add_node.
  destruct (dict_mem n (_node g)) eqn:Hn; cbn [_adj]; [reflexivity|].
  rewrite dict_set_fresh by now rewrite (wf_row_of_node Hg).
  apply edges_rows_empty_row.
Qed.

(** X4. [add_edge] never touches the attributes of a node: whatever the
    state and the keywords, it returns [None], or raises [TypeError] when a
    keyword names a parameter, and every identifier has after it the
    attributes it had before; an endpoint it creates has none. *)
Theorem add_edge_keeps_attributes (s : Service) (u v : string) (attr : attrs) :
  locked s = false ->
  exists s',
    run (add_edge u v attr) s =
      Some (if add_edge_accepts attr then Returns PNone
            else Raises TypeError, s') /\
    (add_edge_accepts attr = true ->
     In u (nx_nodes (graph s')) /\ In v (nx_nodes (graph s'))) /\
    (forall n, node_attrs (graph s') n = node_attrs (graph s) n) /\
    (~ In u (nx_nodes (graph s)) -> node_attrs (graph s') u = []) /\
    (~ In v (nx_nodes (graph s)) -> node_attrs (graph s') v = []).
Proof.
  intros Hl.
  assert (Hnew : forall n, ~ In n (nx_nodes (graph s)) ->
                           node_attrs (graph s) n = []).
  { intros n Hn. apply dict_mem_false_In in Hn.
    unfold node_attrs, dict_get_default, dict_mem in *.
    now destruct (dict_get n (_node (graph s))). }
  rewrite run_add_edge by assumption.
  destruct (add_edge_accepts attr); eexists; (split; [reflexivity|]);
    cbn [graph].
  - split; [intros _; rewrite !nx_add_edge_nodes; auto|].
    split; [|split]; intros; rewrite node_attrs_add_edge; auto.
  - split; [discriminate|]. auto.
Qed.

Lemma add_edge_keeps_attributes_witness :
  exists s',
    run (add_edge "a" "b" [("w", PInt 1)])
        {| graph := nx_add_node nx_Graph "a" [("kind", PStr "doc")];
           locked := false |} = Some (Returns PNone, s') /\
    (In "a" (nx_nodes (graph s')) /\ In "b" (nx_nodes (graph s'))) /\
    (forall n,
        node_attrs (graph s') n =
        node_attrs (nx_add_node nx_Graph "a" [("kind", PStr "doc")]) n) /\
    node_attrs (graph s') "b" = [].
Proof.
  destruct (@add_edge_keeps_attributes
              {| graph := nx_add_node nx_Graph "a" [("kind", PStr "doc")];
                 locked := false |} "a" "b" [("w", PInt 1)] eq_refl)
    as (s' & Hrun & Hnodes & Hkept & _ & Hnew).
  exists s'. split; [exact Hrun|]. split; [exact (Hnodes eq_refl)|].
  split; [exact Hkept|]. apply Hnew. intros [H|[]]. discriminate H.
Defined.

(** With a keyword named like a parameter of [Graph.add_edge], the call
    raises and the graph is as it was. *)
Example add_edge_keyword_collision :
  run (add_edge "a" "b" [("u_of_edge", PStr "c")]) GraphService_init =
    Some (Raises TypeError, GraphService_init) /\
  run (add_edge "a" "b" [("source", PStr "c")]) GraphService_init =
    Some (Raises TypeError, GraphService_init) /\
  run (add_edge "a" "b" [("weight", PInt 3)]) GraphService_init =
    Some (Returns PNone,
          {| graph := nx_add_edge nx_Graph "a" "b" [("weight", PInt 3)];
             locked := false |}).
Proof. repeat split. Qed.

(** X5. [add_node] never touches an edge: in every state the service
    reaches and whatever the keywords, it returns [None] with the node in
    the graph, or raises [TypeError] when a keyword names a parameter;
    [G.edges] lists what it listed, every node keeps its neighbours with
    the attributes of their edges, and every other node keeps its own
    attributes. *)
Theorem add_node_keeps_edges (s : Service) (n : string) (attr : attrs) :
  reachable s ->
  exists s',
    run (add_node n attr) s =
      Some (if add_node_accepts attr then Returns PNone
            else Raises TypeError, s') /\
    (add_node_accepts attr = true -> In n (nx_nodes (graph s'))) /\
    nx_edges (graph s') = nx_edges (graph s) /\
    (forall m, adj_of (graph s') m = adj_of (graph s) m) /\
    (forall m, m <> n -> node_attrs (graph s') m = node_attrs (graph s) m).
Proof.
  intros Hs. pose proof (reachable_wf Hs) as Hg.
  pose proof (reachable_unlocked Hs) as Hl.
  rewrite run_add_node by assumption.
  destruct (add_node_accepts attr); eexists; (split; [reflexivity|]);
    cbn [graph]; [|split; [discriminate | auto]].
  split; [intros _; rewrite nx_add_node_nodes; auto|].
  split; [now apply nx_edges_add_node|]. split.
  - intros m. now apply adj_of_add_node.
  - intros m Hm. unfold nx_add_node, node_attrs.
    destruct (dict_mem n (_node (graph s))); cbn [_node];
      now apply dict_get_default_set_other.
Qed.

Lemma add_node_keeps_edges_witness :
  exists s',
    run (add_node "c" [("kind", PStr "doc")])
        {| graph := nx_add_edge nx_Graph "a" "b" [("w", PInt 1)];
           locked := false |} = Some (Returns PNone, s') /\
    In "c" (nx_nodes (graph s')) /\
    nx_edges (graph s') = [("a", "b")] /\
    (forall m,
        adj_of (graph s') m =
        adj_of (nx_add_edge nx_Graph "a" "b" [("w", PInt 1)]) m) /\
    (forall m, m <> "c" ->
               node_attrs (graph s') m =
               node_attrs (nx_add_edge nx_Graph "a" "b" [("w", PInt 1)]) m).
Proof.
  assert (Hs : reachable
                 {| graph := nx_add_edge nx_Graph "a" "b" [("w", PInt 1)];
                    locked := false |}).
  { exists [(AddEdge "a" "b" [("w", PInt 1)], Returns PNone)].
    eapply serial_cons; [reflexivity | apply serial_nil]. }
  destruct (@add_node_keeps_edges _ "c" [("kind", PStr "doc")] Hs)
    as (s' & Hrun & Hnode & Hedges & Hadj & Hattrs).
  exists s'. split; [exact Hrun|]. split; [exact (Hnode eq_refl)|].
  split; [exact Hedges|]. split; [exact Hadj | exact Hattrs].
Defined.

(** X6. [add_edge(u, v)] adds the edge between [u] and [v] and no other: in
    every state the service reaches, after it two identifiers are joined
    exactly when they are [u] and [v], in either order, or were joined
    before; [G.edges] lists one edge between [u] and [v] and as many as
    before between any other two; and every other edge keeps its
    attributes.  The keywords of the call name no parameter of [add_edge]. *)
Theorem add_edge_adds_one_edge (s : Service) (u v : string) (attr : attrs) :
  reachable s ->
  add_edge_accepts attr = true ->
  exists s',
    run (add_edge u v attr) s = Some (Returns PNone, s') /\
    forall a b,
      nx_has_edge (graph s') a b =
        same_pair u v (a, b) || nx_has_edge (graph s) a b /\
      length (edges_between (graph s') a b) =
        (if same_pair u v (a, b) then 1%nat
         else length (edges_between (graph s) a b)) /\
      (same_pair u v (a, b) = false ->
       dict_get b (adj_of (graph s') a) = dict_get b (adj_of (graph s) a)).
Proof.
  intros Hs Haccepts. pose proof (reachable_wf Hs) as Hg.
  pose proof (reachable_unlocked Hs) as Hl.
  pose proof (wf_add_edge u v attr Hg) as Hg'.
  eexists. split; [now apply run_add_edge_accepted|]. cbn [graph].
  intros a b. pose proof (has_edge_add_edge u v attr a b Hg) as He.
  split; [assumption|]. split.
  - destruct (same_pair u v (a, b)) eqn:E.
    + now apply edges_between_has_edge.
    + simpl in He.
      destruct (nx_has_edge (graph s) a b) eqn:E'.
      * rewrite !edges_between_has_edge; auto.
      * rewrite !edges_between_none; auto.
  - intros E. rewrite get_add_edge by assumption. now rewrite E.
Qed.

Lemma add_edge_adds_one_edge_witness :
  exists s',
    run (add_edge "b" "c" [])
        {| graph := nx_add_edge nx_Graph "a" "b" [("w", PInt 1)];
           locked := false |} = Some (Returns PNone, s') /\
    forall a b,
      nx_has_edge (graph s') a b =
        same_pair "b" "c" (a, b)
        || nx_has_edge (nx_add_edge nx_Graph "a" "b" [("w", PInt 1)]) a b /\
      length (edges_between (graph s') a b) =
        (if same_pair "b" "c" (a, b) then 1%nat
         else length (edges_between
                        (nx_add_edge nx_Graph "a" "b" [("w", PInt 1)]) a b)) /\
      (same_pair "b" "c" (a, b) = false ->
       dict_get b (adj_of (graph s') a) =
       dict_get b (adj_of (nx_add_edge nx_Graph "a" "b" [("w", PInt 1)]) a)).
Proof.
  apply (@add_edge_adds_one_edge
           {| graph := nx_add_edge nx_Graph "a" "b" [("w", PInt 1)];
              locked := false |} "b" "c" []).
  - exists [(AddEdge "a" "b" [("w", PInt 1)], Returns PNone)].
    eapply serial_cons; [reflexivity | apply serial_nil].
  - reflexivity.
Defined.

(** ** Insertion order *)

Lemma dict_keys_set_absent {V : Type} (k : string) (v : V) (d : dict V) :
  dict_mem k d = false -> dict_keys (dict_set k v d) = dict_keys d ++ [k].
Proof. intros H. now rewrite dict_keys_set, H. Qed.

Lemma nx_nodes_add_node g n attr :
  nx_nodes (nx_add_node g n attr) =
  nx_nodes g ++ (if dict_mem n (_node g) then [] else [n]).
Proof.
  unfold nx_add_node, nx_nodes.
  destruct (dict_mem n (_node g)) eqn:Hn; cbn [_node].
  - rewrite app_nil_r. now apply dict_keys_set_present.
  - now apply dict_keys_set_absent.
Qed.

Lemma nx_nodes_ensure_node g n :
  nx_nodes (ensure_node g n) =
  nx_nodes g ++ (if dict_mem n (_node g) then [] else [n]).
Proof.
  unfold ensure_node, nx_nodes.
  destruct (dict_mem n (_node g)) eqn:Hn; cbn [_node].
  - now rewrite app_nil_r.
  - now apply dict_keys_set_absent.
Qed.

Lemma nx_nodes_add_edge g u v attr :
  nx_nodes (nx_add_edge g u v attr) =
  nx_nodes g ++ (if dict_mem u (_node g) then [] else [u])
             ++ (if dict_mem v (_node g) || String.eqb u v then [] else [v]).
Proof.
  change (nx_nodes (nx_add_edge g u v attr))
    with (nx_nodes (ensure_node (ensure_node g u) v)).
  rewrite !nx_nodes_ensure_node, <- app_assoc. do 2 f_equal.
  unfold ensure_node. destruct (dict_mem u (_node g)) eqn:Hu; cbn [_node].
  - destruct (String.eqb_spec u v) as [->|Hne].
    + now rewrite Hu.
    + now rewrite orb_false_r.
  - rewrite dict_mem_set. now rewrite orb_comm.
Qed.

Lemma nx_edges_of_add_edge g u v attr a :
  wf g ->
  nx_edges_of (nx_add_edge g u v attr) a =
  nx_edges_of g a ++
  (if nx_has_edge g u v then []
   else if String.eqb a u then [(u, v)]
   else if String.eqb a v then [(v, u)]
   else []).
Proof.
  intros Hg. pose proof (@wf_has_edge_sym g u v Hg) as Hsym.
  assert (Hg1 : wf (ensure_node g u)) by now apply wf_ensure_node.
  unfold nx_edges_of, nx_add_edge. rewrite !adj_of_set_adj.
  rewrite !adj_of_ensure_node by assumption.
  unfold nx_has_edge in *.
  destruct (String.eqb_spec v a) as [->|Hva].
  - destruct (String.eqb_spec u a) as [->|Hua].
    + rewrite dict_keys_set, dict_mem_set_same, dict_keys_set.
      destruct (dict_mem a (adj_of g a)); [now rewrite app_nil_r|].
      now rewrite map_app, String.eqb_refl.
    + destruct (String.eqb_spec a u) as [->|_]; [congruence|].
      rewrite dict_keys_set, Hsym.
      destruct (dict_mem u (adj_of g a)); [now rewrite app_nil_r|].
      now rewrite map_app, String.eqb_refl.
  - destruct (String.eqb_spec u a) as [->|Hua].
    + rewrite String.eqb_refl, dict_keys_set.
      destruct (dict_mem v (adj_of g a)); [now rewrite app_nil_r|].
      now rewrite map_app.
    + destruct (String.eqb_spec a u) as [->|_]; [congruence|].
      destruct (String.eqb_spec a v) as [->|_]; [congruence|].
      destruct (dict_mem v (adj_of g u)); now rewrite app_nil_r.
Qed.

(** X7. [add_edge] appends.  In every state the service reaches, an
    endpoint that is new goes to the end of the nodes, source first; a pair
    that had an edge leaves every list of edges as it was; a new pair puts
    [(u, v)] at the end of the edges of [u] and [(v, u)] at the end of the
    edges of [v], and no other list changes.  The keywords of the call name
    no parameter of [add_edge]. *)
Theorem add_edge_appends (s : Service) (u v : string) (attr : attrs) :
  reachable s ->
  add_edge_accepts attr = true ->
  exists s',
    run (add_edge u v attr) s = Some (Returns PNone, s') /\
    nx_nodes (graph s') =
      nx_nodes (graph s)
      ++ (if dict_mem u (_node (graph s)) then [] else [u])
      ++ (if dict_mem v (_node (graph s)) || String.eqb u v then []
          else [v]) /\
    forall a,
      nx_edges_of (graph s') a =
      nx_edges_of (graph s) a ++
      (if nx_has_edge (graph s) u v then []
       else if String.eqb a u then [(u, v)]
       else if String.eqb a v then [(v, u)]
       else []).
Proof.
  intros Hs Haccepts. pose proof (reachable_wf Hs) as Hg.
  pose proof (reachable_unlocked Hs) as Hl.
  eexists. split; [now apply run_add_edge_accepted|]. cbn [graph].
  split; [apply nx_nodes_add_edge|].
  intros a. now apply nx_edges_of_add_edge.
Qed.

Lemma add_edge_appends_witness :
  exists s',
    run (add_edge "c" "a" [])
        {| graph := nx_add_edge nx_Graph "a" "b" []; locked := false |} =
      Some (Returns PNone, s') /\
    nx_nodes (graph s') = ["a"; "b"] ++ ["c"] ++ [] /\
    forall a,
      nx_edges_of (graph s') a =
      nx_edges_of (nx_add_edge nx_Graph "a" "b" []) a ++
      (if nx_has_edge (nx_add_edge nx_Graph "a" "b" []) "c" "a" then []
       else if String.eqb a "c" then [("c", "a")]
       else if String.eqb a "a" then [("a", "c")]
       else []).
Proof.
  apply (@add_edge_appends
           {| graph := nx_add_edge nx_Graph "a" "b" []; locked := false |}
           "c" "a" []).
  - exists [(AddEdge "a" "b" [], Returns PNone)].
    eapply serial_cons; [reflexivity | apply serial_nil].
  - reflexivity.
Defined.

Lemma method_only_appends s o a s1 :
  locked s = false -> wf (graph s) ->
  run (method o) s = Some (a, s1) ->
  (exists added, nx_nodes (graph s1) = nx_nodes (graph s) ++ added) /\
  (forall n, exists more,
      nx_edges_of (graph s1) n = nx_edges_of (graph s) n ++ more).
Proof.
  intros Hl Hg Hrun.
  assert (Hsame : (exists added,
                      nx_nodes (graph s) = nx_nodes (graph s) ++ added) /\
                  (forall n, exists more,
                      nx_edges_of (graph s) n =
                      nx_edges_of (graph s) n ++ more))
    by (split; [exists [] | intros m; exists []]; now rewrite app_nil_r).
  run_method Hrun Hl; try exact Hsame; cbn [graph]; split.
  - eexists. apply nx_nodes_add_node.
  - intros m. exists []. unfold nx_edges_of.
    now rewrite adj_of_add_node, app_nil_r.
  - eexists. rewrite nx_nodes_add_edge. reflexivity.
  - intros m. eexists. now apply nx_edges_of_add_edge.
Qed.

(** X8. Nothing is ever removed.  From a state the service reaches, through
    any further invocations, the nodes there stay where they are at the head
    of the nodes, the edges of every node stay where they are at the head
    of its edges, and two identifiers that are joined stay joined. *)
Theorem nothing_is_removed (s s' : Service) (h : list (op * completion)) :
  reachable s ->
  serial s h s' ->
  (exists added, nx_nodes (graph s') = nx_nodes (graph s) ++ added) /\
  (forall n, exists more,
      nx_edges_of (graph s') n = nx_edges_of (graph s) n ++ more) /\
  (forall u v, nx_has_edge (graph s) u v = true ->
               nx_has_edge (graph s') u v = true).
Proof.
  intros Hs Hser.
  pose proof (reachable_wf Hs) as Hg. pose proof (reachable_unlocked Hs) as Hl.
  clear Hs.
  assert (H : (exists added, nx_nodes (graph s') = nx_nodes (graph s) ++ added)
              /\ (forall n, exists more,
                     nx_edges_of (graph s') n =
                     nx_edges_of (graph s) n ++ more)).
  { induction Hser as [|s o a s1 l s2 Hrun Hser IH].
    - split; [exists [] | intros n; exists []]; now rewrite app_nil_r.
    - assert (H1 : serial s [(o, a)] s1)
        by (econstructor; [eassumption | constructor]).
      destruct (@method_only_appends s o a s1 Hl Hg Hrun) as [[ad1 Hn1] He1].
      destruct IH as [[ad2 Hn2] He2].
      + now apply serial_wf with (1 := H1).
      + now apply serial_unlocked with (1 := H1).
      + split.
        * exists (ad1 ++ ad2). now rewrite Hn2, Hn1, app_assoc.
        * intros n. destruct (He1 n) as [m1 E1]. destruct (He2 n) as [m2 E2].
          exists (m1 ++ m2). now rewrite E2, E1, app_assoc. }
  destruct H as [Hn He]. split; [assumption|]. split; [assumption|].
  intros u v Huv. apply nx_edges_of_In. destruct (He u) as [more ->].
  apply in_or_app. left. now apply nx_edges_of_In.
Qed.

Lemma nothing_is_removed_witness :
  (exists added,
      nx_nodes (nx_add_node (nx_add_edge nx_Graph "a" "b" []) "c" []) =
      ["a"; "b"] ++ added) /\
  (forall n, exists more,
      nx_edges_of (nx_add_node (nx_add_edge nx_Graph "a" "b" []) "c" []) n =
      nx_edges_of (nx_add_edge nx_Graph "a" "b" []) n ++ more) /\
  (forall u v,
      nx_has_edge (nx_add_edge nx_Graph "a" "b" []) u v = true ->
      nx_has_edge (nx_add_node (nx_add_edge nx_Graph "a" "b" []) "c" []) u v =
        true).
Proof.
  apply (@nothing_is_removed
           {| graph := nx_add_edge nx_Graph "a" "b" []; locked := false |}
           {| graph := nx_add_node (nx_add_edge nx_Graph "a" "b" []) "c" [];
              locked := false |}
           [(AddNode "c" [], Returns PNone)]).
  - exists [(AddEdge "a" "b" [], Returns PNone)].
    eapply serial_cons; [reflexivity | apply serial_nil].
  - eapply serial_cons; [reflexivity | apply serial_nil].
Defined.

(** ** Attributes *)

Lemma dict_get_update {V : Type} (k : string) (d other : dict V) :
  NoDup (dict_keys other) ->
  dict_get k (dict_update d other) =
  match dict_get k other with
  | Some v => Some v
  | None => dict_get k d
  end.
Proof.
  unfold dict_update. revert d.
  induction other as [|[k0 v0] other IH]; simpl; intros d Hnd; [reflexivity|].
  inversion Hnd as [|? ? Hk0 Hnd']; subst. rewrite IH by assumption.
  destruct (String.eqb_spec k k0) as [->|Hne].
  - apply dict_mem_false_In in Hk0. unfold dict_mem in Hk0.
    destruct (dict_get k0 other); [discriminate|].
    apply dict_get_set_same.
  - destruct (dict_get k other); [reflexivity|].
    apply dict_get_set_other. congruence.
Qed.

Lemma dict_update_same {V : Type} (d other : dict V) :
  (forall k v, In (k, v) other -> dict_get k d = Some v) ->
  dict_update d other = d.
Proof.
  unfold dict_update.
  induction other as [|[k0 v0] other IH]; simpl; intros H; [reflexivity|].
  rewrite dict_set_get_same by (apply H; now left).
  apply IH. intros k v Hin. apply H. now right.
Qed.

Lemma dict_update_again {V : Type} (d other : dict V) :
  NoDup (dict_keys other) ->
  dict_update (dict_update d other) other = dict_update d other.
Proof.
  intros Hnd. apply dict_update_same. intros k v Hin.
  rewrite dict_get_update by assumption.
  now rewrite (@dict_In_get _ k v other Hnd Hin).
Qed.

Lemma node_attrs_add_node g n attr m :
  node_attrs (nx_add_node g n attr) m =
  if String.eqb n m then dict_update (node_attrs g n) attr
  else node_attrs g m.
Proof.
  unfold nx_add_node, node_attrs, dict_get_default.
  destruct (dict_mem n (_node g)) eqn:Hn; cbn [_node]; rewrite dict_get_set;
    destruct (String.eqb n m); try reflexivity.
  unfold dict_mem in Hn. now destruct (dict_get n (_node g)).
Qed.

Lemma mem_add_node g n attr m :
  dict_mem m (_node (nx_add_node g n attr)) =
  String.eqb n m || dict_mem m (_node g).
Proof.
  unfold nx_add_node.
  destruct (dict_mem n (_node g)); cbn [_node]; apply dict_mem_set.
Qed.

(** X9. The attributes given to [add_node] are read back by
    [query_node]: for keyword arguments, which name no key twice, and here
    no parameter of [add_node], the data of the node then holds for each
    key the value given, and for every other key the value it held
    before. *)
Theorem add_node_attributes_read_back (s : Service) (id : string)
    (attr : attrs) :
  locked s = false ->
  NoDup (dict_keys attr) ->
  add_node_accepts attr = true ->
  exists s' data edges,
    run (add_node id attr) s = Some (Returns PNone, s') /\
    run (query_node (PStr id)) s' =
      Some (PDict [("exists", PBool true); ("data", PDict data);
                   ("edges", edges)], s') /\
    forall k,
      dict_get k data =
      match dict_get k attr with
      | Some v => Some v
      | None => dict_get k (node_attrs (graph s) id)
      end.
Proof.
  intros Hl Hnd Haccepts. do 3 eexists.
  split; [now apply run_add_node_accepted|].
  rewrite run_query_node by reflexivity. cbn [graph nx_contains].
  rewrite mem_add_node, String.eqb_refl. cbn [orb].
  split; [reflexivity|]. intros k.
  rewrite node_attrs_add_node, String.eqb_refl.
  now apply dict_get_update.
Qed.

Lemma add_node_attributes_read_back_witness :
  exists s' data edges,
    run (add_node "a" [("rank", PInt 2)])
        {| graph := nx_add_node nx_Graph "a"
                      [("kind", PStr "doc"); ("rank", PInt 1)];
           locked := false |} = Some (Returns PNone, s') /\
    run (query_node (PStr "a")) s' =
      Some (PDict [("exists", PBool true); ("data", PDict data);
                   ("edges", edges)], s') /\
    forall k,
      dict_get k data =
      match dict_get k [("rank", PInt 2)] with
      | Some v => Some v
      | None => dict_get k [("kind", PStr "doc"); ("rank", PInt 1)]
      end.
Proof.
  apply (@add_node_attributes_read_back
           {| graph := nx_add_node nx_Graph "a"
                         [("kind", PStr "doc"); ("rank", PInt 1)];
              locked := false |} "a" [("rank", PInt 2)]).
  - reflexivity.
  - repeat constructor. simpl. tauto.
  - reflexivity.
Defined.

(** X10. The attributes given to [add_edge] are read back from both ends:
    in every state the service reaches, for keyword arguments that name no
    parameter of [add_edge], the data of the edge then holds for each key
    the value given and for every other key the value it held before,
    whether read as [_adj[u][v]] or as [_adj[v][u]]. *)
Theorem add_edge_attributes_read_back (s : Service) (u v : string)
    (attr : attrs) :
  reachable s ->
  NoDup (dict_keys attr) ->
  add_edge_accepts attr = true ->
  exists s' data,
    run (add_edge u v attr) s = Some (Returns PNone, s') /\
    dict_get v (adj_of (graph s') u) = Some data /\
    dict_get u (adj_of (graph s') v) = Some data /\
    forall k,
      dict_get k data =
      match dict_get k attr with
      | Some w => Some w
      | None => dict_get k (dict_get_default v (adj_of (graph s) u) [])
      end.
Proof.
  intros Hs Hnd Haccepts. pose proof (reachable_wf Hs) as Hg.
  pose proof (reachable_unlocked Hs) as Hl.
  do 2 eexists. split; [now apply run_add_edge_accepted|]. cbn [graph].
  rewrite !get_add_edge by assumption. unfold same_pair; cbn [fst snd].
  rewrite !String.eqb_refl. cbn [andb orb]. rewrite orb_true_r.
  split; [reflexivity|]. split; [reflexivity|].
  intros k. now apply dict_get_update.
Qed.

Lemma add_edge_attributes_read_back_witness :
  exists s' data,
    run (add_edge "b" "a" [("w", PInt 2)])
        {| graph := nx_add_edge nx_Graph "a" "b"
                      [("w", PInt 1); ("colour", PStr "red")];
           locked := false |} = Some (Returns PNone, s') /\
    dict_get "a" (adj_of (graph s') "b") = Some data /\
    dict_get "b" (adj_of (graph s') "a") = Some data /\
    forall k,
      dict_get k data =
      match dict_get k [("w", PInt 2)] with
      | Some w => Some w
      | None => dict_get k [("w", PInt 1); ("colour", PStr "red")]
      end.
Proof.
  apply (@add_edge_attributes_read_back
           {| graph := nx_add_edge nx_Graph "a" "b"
                         [("w", PInt 1); ("colour", PStr "red")];
              locked := false |} "b" "a" [("w", PInt 2)]).
  - exists [(AddEdge "a" "b" [("w", PInt 1); ("colour", PStr "red")],
             Returns PNone)].
    eapply serial_cons; [reflexivity | apply serial_nil].
  - repeat constructor. simpl. tauto.
  - reflexivity.
Defined.

(** ** Calls made again, calls made in another order *)

(** What follows [add_node] runs on the graph with the node, or on the
    graph as it was when the call raised. *)
Lemma run_add_node_then {A : Type} n attr (k : prog A) s :
  locked s = false ->
  run (add_node n attr ;; k) s =
  run k {| graph := if add_node_accepts attr
                    then nx_add_node (graph s) n attr else graph s;
           locked := false |}.
Proof.
  intros Hl. rewrite run_bind, run_add_node by assumption.
  destruct (add_node_accepts attr); [reflexivity|].
  now rewrite Service_eta.
Qed.

Lemma nx_add_node_twice g id attr :
  NoDup (dict_keys attr) ->
  nx_add_node (nx_add_node g id attr) id attr = nx_add_node g id attr.
Proof.
  intros Hnd. set (g1 := nx_add_node g id attr).
  assert (Hm : dict_mem id (_node g1) = true) by apply nx_add_node_mem.
  assert (Ha : node_attrs g1 id = dict_update (node_attrs g id) attr).
  { unfold g1. now rewrite node_attrs_add_node, String.eqb_refl. }
  unfold nx_add_node at 1. rewrite Hm, Ha, dict_update_again by assumption.
  rewrite <- Ha. destruct g1 as [nd ad]; cbn [_node _adj] in *. f_equal.
  apply dict_set_get_same. unfold node_attrs. cbn [_node].
  now apply dict_mem_get_default.
Qed.

Lemma nx_add_edge_twice g u v attr :
  NoDup (dict_keys attr) ->
  nx_add_edge (nx_add_edge g u v attr) u v attr = nx_add_edge g u v attr.
Proof.
  intros Hnd. set (g1 := nx_add_edge g u v attr).
  assert (Hu : dict_mem u (_node g1) = true).
  { unfold g1. rewrite nx_add_edge_node. apply ensure_node_mono, ensure_node_mem. }
  assert (Hv : dict_mem v (_node g1) = true).
  { unfold g1. rewrite nx_add_edge_node. apply ensure_node_mem. }
  unfold nx_add_edge at 1.
  rewrite (@ensure_node_present _ _ Hu), (@ensure_node_present _ _ Hv).
  set (dd := dict_update
               (dict_get_default v
                  (adj_of (ensure_node (ensure_node g u) v) u) []) attr).
  assert (Hd : dict_get v (adj_of g1 u) = Some dd).
  { unfold g1, nx_add_edge. fold dd. rewrite get_after_set_adj2.
    unfold same_pair; cbn [fst snd]. now rewrite !String.eqb_refl. }
  assert (Hdd : dict_update (dict_get_default v (adj_of g1 u) []) attr = dd).
  { unfold dict_get_default at 1. rewrite Hd. unfold dd.
    now apply dict_update_again. }
  cbv zeta. rewrite Hdd.
  assert (Hg1 : g1 = set_adj
                       (set_adj (ensure_node (ensure_node g u) v) u v dd)
                       v u dd) by reflexivity.
  rewrite Hg1. apply set_adj2_again.
Qed.

(** X11. A call made again changes nothing: whatever the state, [add_node]
    and [add_edge] called a second time with the same keyword arguments end
    as the first call did, returning [None], or raising [TypeError] when a
    keyword names a parameter, and leave the service exactly as the first
    call left it. *)
Theorem mutators_are_idempotent (s : Service) (u v : string) (attr : attrs) :
  locked s = false ->
  NoDup (dict_keys attr) ->
  (exists c s1,
      run (add_node u attr) s = Some (c, s1) /\
      run (add_node u attr) s1 = Some (c, s1) /\
      c = (if add_node_accepts attr then Returns PNone
           else Raises TypeError) /\
      (add_node_accepts attr = true -> In u (nx_nodes (graph s1)))) /\
  (exists c s1,
      run (add_edge u v attr) s = Some (c, s1) /\
      run (add_edge u v attr) s1 = Some (c, s1) /\
      c = (if add_edge_accepts attr then Returns PNone
           else Raises TypeError) /\
      (add_edge_accepts attr = true ->
       nx_has_edge (graph s1) u v = true)).
Proof.
  intros Hl Hnd. split.
  - rewrite run_add_node by assumption.
    destruct (add_node_accepts attr) eqn:E; do 2 eexists;
      (split; [reflexivity|]).
    + rewrite run_add_node_accepted by (assumption || reflexivity).
      cbn [graph]. rewrite nx_add_node_twice by assumption.
      split; [reflexivity|]. split; [reflexivity|].
      intros _. apply nx_add_node_nodes. now left.
    + rewrite run_add_node by assumption. rewrite E.
      split; [reflexivity|]. split; [reflexivity | discriminate].
  - rewrite run_add_edge by assumption.
    destruct (add_edge_accepts attr) eqn:E; do 2 eexists;
      (split; [reflexivity|]).
    + rewrite run_add_edge_accepted by (assumption || reflexivity).
      cbn [graph]. rewrite nx_add_edge_twice by assumption.
      split; [reflexivity|]. split; [reflexivity|].
      intros _. apply nx_add_edge_has_edge.
    + rewrite run_add_edge by assumption. rewrite E.
      split; [reflexivity|]. split; [reflexivity | discriminate].
Qed.

Lemma mutators_are_idempotent_witness :
  (exists s1,
      run (add_node "a" [("kind", PStr "doc")]) GraphService_init =
        Some (Returns PNone, s1) /\
      run (add_node "a" [("kind", PStr "doc")]) s1 =
        Some (Returns PNone, s1) /\
      In "a" (nx_nodes (graph s1))) /\
  (exists s1,
      run (add_edge "a" "b" [("kind", PStr "doc")]) GraphService_init =
        Some (Returns PNone, s1) /\
      run (add_edge "a" "b" [("kind", PStr "doc")]) s1 =
        Some (Returns PNone, s1) /\
      nx_has_edge (graph s1) "a" "b" = true).
Proof.
  assert (Hnd : NoDup (dict_keys [("kind", PStr "doc")]))
    by (repeat constructor; simpl; tauto).
  destruct (@mutators_are_idempotent GraphService_init "a" "b"
              [("kind", PStr "doc")] eq_refl Hnd)
    as [(c & s1 & H1 & H2 & -> & H3) (c' & s1' & H1' & H2' & -> & H3')].
  split.
  - exists s1. split; [exact H1|]. split; [exact H2 | exact (H3 eq_refl)].
  - exists s1'. split; [exact H1'|]. split; [exact H2' | exact (H3' eq_refl)].
Defined.

(** X12. [add_node] calls on two different identifiers can be made in
    either order: in every state the service reaches, no query can tell
    which came first. *)
Theorem add_node_calls_commute (s : Service) (a b : string) (x y : attrs)
    (q : pyval) :
  reachable s ->
  a <> b ->
  option_map fst
    (run (add_node a x ;; add_node b y ;; query_node q) s) =
  option_map fst
    (run (add_node b y ;; add_node a x ;; query_node q) s).
Proof.
  intros Hs Hab. pose proof (reachable_wf Hs) as Hg.
  pose proof (reachable_unlocked Hs) as Hl.
  rewrite !run_add_node_then by (assumption || reflexivity).
  rewrite !run_query_node by reflexivity. cbn [option_map fst graph].
  f_equal.
  destruct (add_node_accepts x), (add_node_accepts y); cbv iota;
    try reflexivity.
  assert (Hm : forall m,
             dict_mem m (_node (nx_add_node (nx_add_node (graph s) a x) b y)) =
             dict_mem m (_node (nx_add_node (nx_add_node (graph s) b y) a x))).
  { intros m. rewrite !mem_add_node.
    destruct (String.eqb b m), (String.eqb a m); reflexivity. }
  assert (Hn : forall m,
             node_attrs (nx_add_node (nx_add_node (graph s) a x) b y) m =
             node_attrs (nx_add_node (nx_add_node (graph s) b y) a x) m).
  { intros m. rewrite !node_attrs_add_node.
    destruct (String.eqb_spec a b) as [|_]; [contradiction|].
    destruct (String.eqb_spec b a) as [|_]; [congruence|].
    destruct (String.eqb_spec b m) as [->|Hbm];
      destruct (String.eqb_spec a m) as [->|Ham]; congruence. }
  assert (He : forall m,
             nx_edges_of (nx_add_node (nx_add_node (graph s) a x) b y) m =
             nx_edges_of (nx_add_node (nx_add_node (graph s) b y) a x) m).
  { intros m. unfold nx_edges_of.
    rewrite !adj_of_add_node; auto using wf_add_node. }
  destruct q as [| | | |m| | |]; cbn [nx_contains]; try reflexivity.
  rewrite Hm. destruct (dict_mem m _); [|reflexivity].
  now rewrite Hn, He.
Qed.

Lemma add_node_calls_commute_witness :
  option_map fst
    (run (add_node "a" [("k", PInt 1)] ;; add_node "b" [] ;;
          query_node (PStr "a")) GraphService_init) =
  option_map fst
    (run (add_node "b" [] ;; add_node "a" [("k", PInt 1)] ;;
          query_node (PStr "a")) GraphService_init).
Proof.
  apply (@add_node_calls_commute GraphService_init "a" "b"
           [("k", PInt 1)] [] (PStr "a")).
  - exists []. apply serial_nil.
  - discriminate.
Defined.

(** X13. The lock is not re-entrant and is always given back.  While the
    lock is held, a call that binds its keywords cannot get into its
    method: it can make no access, run alone it never ends, and threads
    that all make such calls, none of them being the one that holds the
    lock, stay as they are for ever.  A call made while the lock is free
    ends, by returning or by raising, with the lock free.  A call whose
    keywords do not bind raises whatever the lock. *)
Theorem methods_and_the_lock (ops : list op) (s : Service) :
  (locked s = true ->
   Forall (fun o => entered o = true) ops ->
   (forall o, In o ops ->
              tstep (method o) s = None /\ run (method o) s = None) /\
   (forall tr st,
       steps {| shared := s; threads := map method ops |} tr st ->
       tr = [] /\ st = {| shared := s; threads := map method ops |})) /\
  (locked s = false ->
   forall o, exists c s',
     run (method o) s = Some (c, s') /\ locked s' = false) /\
  (forall o, entered o = false ->
             run (method o) s = Some (Raises TypeError, s)).
Proof.
  split; [|split].
  - intros Hl Hops.
    assert (Hblocked : forall o, In o ops ->
              tstep (method o) s = None /\ run (method o) s = None).
    { intros o Ho. rewrite Forall_forall in Hops.
      destruct (@method_shape o (Hops o Ho)) as (body & -> & _).
      unfold with_lock. simpl. now rewrite Hl. }
    split; [assumption|].
    intros tr st Hsteps.
    remember {| shared := s; threads := map method ops |} as st0 eqn:E.
    induction Hsteps as [|st0 tr st ev st' _ IH Hstep]; [now split|].
    destruct (IH E) as [-> ->]. subst st0. exfalso.
    inversion Hstep as [s1 s2 l1 p p' l2 Ht [Hs Hths]]. subst s1.
    symmetry in Hths. apply map_eq_app in Hths as (o1 & o2 & -> & _ & Hp).
    apply map_eq_cons in Hp as (o & o2' & -> & <- & _).
    destruct (Hblocked o) as [Hno _]; [apply in_or_app; right; now left|].
    congruence.
  - intros Hl o. destruct o as [n attr|u v attr|n].
    + cbn [method]. rewrite run_add_node by assumption.
      destruct (add_node_accepts attr); do 2 eexists; split;
        reflexivity || assumption.
    + cbn [method]. rewrite run_add_edge by assumption.
      destruct (add_edge_accepts attr); do 2 eexists; split;
        reflexivity || assumption.
    + rewrite run_method_query_node by assumption.
      do 2 eexists. split; [reflexivity | assumption].
  - intros o He. now rewrite method_not_entered.
Qed.

Lemma methods_and_the_lock_witness :
  (forall tr st,
      steps {| shared := {| graph := nx_Graph; locked := true |};
               threads := map method [AddNode "a" []; QueryNode (PStr "a")] |}
            tr st ->
      tr = [] /\
      st = {| shared := {| graph := nx_Graph; locked := true |};
              threads :=
                map method [AddNode "a" []; QueryNode (PStr "a")] |}) /\
  (exists c s',
      run (method (QueryNode (PStr "a"))) GraphService_init = Some (c, s') /\
      locked s' = false).
Proof.
  split.
  - apply (proj1 (@methods_and_the_lock
                    [AddNode "a" []; QueryNode (PStr "a")]
                    {| graph := nx_Graph; locked := true |})).
    + reflexivity.
    + repeat constructor.
  - apply (proj1 (proj2 (@methods_and_the_lock
                           [] GraphService_init))).
    reflexivity.
Defined.

(** The call that waits goes on as soon as the lock is free again. *)
Example blocked_call_goes_on :
  tstep (method (AddNode "a" [])) {| graph := nx_Graph; locked := true |} =
    None /\
  exists k,
    tstep (method (AddNode "a" [])) {| graph := nx_Graph; locked := false |} =
      Some (k, {| graph := nx_Graph; locked := true |}).
Proof. split; [reflexivity | eexists; reflexivity]. Qed.

(** ** Keywords named like a parameter *)

Lemma binds_false params kwargs :
  binds params kwargs = false <->
  exists name, In name params /\ In name (dict_keys kwargs).
Proof.
  unfold binds. rewrite negb_false_iff, existsb_exists.
  split; intros (name & H1 & H2); exists name; (split; [assumption|]);
    now apply dict_mem_In.
Qed.

(** X21. A keyword named like a parameter makes the call raise
    [TypeError], and nothing else happens.  From a free lock, [add_node]
    raises exactly when a keyword is [self], [node_id] or [node_for_adding],
    and [add_edge] exactly when one is [self], [source], [target],
    [u_of_edge] or [v_of_edge]: the graph and the lock are then as they
    were, and otherwise the call returns [None].  With a name of the
    method's own parameters the call raises without asking for the lock,
    so also while the lock is held. *)
Theorem keyword_collision_raises (s : Service) (u v : string) (attr : attrs) :
  locked s = false ->
  ((exists name,
       In name ["self"; "node_id"; "node_for_adding"] /\
       In name (dict_keys attr)) ->
   run (add_node u attr) s = Some (Raises TypeError, s)) /\
  ((forall name,
       In name ["self"; "node_id"; "node_for_adding"] ->
       ~ In name (dict_keys attr)) ->
   exists s', run (add_node u attr) s = Some (Returns PNone, s')) /\
  ((exists name,
       In name ["self"; "source"; "target"; "u_of_edge"; "v_of_edge"] /\
       In name (dict_keys attr)) ->
   run (add_edge u v attr) s = Some (Raises TypeError, s)) /\
  ((forall name,
       In name ["self"; "source"; "target"; "u_of_edge"; "v_of_edge"] ->
       ~ In name (dict_keys attr)) ->
   exists s', run (add_edge u v attr) s = Some (Returns PNone, s')) /\
  (forall held,
      (exists name, In name ["self"; "node_id"] /\ In name (dict_keys attr)) ->
      run (add_node u attr) {| graph := graph s; locked := held |} =
        Some (Raises TypeError, {| graph := graph s; locked := held |})) /\
  (forall held,
      (exists name,
          In name ["self"; "source"; "target"] /\ In name (dict_keys attr)) ->
      run (add_edge u v attr) {| graph := graph s; locked := held |} =
        Some (Raises TypeError, {| graph := graph s; locked := held |})).
Proof.
  intros Hl.
  assert (Hn : add_node_accepts attr = false <->
               exists name, In name ["self"; "node_id"; "node_for_adding"] /\
                            In name (dict_keys attr)).
  { unfold add_node_accepts. rewrite andb_false_iff, !binds_false. split.
    - intros [(name & H1 & H2)|(name & H1 & H2)]; exists name;
        (split; [simpl in *; tauto | assumption]).
    - intros (name & [<-|[<-|[<-|[]]]] & H2);
        [left | left | right]; eexists; (split; [|eassumption]);
        simpl; auto. }
  assert (He : add_edge_accepts attr = false <->
               exists name,
                 In name ["self"; "source"; "target"; "u_of_edge"; "v_of_edge"]
                 /\ In name (dict_keys attr)).
  { unfold add_edge_accepts. rewrite andb_false_iff, !binds_false. split.
    - intros [(name & H1 & H2)|(name & H1 & H2)]; exists name;
        (split; [simpl in *; tauto | assumption]).
    - intros (name & [<-|[<-|[<-|[<-|[<-|[]]]]]] & H2);
        [left | left | left | right | right]; eexists;
        (split; [|eassumption]); simpl; auto. }
  split; [|split; [|split; [|split; [|split]]]].
  - intros H. apply Hn in H. rewrite run_add_node by assumption.
    now rewrite H.
  - intros H. rewrite run_add_node by assumption.
    destruct (add_node_accepts attr); [now eexists|].
    destruct (proj1 Hn eq_refl) as (name & H1 & H2). now destruct (H name H1).
  - intros H. apply He in H. rewrite run_add_edge by assumption.
    now rewrite H.
  - intros H. rewrite run_add_edge by assumption.
    destruct (add_edge_accepts attr); [now eexists|].
    destruct (proj1 He eq_refl) as (name & H1 & H2). now destruct (H name H1).
  - intros held H. apply binds_false in H. unfold add_node. now rewrite H.
  - intros held H. apply binds_false in H. unfold add_edge. now rewrite H.
Qed.

Lemma keyword_collision_raises_witness :
  run (add_node "a" [("kind", PStr "doc"); ("node_for_adding", PStr "b")])
      GraphService_init = Some (Raises TypeError, GraphService_init) /\
  run (add_edge "a" "b" [("source", PStr "c")])
      {| graph := nx_Graph; locked := true |} =
    Some (Raises TypeError, {| graph := nx_Graph; locked := true |}).
Proof.
  destruct (@keyword_collision_raises GraphService_init "a" "b"
              [("kind", PStr "doc"); ("node_for_adding", PStr "b")] eq_refl)
    as (Hnode & _).
  destruct (@keyword_collision_raises GraphService_init "a" "b"
              [("source", PStr "c")] eq_refl)
    as (_ & _ & _ & _ & _ & Hedge).
  split.
  - apply Hnode. exists "node_for_adding". simpl. auto.
  - apply (Hedge true). exists "source". simpl. auto.
Defined.

(** * Further properties of the routes *)

Lemma run_graph_query_unlocked s payload :
  locked s = false ->
  exists answer, run (graph_query payload) s = Some (answer, s).
Proof.
  intros Hl. unfold graph_query.
  destruct payload as [| | | | |l|l|d]; try (now eexists).
  destruct (negb _); [now eexists|].
  rewrite run_bind, run_query_node by assumption. now eexists.
Qed.

Lemma run_view_function py_format r payload s :
  locked s = false ->
  exists answer,
    run (view_function py_format r payload) s = Some (answer, s) /\
    (r = Rule_graph_query -> graph s = nx_Graph ->
     answer = Response 400 (PDict [("error", PStr "'node' is required")]) \/
     answer = Unhandled \/
     answer = Response 200 (PDict [("exists", PBool false)])).
Proof.
  intros Hl. destruct r; cbn [view_function].
  - unfold graph_query.
    destruct payload as [| | | | |l|l|d]; try (eexists; split; [reflexivity|auto]).
    destruct (negb _); [eexists; split; [reflexivity|auto]|].
    rewrite run_bind, run_query_node by assumption.
    eexists. split; [reflexivity|]. intros _ Hg. rewrite Hg.
    right. right.
    now destruct (dict_get_default "node" d PNone) as [| | | |n| | |].
  - unfold chat. destruct payload as [| | | | |l|l|d];
      try (eexists; split; [reflexivity | discriminate]).
    destruct (negb _); eexists; (split; [reflexivity | discriminate]).
  - unfold document_analyze. destruct payload as [| | | | |l|l|d];
      try (eexists; split; [reflexivity | discriminate]).
    destruct (slice100_len _) as [[summary len]|];
      eexists; (split; [reflexivity | discriminate]).
Qed.

(** X14. No view writes the graph.  Whatever requests the application
    answers, in whatever number, each gets its answer and the service is
    left in the state it had; so a service that only the routes use keeps
    its empty graph, and every graph query is answered 400, or not at all,
    or 200 with [{"exists": False}]. *)
Theorem views_never_write (py_format : pyval -> string)
    (requests : list (rule * pyval)) (s : Service) :
  locked s = false ->
  exists answers,
    run (serve py_format requests) s = Some (answers, s) /\
    Forall2
      (fun request answer =>
         fst request = Rule_graph_query -> graph s = nx_Graph ->
         answer = Response 400 (PDict [("error", PStr "'node' is required")]) \/
         answer = Unhandled \/
         answer = Response 200 (PDict [("exists", PBool false)]))
      requests answers.
Proof.
  intros Hl. induction requests as [|[r payload] rest IH].
  - exists []. split; [reflexivity | constructor].
  - destruct IH as (answers & Hrun & Hall).
    destruct (@run_view_function py_format r payload s Hl)
      as (answer & Hr & Ha).
    exists (answer :: answers). cbn [serve]. split.
    + now rewrite run_bind, Hr, run_bind, Hrun.
    + constructor; assumption.
Qed.

Lemma views_never_write_witness :
  exists answers,
    run (serve (fun _ => "")
           [(Rule_chat, PDict [("message", PStr "hi")]);
            (Rule_graph_query, PDict [("node", PStr "a")]);
            (Rule_document_analyze, PDict [])])
        GraphService_init = Some (answers, GraphService_init) /\
    Forall2
      (fun request answer =>
         fst request = Rule_graph_query -> nx_Graph = nx_Graph ->
         answer = Response 400 (PDict [("error", PStr "'node' is required")]) \/
         answer = Unhandled \/
         answer = Response 200 (PDict [("exists", PBool false)]))
      [(Rule_chat, PDict [("message", PStr "hi")]);
       (Rule_graph_query, PDict [("node", PStr "a")]);
       (Rule_document_analyze, PDict [])]
      answers.
Proof.
  apply (@views_never_write (fun _ => "")
           [(Rule_chat, PDict [("message", PStr "hi")]);
            (Rule_graph_query, PDict [("node", PStr "a")]);
            (Rule_document_analyze, PDict [])]
           GraphService_init).
  reflexivity.
Defined.

(** X15. The node whose identifier is the empty string is out of reach of
    the route.  [graph_query] answers 200 with [exists: True] for every node
    of the graph but that one: [add_node("")] creates it and [query_node("")]
    finds it, and the route answers 400 for it all the same. *)
Theorem empty_id_is_out_of_reach (s : Service) (id : string) :
  locked s = false ->
  In id (nx_nodes (graph s)) ->
  run (graph_query (PDict [("node", PStr id)])) s =
    Some (if String.eqb id "" then
            Response 400 (PDict [("error", PStr "'node' is required")])
          else
            Response 200
              (PDict [("exists", PBool true);
                      ("data", PDict (node_attrs (graph s) id));
                      ("edges",
                       PList (map edge_tuple (nx_edges_of (graph s) id)))]),
          s) /\
  exists s',
    run (add_node "" []) s = Some (Returns PNone, s') /\
    run (query_node (PStr "")) s' =
      Some (PDict [("exists", PBool true);
                   ("data", PDict (node_attrs (graph s') ""));
                   ("edges",
                    PList (map edge_tuple (nx_edges_of (graph s') "")))],
            s') /\
    run (graph_query (PDict [("node", PStr "")])) s' =
      Some (Response 400 (PDict [("error", PStr "'node' is required")]), s').
Proof.
  intros Hl Hin. apply dict_mem_In in Hin. split.
  - unfold graph_query, dict_get_default.
    cbn [dict_get String.eqb Ascii.eqb Bool.eqb andb truthy].
    destruct (String.eqb id ""); cbn [negb]; [reflexivity|].
    rewrite run_bind, run_query_node by assumption. cbn [nx_contains].
    now rewrite Hin.
  - eexists. split; [now apply run_add_node_accepted|]. split; [|reflexivity].
    rewrite run_query_node by reflexivity. cbn [graph nx_contains].
    now rewrite nx_add_node_mem.
Qed.

Lemma empty_id_is_out_of_reach_witness :
  run (graph_query (PDict [("node", PStr "")]))
      {| graph := nx_add_edge nx_Graph "" "b" []; locked := false |} =
    Some (Response 400 (PDict [("error", PStr "'node' is required")]),
          {| graph := nx_add_edge nx_Graph "" "b" []; locked := false |}) /\
  exists s',
    run (add_node "" [])
        {| graph := nx_add_edge nx_Graph "" "b" []; locked := false |} =
      Some (Returns PNone, s') /\
    run (query_node (PStr "")) s' =
      Some (PDict [("exists", PBool true);
                   ("data", PDict (node_attrs (graph s') ""));
                   ("edges",
                    PList (map edge_tuple (nx_edges_of (graph s') "")))],
            s') /\
    run (graph_query (PDict [("node", PStr "")])) s' =
      Some (Response 400 (PDict [("error", PStr "'node' is required")]), s').
Proof.
  apply (@empty_id_is_out_of_reach
           {| graph := nx_add_edge nx_Graph "" "b" []; locked := false |} "").
  - reflexivity.
  - simpl. auto.
Defined.

Lemma prefix_append (s t : string) : prefix s (s ++ t)%string = true.
Proof.
  induction s as [|c s IH]; simpl; [now destruct t|].
  destruct (ascii_dec c c); [assumption | congruence].
Qed.

Section MoreRouteFacts.
Variable py_format : pyval -> string.

(** X16. The message is read back from the response: [process_message]
    puts eleven characters before it and nothing after, so dropping them
    gives the message again, and two messages with the same response are the
    same message. *)
Theorem process_message_round_trip (m m' : string) :
  substring 11 (String.length m) (process_message py_format (PStr m)) = m /\
  String.length (process_message py_format (PStr m)) =
    (11 + String.length m)%nat /\
  prefix "Processed: " (process_message py_format (PStr m)) = true /\
  (process_message py_format (PStr m) = process_message py_format (PStr m') ->
   m = m').
Proof.
  unfold process_message. split; [|split; [|split]].
  - simpl. apply substring_0_all. apply Nat.le_refl.
  - reflexivity.
  - apply prefix_append.
  - intros H. now injection H.
Qed.

(** X17. [chat] asks for a message as [graph_query] asks for a node: on a
    body that is a JSON object it answers 400 with
    [{"error": "'message' is required"}] when [message] is missing or holds
    a value Python takes for false, and 200 with the processed message
    under [response] for any other value; the response is never empty. *)
Theorem chat_validates_message (d : dict pyval) (s : Service) :
  ((dict_get "message" d = None \/
    exists v, dict_get "message" d = Some v /\ falsy v) ->
   run (chat py_format (PDict d)) s =
     Some (Response 400 (PDict [("error", PStr "'message' is required")]),
           s)) /\
  (forall v,
      dict_get "message" d = Some v -> ~ falsy v ->
      run (chat py_format (PDict d)) s =
        Some (Response 200
                (PDict [("response", PStr (process_message py_format v))]),
              s) /\
      truthy (PStr (process_message py_format v)) = true).
Proof.
  unfold chat, dict_get_default. split.
  - intros [->|(v & -> & Hv)]; [reflexivity|].
    apply truthy_false_iff in Hv. now rewrite Hv.
  - intros v -> Hv. rewrite <- truthy_false_iff in Hv.
    apply not_false_is_true in Hv. rewrite Hv. split; reflexivity.
Qed.
End MoreRouteFacts.

Lemma process_message_round_trip_witness :
  substring 11 2 (process_message (fun _ => "") (PStr "hi")) = "hi" /\
  String.length (process_message (fun _ => "") (PStr "hi")) = 13%nat /\
  prefix "Processed: " (process_message (fun _ => "") (PStr "hi")) = true /\
  "hi" = "hi".
Proof.
  destruct (@process_message_round_trip (fun _ => "") "hi" "hi")
    as (H1 & H2 & H3 & H4).
  split; [exact H1|]. split; [exact H2|]. split; [exact H3|].
  apply H4. reflexivity.
Defined.

Lemma chat_validates_message_witness :
  run (chat (fun _ => "") (PDict [("message", PStr "")])) GraphService_init =
    Some (Response 400 (PDict [("error", PStr "'message' is required")]),
          GraphService_init) /\
  run (chat (fun _ => "") (PDict [("message", PStr "hi")])) GraphService_init =
    Some (Response 200 (PDict [("response", PStr "Processed: hi")]),
          GraphService_init).
Proof.
  split.
  - apply (proj1 (@chat_validates_message (fun _ => "")
                    [("message", PStr "")] GraphService_init)).
    right. exists (PStr ""). split; [reflexivity|].
    apply truthy_false_iff. reflexivity.
  - apply (proj2 (@chat_validates_message (fun _ => "")
                    [("message", PStr "hi")] GraphService_init) (PStr "hi")).
    + reflexivity.
    + intros H. apply truthy_false_iff in H. discriminate H.
Defined.

(** X18. [document_analyze] raises exactly on a content that cannot be
    sliced, and never answers 400.  On a body that is a JSON object it
    returns with the service as it was; the request fails exactly when
    [content] is present and is [null], a boolean, a number or an object;
    a content that is an array is summarised like a string, by its first
    100 elements and its number of elements. *)
Theorem document_analyze_outcome (d : dict pyval) (s : Service) :
  exists answer,
    run (document_analyze (PDict d)) s = Some (answer, s) /\
    (answer = Unhandled <->
     sliceable (dict_get_default "content" d (PStr "")) = false) /\
    (forall body, answer <> Response 400 body) /\
    (forall l,
        dict_get "content" d = Some (PList l) ->
        answer =
          Response 200
            (PDict [("summary", PList (firstn 100 l));
                    ("length", PInt (Z.of_nat (length l)))]) /\
        length (firstn 100 l) = Nat.min 100 (length l)).
Proof.
  unfold document_analyze.
  destruct (dict_get_default "content" d (PStr "")) as [| | | |c|l|l|d'] eqn:E;
    cbn [slice100_len sliceable]; eexists; (split; [reflexivity|]);
    (split; [split; intros; try discriminate; reflexivity|]);
    (split; [intros body; discriminate|]);
    intros l' Hl'; unfold dict_get_default in E; rewrite Hl' in E;
    try discriminate E.
  injection E as <-. split; [reflexivity | apply length_firstn].
Qed.

(** X19. A summary is its own summary: [document_analyze] on what it
    returned as [summary] for a string returns that summary whole, with its
    length in characters, which is at most 100. *)
Theorem summary_is_stable (content : string) (s : Service) :
  exists summary,
    run (document_analyze (PDict [("content", PStr content)])) s =
      Some (Response 200
              (PDict [("summary", PStr summary);
                      ("length", PInt (Z.of_nat (py_len content)))]),
            s) /\
    run (document_analyze (PDict [("content", PStr summary)])) s =
      Some (Response 200
              (PDict [("summary", PStr summary);
                      ("length",
                       PInt (Z.of_nat (Nat.min 100 (py_len content))))]),
            s) /\
    py_len summary = Nat.min 100 (py_len content) /\
    py_len summary <= 100.
Proof.
  exists (py_slice_to 100 content).
  unfold document_analyze, dict_get_default.
  cbn [dict_get String.eqb Ascii.eqb Bool.eqb andb slice100_len].
  split; [reflexivity|]. rewrite py_slice_to_len.
  split; [|split; [reflexivity | apply Nat.le_min_l]].
  rewrite py_slice_to_all; [reflexivity|].
  rewrite py_slice_to_len. apply Nat.le_min_l.
Qed.

(** On 250 euro signs and then on the summary of them. *)
Example summary_of_the_summary :
  run (document_analyze
         (PDict [("content", PStr (str_mul euro 100))])) GraphService_init =
  Some (Response 200 (PDict [("summary", PStr (str_mul euro 100));
                             ("length", PInt 100)]),
        GraphService_init).
Proof. vm_compute. reflexivity. Qed.

Lemma document_analyze_outcome_witness :
  exists answer,
    run (document_analyze (PDict [("content", PList [PInt 1; PInt 2])]))
        GraphService_init = Some (answer, GraphService_init) /\
    answer =
      Response 200 (PDict [("summary", PList [PInt 1; PInt 2]);
                           ("length", PInt 2)]).
Proof.
  destruct (document_analyze_outcome [("content", PList [PInt 1; PInt 2])]
              GraphService_init) as (answer & Hrun & _ & _ & Hl).
  exists answer. split; [exact Hrun|].
  apply (proj1 (Hl [PInt 1; PInt 2] eq_refl)).
Defined.

(** * Further properties of the pool *)

(** X20. Whenever the lock is free the graph is whole.  Threads may run the
    methods with the calls into the library split into accesses, and pass
    through graphs where a node has its row and not yet its attributes; but
    at every moment of every interleaving at which no thread holds the
    lock, the service is in a state that invocations made one at a time
    reach, with every row, key and edge in order. *)
Theorem graph_whole_when_lock_free (impl : op -> prog completion)
    (s0 : Service) (ops : list op) (tr : list nat) (st : pool completion) :
  (forall o, entered o = true ->
             exists body, impl o = with_lock body /\ lockfree body) ->
  (forall o, entered o = false -> impl o = Ret (Raises TypeError)) ->
  (forall o s, locked s = false -> run (impl o) s = run (method o) s) ->
  reachable s0 ->
  steps {| shared := s0; threads := map impl ops |} tr st ->
  locked (shared st) = false ->
  reachable (shared st) /\
  wf (graph (shared st)) /\
  Forall (fun p => in_critical p = false) (threads st).
Proof.
  intros Hshape Hraise Hrun Hs0 Hsteps Hfree.
  pose proof (reachable_unlocked Hs0) as Hl0.
  assert (Hinv : pool_inv impl s0 ops tr st).
  { apply pool_inv_steps with (4 := Hsteps); try assumption.
    now apply pool_inv_init. }
  destruct Hinv as (hist & s_h & done & Hser & _ & _ & _ & Hcrit & Heq & _).
  rewrite Hfree in Hcrit. rewrite (Heq Hfree).
  assert (Hr : reachable s_h).
  { destruct Hs0 as [h0 H0]. exists (h0 ++ hist).
    now apply serial_app with (1 := H0). }
  split; [assumption|]. split; [now apply reachable_wf|].
  now apply filter_nil_Forall.
Qed.

Lemma graph_whole_when_lock_free_witness :
  reachable {| graph := nx_add_node nx_Graph "a" [("kind", PStr "doc")];
               locked := false |} /\
  wf (nx_add_node nx_Graph "a" [("kind", PStr "doc")]) /\
  Forall (fun p => in_critical p = false)
         [Ret (Returns PNone); method (QueryNode (PStr "a"));
          Ret (Raises TypeError)].
Proof.
  apply (@graph_whole_when_lock_free method_by_statement GraphService_init
           [AddNode "a" [("kind", PStr "doc")]; QueryNode (PStr "a");
            AddNode "b" [("self", PNone)]]
           [0]%nat
           {| shared :=
                {| graph := nx_add_node nx_Graph "a" [("kind", PStr "doc")];
                   locked := false |};
              threads := [Ret (Returns PNone); method (QueryNode (PStr "a"));
                          Ret (Raises TypeError)] |}
           method_by_statement_shape method_by_statement_not_entered
           method_by_statement_run).
  - exists []. apply serial_nil.
  - apply (@schedule_steps _ [0; 0; 0; 0; 0; 0; 0; 0; 0]%nat
             {| shared := GraphService_init;
                threads :=
                  map method_by_statement
                    [AddNode "a" [("kind", PStr "doc")];
                     QueryNode (PStr "a");
                     AddNode "b" [("self", PNone)]] |}).
    reflexivity.
  - reflexivity.
Defined.
